(** * neogo: entity-mapping core

    A shallow embedding of the reflective entity-mapping code of neogo
    ([internal/tags.go], [props.go], [hooks.go]) together with the
    properties its specification states about it.

    Go's [reflect] values are modelled by a small universe of types
    ([gtype]) and values ([value]): strings, ints, bools, the nil
    interface, pointers (nil or not), slices, arrays and structs whose
    fields carry what [reflect.StructField] exposes (name, export status,
    embedding, tag).  In-place mutation through [reflect.Value.Set] is
    modelled by explicit state passing: a function returns the new value of
    the cells it may write; a pointer owns what it points to, so two
    pointers never share a target.  Panics of [reflect] that the code can
    reach are outcomes of the model.

    What lies outside the files at hand is a parameter: which types satisfy
    [INode] and [IRelationship], [strcase.ToLowerCamel], and the
    assignability and conversion rules of [reflect].

    Two library calls are modelled on the inputs that decide them without
    the library's tables.  [FieldByName] is the lookup among the fields a
    struct declares, which is what [reflect] returns when the name is that
    of a declared field or the struct declares no embedded field
    ([plainLookup], [noEmbedded]); promotion through embedded structs is not
    modelled.  [lcFirst] lowers an ASCII first letter, which is what
    [unicode.ToLower] does on a name written in ASCII ([asciiName]).  The
    properties that need them carry these conditions as hypotheses. *)

From Stdlib Require Import ZArith Ascii String List Bool Lia.
From stdpp Require Import base option list strings gmap fin_maps.

Open Scope string_scope.
Open Scope list_scope.

(** ** Outcomes *)

(** A Go call either returns or panics. *)
Inductive outcome (A : Type) : Type :=
| Ret (a : A)
| Panic (msg : string).
Arguments Ret {A} a.
Arguments Panic {A} msg.

(** ** The reflect universe *)

Module Reflect.

#[local] Set Warnings "-register-all".


(** [reflect.StructField]: [Name], [PkgPath == ""] (exported), [Anonymous],
    [Tag] as its key/value pairs, and a payload: the field's type in a
    struct type, the field's value in a struct value. *)
Record fieldOf (V : Type) : Type := mkField {
  fname : string;
  fexported : bool;
  fanon : bool;
  ftag : list (string * string);
  fval : V
}.
Arguments mkField {V} _ _ _ _ _.
Arguments fname {V} _.
Arguments fexported {V} _.
Arguments fanon {V} _.
Arguments ftag {V} _.
Arguments fval {V} _.

Definition withVal {V W : Type} (f : fieldOf V) (w : W) : fieldOf W :=
  mkField (fname f) (fexported f) (fanon f) (ftag f) w.

Inductive gtype : Type :=
| TString
| TInt
| TBool
| TIface
| TPtr (elem : gtype)
| TSlice (elem : gtype)
| TArray (len : nat) (elem : gtype)
| TStruct (tname : string) (fields : list (fieldOf gtype)).

Inductive value : Type :=
| VString (s : string)
| VInt (z : Z)
| VBool (b : bool)
| VIfaceNil
| VNil (elem : gtype)
| VPtr (v : value)
| VSlice (elem : gtype) (isnil : bool) (items : list value)
| VArray (elem : gtype) (items : list value)
| VStruct (tname : string) (fields : list (fieldOf value)).

Inductive kind : Type :=
| KString | KInt | KBool | KInterface | KPtr | KSlice | KArray | KStruct.

Definition kindOf (t : gtype) : kind :=
  match t with
  | TString => KString
  | TInt => KInt
  | TBool => KBool
  | TIface => KInterface
  | TPtr _ => KPtr
  | TSlice _ => KSlice
  | TArray _ _ => KArray
  | TStruct _ _ => KStruct
  end.

(** [reflect.Type.Name]: the declared name, empty for composite types. *)
Definition typeName (t : gtype) : string :=
  match t with
  | TString => "string"
  | TInt => "int"
  | TBool => "bool"
  | TStruct n _ => n
  | _ => ""
  end.

(** [reflect.TypeOf]. *)
Fixpoint typeOf (v : value) : gtype :=
  match v with
  | VString _ => TString
  | VInt _ => TInt
  | VBool _ => TBool
  | VIfaceNil => TIface
  | VNil e => TPtr e
  | VPtr p => TPtr (typeOf p)
  | VSlice e _ _ => TSlice e
  | VArray e items => TArray (length items) e
  | VStruct n fs => TStruct n (map (fun f => withVal f (typeOf (fval f))) fs)
  end.

(** [reflect.Zero]. *)
Fixpoint zeroOf (t : gtype) : value :=
  match t with
  | TString => VString ""
  | TInt => VInt 0
  | TBool => VBool false
  | TIface => VIfaceNil
  | TPtr e => VNil e
  | TSlice e => VSlice e true []
  | TArray n e => VArray e (repeat (zeroOf e) n)
  | TStruct n fs => VStruct n (map (fun f => withVal f (zeroOf (fval f))) fs)
  end.

(** [reflect.Value.IsZero]. *)
Fixpoint isZero (v : value) : bool :=
  match v with
  | VString s => String.eqb s ""
  | VInt z => Z.eqb z 0
  | VBool b => negb b
  | VIfaceNil => true
  | VNil _ => true
  | VPtr _ => false
  | VSlice _ isnil _ => isnil
  | VArray _ items => forallb isZero items
  | VStruct _ fs => forallb (fun f => isZero (fval f)) fs
  end.

(** [reflect.StructTag.Lookup]. *)
Fixpoint tagLookup (tag : list (string * string)) (key : string) : option string :=
  match tag with
  | [] => None
  | (k, v) :: rest => if String.eqb k key then Some v else tagLookup rest key
  end.

(** Fields of a struct type ([NumField]/[Field(i)]). *)
Definition fieldsOfType (t : gtype) : list (fieldOf gtype) :=
  match t with
  | TStruct _ fs => fs
  | _ => []
  end.

(** [FieldByName] among the fields the struct declares: the index and the
    field of the first field with that name.  This is the result of
    [reflect] when there is such a field, and also when there is none and
    the struct declares no embedded field; fields promoted through embedded
    structs are not looked for. *)
Fixpoint fieldIndex {V : Type} (fs : list (fieldOf V)) (name : string) : option (nat * fieldOf V) :=
  match fs with
  | [] => None
  | f :: rest =>
      if String.eqb (fname f) name then Some (0, f)
      else match fieldIndex rest name with
           | Some (i, g) => Some (S i, g)
           | None => None
           end
  end.

End Reflect.
Export Reflect.

(** ** Strings *)

(** [strings.Split(s, ",")]. *)
Fixpoint splitComma (s : string) : list string :=
  match s with
  | EmptyString => [EmptyString]
  | String c rest =>
      if Ascii.eqb c ","%char then EmptyString :: splitComma rest
      else match splitComma rest with
           | [] => [String c EmptyString]
           | w :: ws => String c w :: ws
           end
  end.

(** ** internal/tags.go *)

Module Tags.

Definition neo4jTag : string := "neo4j".

(** [type neo4jName struct { name string; concrete bool }] *)
Record neo4jName : Type := mkName {
  name : string;
  concrete : bool
}.

(** The closure [extractTagFromMatch] of [extractNeo4JName], for a non-nil
    match: the tags after the call. *)
Definition extractTagFromMatch (tags : list neo4jName) (f : fieldOf gtype) : list neo4jName :=
  match tagLookup (ftag f) neo4jTag with
  | None => tags
  | Some label =>
      tags ++ [ mkName (hd "" (splitComma label))
                       (negb (String.eqb (typeName (fval f)) "Label")) ]
  end.

(** The inner loop [for i := 0; i < v.NumField(); i++] of the traversal:
    every anonymous field of struct kind is queued and its tag extracted. *)
Fixpoint scanFields (fs : list (fieldOf gtype)) (queue : list gtype) (tags : list neo4jName)
  : list gtype * list neo4jName :=
  match fs with
  | [] => (queue, tags)
  | f :: rest =>
      match fanon f, kindOf (fval f) with
      | true, KStruct => scanFields rest (queue ++ [fval f]) (extractTagFromMatch tags f)
      | _, _ => scanFields rest queue tags
      end
  end.

(** The outer loop [for len(queue) > 0]; [fuel] bounds the number of
    dequeued types. *)
Fixpoint walkQueue (fuel : nat) (queue : list gtype) (tags : list neo4jName)
  : option (list neo4jName) :=
  match queue with
  | [] => Some tags
  | v :: rest =>
      match fuel with
      | O => None
      | S fuel' =>
          let '(queue', tags') := scanFields (fieldsOfType v) rest tags in
          walkQueue fuel' queue' tags'
      end
  end.

(** Number of type nodes of a type: a bound on the types ever queued. *)
Fixpoint typeWeight (t : gtype) : nat :=
  match t with
  | TPtr e | TSlice e | TArray _ e => S (typeWeight e)
  | TStruct _ fs => S (list_sum (map (fun f => typeWeight (fval f)) fs))
  | _ => 1
  end.

(** The branch [len(fields) > 0]: one lookup per requested field name,
    among the declared fields (see [fieldIndex]). *)
Fixpoint scanNamed (fs : list (fieldOf gtype)) (names : list string) (tags : list neo4jName)
  : list neo4jName :=
  match names with
  | [] => tags
  | n :: rest =>
      match fieldIndex fs n with
      | Some (_, f) => scanNamed fs rest (extractTagFromMatch tags f)
      | None => scanNamed fs rest tags
      end
  end.

(** The final loop [for i, j := 0, len(tags)-1; i < j; i, j = i+1, j-1]
    swapping [tags[i]] and [tags[j]].  [j] is kept as a natural number; the
    loop is entered only when [i < j]. *)
Fixpoint swapLoop {A : Type} (fuel : nat) (i j : nat) (tags : list A) : list A :=
  match fuel with
  | O => tags
  | S fuel' =>
      if Nat.ltb i j then
        match tags !! i, tags !! j with
        | Some a, Some b => swapLoop fuel' (i + 1) (j - 1) (<[j := a]> (<[i := b]> tags))
        | _, _ => tags
        end
      else tags
  end.

Definition reverseInPlace {A : Type} (tags : list A) : list A :=
  swapLoop (length tags) 0 (length tags - 1) tags.

(** [for val.Kind() == reflect.Ptr { val = val.Elem() }] on a type. *)
Fixpoint derefType (t : gtype) : gtype :=
  match t with
  | TPtr e => derefType e
  | _ => t
  end.

(** [extractNeo4JName(instance, fields...)], on the type of [instance].
    [None] is the error result (the type is not a struct). *)
Definition extractNeo4JName (t : gtype) (fields : list string) : option (list neo4jName) :=
  let val := derefType t in
  match val with
  | TStruct _ fs =>
      let tags :=
        match fields with
        | _ :: _ => scanNamed fs fields []
        | [] =>
            match walkQueue (typeWeight val) [val] [] with
            | Some tags => tags
            | None => []
            end
        end in
      Some (reverseInPlace tags)
  | _ => None
  end.

(** The interfaces [INode] and [IRelationship] are declared outside the
    files at hand: which dynamic types satisfy them is a parameter. *)
Record ifaces : Type := mkIfaces {
  isINode : gtype -> bool;
  isIRelationship : gtype -> bool
}.

(** [tags, err := extractNeo4JName(i); if err != nil { return nil }]. *)
Definition labelsOfNode (t : gtype) : option (list neo4jName) :=
  extractNeo4JName t [].

(** [extractNodeLabels(reflect.Zero(t).Interface())]: the zero value of an
    interface type is the nil interface; the zero value of a pointer type
    is a nil pointer, on which the loop calls [Interface] on the invalid
    [Elem] and panics. *)
Fixpoint extractNodeLabelsZero (I : ifaces) (t : gtype) : outcome (option (list neo4jName)) :=
  match t with
  | TIface => Ret None
  | _ =>
      if isINode I t then Ret (labelsOfNode t)
      else match t with
           | TPtr _ => Panic "reflect: call of reflect.Value.Interface on zero Value"
           | TSlice e | TArray _ e => extractNodeLabelsZero I e
           | _ => Ret None
           end
  end.

(** The pointer loop of [extractNodeLabels] followed by the slice/array
    test, on a value that is not an [INode]. *)
Fixpoint unwrapNode (I : ifaces) (v : value) : outcome (option (list neo4jName)) :=
  match v with
  | VNil _ => Panic "reflect: call of reflect.Value.Interface on zero Value"
  | VPtr p =>
      if isINode I (typeOf p) then Ret (labelsOfNode (typeOf p))
      else unwrapNode I p
  | VSlice e _ _ | VArray e _ => extractNodeLabelsZero I e
  | _ => Ret None
  end.

(** [extractNodeLabels(i any)]; [None] as input is the nil interface and
    [None] as result is the nil slice. *)
Definition extractNodeLabels (I : ifaces) (i : option value) : outcome (option (list neo4jName)) :=
  match i with
  | None => Ret None
  | Some v =>
      if isINode I (typeOf v) then Ret (labelsOfNode (typeOf v))
      else unwrapNode I v
  end.

Definition mapOutcome {A B : Type} (f : A -> B) (o : outcome A) : outcome B :=
  match o with
  | Ret a => Ret (f a)
  | Panic m => Panic m
  end.

(** [ExtractNodeLabels]. *)
Definition ExtractNodeLabels (I : ifaces) (i : option value) : outcome (option (list string)) :=
  mapOutcome (fun labels =>
    match labels with
    | None => None
    | Some ls => Some (map name ls)
    end) (extractNodeLabels I i).

(** The loop [for _, l := range labels { if l.concrete { out = append(out, l.name) } }]. *)
Fixpoint appendConcrete (labels : list neo4jName) (out : list string) : list string :=
  match labels with
  | [] => out
  | l :: rest => appendConcrete rest (if concrete l then out ++ [name l] else out)
  end.

(** [ExtractConcreteNodeLabels]. *)
Definition ExtractConcreteNodeLabels (I : ifaces) (i : option value) : outcome (option (list string)) :=
  mapOutcome (fun labels =>
    match labels with
    | None => None
    | Some ls => Some (appendConcrete ls [])
    end) (extractNodeLabels I i).

(** The tail of [ExtractRelationshipType] once the value is known to be an
    [IRelationship]. *)
Definition relationshipTypeOf (t : gtype) : outcome string :=
  match extractNeo4JName t [] with
  | None => Ret ""
  | Some tags =>
      if Nat.ltb 1 (length tags) then
        Panic "relationships with multiple types are not supported in Neo4J"
      else match tags with
           | [] => Ret ""
           | t0 :: _ => Ret (name t0)
           end
  end.

(** [ExtractRelationshipType(reflect.Zero(t).Interface())]. *)
Fixpoint ExtractRelationshipTypeZero (I : ifaces) (t : gtype) : outcome string :=
  match t with
  | TIface => Ret ""
  | _ =>
      if isIRelationship I t then relationshipTypeOf t
      else match t with
           | TSlice e | TArray _ e => ExtractRelationshipTypeZero I e
           | _ => Ret ""
           end
  end.

(** [for v.Kind() == reflect.Ptr { v = v.Elem() }] on a value; [None] is
    the invalid [reflect.Value] reached through a nil pointer. *)
Fixpoint derefValue (v : value) : option value :=
  match v with
  | VNil _ => None
  | VPtr p => derefValue p
  | _ => Some v
  end.

(** [ExtractRelationshipType(relationship any)]. *)
Definition ExtractRelationshipType (I : ifaces) (relationship : option value) : outcome string :=
  match relationship with
  | None => Ret ""
  | Some r =>
      if isIRelationship I (typeOf r) then relationshipTypeOf (typeOf r)
      else match derefValue r with
           | Some (VSlice e _ _) | Some (VArray e _) => ExtractRelationshipTypeZero I e
           | _ => Ret ""
           end
  end.

(** [type PropTag struct] *)
Record PropTag : Type := mkPropTag {
  Name : string;
  Flatten : bool;
  Ignore : bool;
  TagKey : string;
  RawOpts : list string
}.

(** [for _, o := range opts { if o == "flatten" { t.Flatten = true } }] *)
Fixpoint scanOpts (opts : list string) (flatten : bool) : bool :=
  match opts with
  | [] => flatten
  | o :: rest => scanOpts rest (if String.eqb o "flatten" then true else flatten)
  end.

(** [ParsePropTag(key, raw)]. *)
Definition ParsePropTag (key raw : string) : PropTag :=
  let parts := splitComma raw in
  let name := hd "" parts in
  let opts := if Nat.ltb 1 (length parts) then tl parts else [] in
  if String.eqb name "-" then mkPropTag name false true key opts
  else mkPropTag name (scanOpts opts false) false key opts.

(** [PropTagForField]: the [db] tag wins over the [json] tag. *)
Definition PropTagForField {V : Type} (sf : fieldOf V) : option PropTag :=
  match tagLookup (ftag sf) "db" with
  | Some raw => Some (ParsePropTag "db" raw)
  | None =>
      match tagLookup (ftag sf) "json" with
      | Some raw => Some (ParsePropTag "json" raw)
      | None => None
      end
  end.

(** [JoinPrefix]. *)
Definition JoinPrefix (prefix name : string) : string :=
  if String.eqb prefix "" then name else prefix ++ "_" ++ name.

(** [ValidateFlattenType]: [true] when no error is returned. *)
Definition ValidateFlattenType (t : gtype) : bool :=
  match derefType t with
  | TStruct _ _ => true
  | _ => false
  end.

End Tags.
Export Tags.

(** ** props.go *)

Module Props.

Inductive propsError : Type :=
| ErrDuplicateKey (key : string)
| ErrFlattenType.

Inductive result (A : Type) : Type :=
| Ok (a : A)
| Err (e : propsError).
Arguments Ok {A} a.
Arguments Err {A} e.

(** [derefAll]: [None] is the invalid [reflect.Value]. *)
Fixpoint derefAll (v : value) : option value :=
  match v with
  | VNil _ => None
  | VPtr p => derefAll p
  | _ => Some v
  end.

Definition isNilPtr (v : value) : bool :=
  match v with
  | VNil _ => true
  | _ => false
  end.

(** The body of the loop of [collectProps] for the field [ft] holding
    [fval ft]; [rec] is [collectProps] itself and [toLowerCamel] is
    [strcase.ToLowerCamel], on which [DefaultPropName] rests. *)
Definition collectField (toLowerCamel : string -> string)
    (rec : value -> string -> gmap string value -> result (gmap string value))
    (ft : fieldOf value) (prefix : string) (props : gmap string value)
  : result (gmap string value) :=
  let fv := fval ft in
  if negb (fexported ft) then Ok props
  else match PropTagForField ft with
       | None => if fanon ft then rec fv prefix props else Ok props
       | Some tag =>
           if Ignore tag then Ok props
           else if Flatten tag then
             if negb (ValidateFlattenType (typeOf fv)) then Err ErrFlattenType
             else if isNilPtr fv then Ok props
             else if isZero fv then Ok props
             else
               let flattenPrefix :=
                 if String.eqb (Name tag) "" then toLowerCamel (fname ft) else Name tag in
               rec fv (JoinPrefix prefix flattenPrefix) props
           else if isZero fv then Ok props
           else
             let name := if String.eqb (Name tag) "" then toLowerCamel (fname ft) else Name tag in
             let key := JoinPrefix prefix name in
             match props !! key with
             | Some _ => Err (ErrDuplicateKey key)
             | None => Ok (<[key := fv]> props)
             end
       end.

(** [collectProps]: the pointer loop of [derefAll] is the recursion through
    [VPtr]; the loop over the fields threads the map. *)
Fixpoint collectProps (toLowerCamel : string -> string) (v : value) (prefix : string)
    (props : gmap string value) {struct v} : result (gmap string value) :=
  match v with
  | VPtr p => collectProps toLowerCamel p prefix props
  | VStruct _ fs =>
      (fix fields (fs : list (fieldOf value)) (props : gmap string value) {struct fs}
         : result (gmap string value) :=
         match fs with
         | [] => Ok props
         | ft :: rest =>
             match collectField toLowerCamel (collectProps toLowerCamel) ft prefix props with
             | Ok props' => fields rest props'
             | Err e => Err e
             end
         end) fs props
  | _ => Ok props
  end.

(** The loop over the fields, as a function of its own. *)
Fixpoint collectFields (toLowerCamel : string -> string) (fs : list (fieldOf value))
    (prefix : string) (props : gmap string value) : result (gmap string value) :=
  match fs with
  | [] => Ok props
  | ft :: rest =>
      match collectField toLowerCamel (collectProps toLowerCamel) ft prefix props with
      | Ok props' => collectFields toLowerCamel rest prefix props'
      | Err e => Err e
      end
  end.

Inductive structError : Type :=
| ErrNotStruct
| ErrProps (e : propsError).

(** [PropsFromStruct]: a nil pointer gives the empty map, a value that is
    not a struct an error. *)
Fixpoint PropsFromStruct (toLowerCamel : string -> string) (v : value)
  : structError + gmap string value :=
  match v with
  | VNil _ => inr ∅
  | VPtr p => PropsFromStruct toLowerCamel p
  | VStruct _ _ =>
      match collectProps toLowerCamel v "" ∅ with
      | Ok props => inr props
      | Err e => inl (ErrProps e)
      end
  | _ => inl ErrNotStruct
  end.

End Props.
Export Props.

(** ** hooks.go *)

Module Hooks.

(** [reflect.Type.AssignableTo], [ConvertibleTo] and [Value.Convert]
    belong to Go's [reflect] package: they are parameters of the model. *)
Record conv : Type := mkConv {
  assignable : gtype -> gtype -> bool;
  convertible : gtype -> gtype -> bool;
  convert : value -> gtype -> value
}.

(** Identity of types: the first rule of assignability. *)
Fixpoint tagsIdentical (a b : list (string * string)) : bool :=
  match a, b with
  | [], [] => true
  | (k, v) :: a', (k', v') :: b' => String.eqb k k' && String.eqb v v' && tagsIdentical a' b'
  | _, _ => false
  end.

Fixpoint identical (a b : gtype) : bool :=
  match a, b with
  | TString, TString | TInt, TInt | TBool, TBool | TIface, TIface => true
  | TPtr x, TPtr y | TSlice x, TSlice y => identical x y
  | TArray n x, TArray m y => Nat.eqb n m && identical x y
  | TStruct n fs, TStruct m gs =>
      String.eqb n m &&
      (fix fields (fs gs : list (fieldOf gtype)) {struct fs} : bool :=
         match fs, gs with
         | [], [] => true
         | f :: fs', g :: gs' =>
             String.eqb (fname f) (fname g) && Bool.eqb (fexported f) (fexported g)
             && Bool.eqb (fanon f) (fanon g) && tagsIdentical (ftag f) (ftag g)
             && identical (fval f) (fval g) && fields fs' gs'
         | _, _ => false
         end) fs gs
  | _, _ => false
  end.

(** The instance in which a value is assignable exactly to its own type
    and nothing is converted. *)
Definition identConv : conv :=
  mkConv identical (fun _ _ => false) (fun v _ => v).

(** [strings.HasSuffix] and [strings.TrimSuffix]. *)
Definition HasSuffix (s suffix : string) : bool :=
  Nat.leb (String.length suffix) (String.length s)
  && String.eqb (substring (String.length s - String.length suffix) (String.length suffix) s) suffix.

Definition TrimSuffix (s suffix : string) : string :=
  if HasSuffix s suffix then substring 0 (String.length s - String.length suffix) s else s.

(** [localeBaseName]; [None] stands for [("", false)]. *)
Definition localeBaseName (fieldName : string) : option string :=
  if HasSuffix fieldName "Locales" then Some (TrimSuffix fieldName "Locales")
  else if HasSuffix fieldName "Locale" then Some (TrimSuffix fieldName "Locale")
  else None.

(** [unicode.ToLower] on an ASCII letter. *)
Definition toLower (c : ascii) : ascii :=
  let n := nat_of_ascii c in
  if Nat.leb 65 n && Nat.leb n 90 then ascii_of_nat (n + 32) else c.

(** [lcFirst] on a name written in ASCII, where the first rune is the first
    byte and [unicode.ToLower] changes the letters A to Z only. *)
Definition lcFirst (s : string) : string :=
  match s with
  | EmptyString => s
  | String c rest => String (toLower c) rest
  end.

(** [resolveKeys]; [None] is the nil selector. *)
Definition resolveKeys (selector : option (list string)) : list string :=
  match selector with
  | Some (k :: ks) => k :: ks
  | _ => ["EnUS"; "EnAU"]
  end.

(** [assignValue(dst, src)].  [dst] is the current content of the
    destination cell and [canSet] its [CanSet]; [srcRO] tells that [src] was
    obtained through an unexported field, on which [Value.Set] panics.
    [Ret (Some v)]: the cell now holds [v] and the call returned true;
    [Ret None]: nothing written, false returned. *)
Definition assignValue (C : conv) (dst : value) (canSet : bool) (src : value) (srcRO : bool)
  : outcome (option value) :=
  if negb canSet then Ret None
  else if assignable C (typeOf src) (typeOf dst) then
    if srcRO then Panic "reflect: reflect.Value.Set using value obtained using unexported field"
    else Ret (Some src)
  else if convertible C (typeOf src) (typeOf dst) then
    if srcRO then Panic "reflect: reflect.Value.Set using value obtained using unexported field"
    else Ret (Some (convert C src (typeOf dst)))
  else Ret None.

(** [firstPreferredLocaleValue]: the first preferred key naming a field of
    the companion that is not zero; the keys are looked up among the
    declared fields of the companion (see [fieldIndex]). *)
Fixpoint firstPreferredLocaleValue (lfs : list (fieldOf value)) (preferredKeys : list string)
  : option (fieldOf value) :=
  match preferredKeys with
  | [] => None
  | key :: rest =>
      match fieldIndex lfs key with
      | Some (_, f) => if isZero (fval f) then firstPreferredLocaleValue lfs rest else Some f
      | None => firstPreferredLocaleValue lfs rest
      end
  end.

(** The second loop of [setBaseFromLocale], over the companion's fields in
    declaration order. *)
Fixpoint baseFromFields (C : conv) (base : value) (lfs : list (fieldOf value))
  : outcome (option value) :=
  match lfs with
  | [] => Ret None
  | f :: rest =>
      if isZero (fval f) then baseFromFields C base rest
      else match assignValue C base true (fval f) (negb (fexported f)) with
           | Panic m => Panic m
           | Ret (Some v) => Ret (Some v)
           | Ret None => baseFromFields C base rest
           end
  end.

(** [setBaseFromLocale(baseValue, localeValue, preferredKeys)] on a settable
    base cell holding [base] and a companion struct with fields [lfs]:
    [Ret (Some v)] when it returns true having stored [v] in the base. *)
Definition setBaseFromLocale (C : conv) (base : value) (lfs : list (fieldOf value))
    (preferredKeys : list string) : outcome (option value) :=
  match firstPreferredLocaleValue lfs preferredKeys with
  | Some f =>
      match assignValue C base true (fval f) (negb (fexported f)) with
      | Panic m => Panic m
      | Ret (Some v) => Ret (Some v)
      | Ret None => baseFromFields C base lfs
      end
  | None => baseFromFields C base lfs
  end.

(** The first loop of [setLocaleFromBase], over the preferred keys, looked
    up among the declared fields of the companion (see [fieldIndex]):
    [Some lfs'] when a field was written. *)
Fixpoint localeFromKeys (C : conv) (base : value) (lfs : list (fieldOf value))
    (preferredKeys : list string) : option (list (fieldOf value)) :=
  match preferredKeys with
  | [] => None
  | key :: rest =>
      match fieldIndex lfs key with
      | Some (i, f) =>
          if negb (fexported f) || negb (isZero (fval f)) then localeFromKeys C base lfs rest
          else match assignValue C (fval f) true base false with
               | Ret (Some v) => Some (<[i := withVal f v]> lfs)
               | _ => localeFromKeys C base lfs rest
               end
      | None => localeFromKeys C base lfs rest
      end
  end.

(** The second loop of [setLocaleFromBase], in declaration order. *)
Fixpoint localeFromFields (C : conv) (base : value) (lfs : list (fieldOf value))
  : option (list (fieldOf value)) :=
  match lfs with
  | [] => None
  | f :: rest =>
      if negb (fexported f) || negb (isZero (fval f)) then
        option_map (cons f) (localeFromFields C base rest)
      else match assignValue C (fval f) true base false with
           | Ret (Some v) => Some (withVal f v :: rest)
           | _ => option_map (cons f) (localeFromFields C base rest)
           end
  end.

(** [setLocaleFromBase]: the companion's fields afterwards and the boolean
    returned. *)
Definition setLocaleFromBase (C : conv) (base : value) (lfs : list (fieldOf value))
    (preferredKeys : list string) : list (fieldOf value) * bool :=
  match localeFromKeys C base lfs preferredKeys with
  | Some lfs' => (lfs', true)
  | None =>
      match localeFromFields C base lfs with
      | Some lfs' => (lfs', true)
      | None => (lfs, false)
      end
  end.

(** Lines 84-117 of [localesMarshalHook] for one pair: [base] and [locale]
    are the contents of the two fields, both settable; the result is their
    contents when the iteration ends. *)
Definition marshalPair (C : conv) (preferredKeys : list string) (base locale : value)
  : outcome (value * value) :=
  let afterBase (wrapB : value -> value) (bv : value) : outcome (value * value) :=
    let afterLocale (wrapL : value -> value) (lv : value) : outcome (value * value) :=
      match lv with
      | VStruct ln lfs =>
          if isZero bv then
            if isZero lv then Ret (wrapB bv, wrapL lv)
            else match setBaseFromLocale C bv lfs preferredKeys with
                 | Panic m => Panic m
                 | Ret (Some bv') => Ret (wrapB bv', wrapL lv)
                 | Ret None => Ret (wrapB bv, wrapL lv)
                 end
          else if isZero lv then
            Ret (wrapB bv, wrapL (VStruct ln (fst (setLocaleFromBase C bv lfs preferredKeys))))
          else Ret (wrapB bv, wrapL lv)
      | _ => Ret (wrapB bv, wrapL lv)
      end in
    match locale with
    | VNil lt =>
        if isZero bv then Ret (wrapB bv, locale)
        else afterLocale VPtr (zeroOf lt)
    | VPtr lv => afterLocale VPtr lv
    | _ => afterLocale (fun x => x) locale
    end in
  match base with
  | VNil bt =>
      if isZero locale then Ret (base, locale)
      else afterBase VPtr (zeroOf bt)
  | VPtr bv => afterBase VPtr bv
  | _ => afterBase (fun x => x) base
  end.

(** One iteration of the loop over the struct's fields, shared by the two
    hooks: field [i] is a companion when it is exported, its name has a
    locale suffix and the struct has an exported, settable field named by
    what is left; [sync] then rewrites the two fields.  The base is looked
    up among the declared fields (see [fieldIndex]); a declared field is
    settable exactly when the record is addressable. *)
Definition pairStep (sync : string -> value -> value -> outcome (value * value))
    (addressable : bool) (fs : list (fieldOf value)) (i : nat)
  : outcome (list (fieldOf value)) :=
  match fs !! i with
  | None => Ret fs
  | Some localeField =>
      if negb (fexported localeField) then Ret fs
      else match localeBaseName (fname localeField) with
           | None => Ret fs
           | Some baseName =>
               match fieldIndex fs baseName with
               | None => Ret fs
               | Some (bi, baseField) =>
                   if negb (fexported baseField) then Ret fs
                   else if negb addressable then Ret fs
                   else match sync baseName (fval baseField) (fval localeField) with
                        | Panic m => Panic m
                        | Ret (b', l') =>
                            Ret (<[bi := withVal baseField b']> (<[i := withVal localeField l']> fs))
                        end
               end
           end
  end.

(** [for i := 0; i < valueT.NumField(); i++]: [n] iterations from [i]. *)
Fixpoint fieldLoop (step : list (fieldOf value) -> nat -> outcome (list (fieldOf value)))
    (n i : nat) (fs : list (fieldOf value)) : outcome (list (fieldOf value)) :=
  match n with
  | O => Ret fs
  | S n' =>
      match step fs i with
      | Panic m => Panic m
      | Ret fs' => fieldLoop step n' (S i) fs'
      end
  end.

(** Modelled from the spec: [unwindValue] is defined outside the files at
    hand.  The hooks are handed a record or a pointer to one, through any
    depth; [unwindValue] follows the pointers down to the record, a nil
    pointer giving the invalid value on which the hooks return at once.
    What is reached through a pointer is addressable.  [onRecord] runs
    [body] on the fields of that record and puts the result back in
    place. *)
Fixpoint onRecord (body : bool -> list (fieldOf value) -> outcome (list (fieldOf value)))
    (addressable : bool) (v : value) : outcome value :=
  match v with
  | VPtr p => mapOutcome VPtr (onRecord body true p)
  | VStruct n fs => mapOutcome (VStruct n) (body addressable fs)
  | _ => Ret v
  end.

(** [localesMarshalHook(value, preferredKeys)]; [addressable] is
    [value.CanAddr()] and the result is the record after the hook. *)
Definition localesMarshalHook (C : conv) (preferredKeys : list string)
    (addressable : bool) (v : value) : outcome value :=
  onRecord (fun addr fs =>
    fieldLoop (pairStep (fun _ => marshalPair C preferredKeys) addr) (length fs) 0 fs)
    addressable v.

(** The flat key of a locale field: [prefix + "_" + lcFirst(name)]. *)
Definition flatKey (prefix name : string) : string :=
  String.append prefix (String.append "_" (lcFirst name)).

(** [hasAnyFlatKey]. *)
Fixpoint hasAnyFlatKey (props : gmap string (option value)) (prefix : string)
    (preferredKeys : list string) : bool :=
  match preferredKeys with
  | [] => false
  | key :: rest =>
      match props !! flatKey prefix key with
      | Some _ => true
      | None => hasAnyFlatKey props prefix rest
      end
  end.

(** The body of the loop of [extractFlatLocaleKeys] for the companion field
    [lf]: the value stored in it, if any. *)
Definition extractField (C : conv) (props : gmap string (option value)) (prefix : string)
    (lf : fieldOf value) : option value :=
  if negb (fexported lf) then None
  else match props !! flatKey prefix (fname lf) with
       | None => None
       | Some None => None
       | Some (Some rv) =>
           if assignable C (typeOf rv) (typeOf (fval lf)) then Some rv
           else if convertible C (typeOf rv) (typeOf (fval lf)) then
             Some (convert C rv (typeOf (fval lf)))
           else None
       end.

(** The loop of [extractFlatLocaleKeys] over the companion's fields: the
    fields afterwards and [found]. *)
Fixpoint extractFields (C : conv) (props : gmap string (option value)) (prefix : string)
    (lfs : list (fieldOf value)) (found : bool) : list (fieldOf value) * bool :=
  match lfs with
  | [] => ([], found)
  | lf :: rest =>
      match extractField C props prefix lf with
      | Some v =>
          let '(rest', found') := extractFields C props prefix rest true in
          (withVal lf v :: rest', found')
      | None =>
          let '(rest', found') := extractFields C props prefix rest found in
          (lf :: rest', found')
      end
  end.

(** [extractFlatLocaleKeys(props, baseName, localeValue, preferredKeys)]:
    the companion cell afterwards and the boolean returned. *)
Definition extractFlatLocaleKeys (C : conv) (props : gmap string (option value))
    (baseName : string) (locale : value) (preferredKeys : list string) : value * bool :=
  let prefix := lcFirst baseName in
  let fill (wrapL : value -> value) (lv : value) : value * bool :=
    match lv with
    | VStruct ln lfs =>
        let '(lfs', found) := extractFields C props prefix lfs false in
        (wrapL (VStruct ln lfs'), found)
    | _ => (wrapL lv, false)
    end in
  match locale with
  | VNil lt =>
      if negb (hasAnyFlatKey props prefix preferredKeys) then (locale, false)
      else fill VPtr (zeroOf lt)
  | VPtr lv => fill VPtr lv
  | _ => fill (fun x => x) locale
  end.

(** Lines 152-200 of [localesUnmarshalHook] for one pair; [props] is
    [None] when [from] is not a [map[string]any]. *)
Definition unmarshalPair (C : conv) (preferredKeys : list string)
    (props : option (gmap string (option value))) (baseName : string) (base locale : value)
  : outcome (value * value) :=
  let '(locale1, flatKeysFound) :=
    match props with
    | Some m => extractFlatLocaleKeys C m baseName locale preferredKeys
    | None => (locale, false)
    end in
  let phase2 (wrapB : value -> value) (bv : value) : outcome (value * value) :=
    let sync (lv : value) : outcome (value * value) :=
      match lv with
      | VStruct _ lfs =>
          let overwrite : outcome (value * value) :=
            match setBaseFromLocale C bv lfs preferredKeys with
            | Panic m => Panic m
            | Ret (Some bv') => Ret (wrapB bv', locale1)
            | Ret None => Ret (wrapB bv, locale1)
            end in
          if flatKeysFound then overwrite
          else if isZero bv then
            if isZero lv then Ret (wrapB bv, locale1) else overwrite
          else Ret (wrapB bv, locale1)
      | _ => Ret (wrapB bv, locale1)
      end in
    match locale1 with
    | VNil _ => Ret (wrapB bv, locale1)
    | VPtr lv => sync lv
    | _ => sync locale1
    end in
  match base with
  | VNil bt =>
      let lv := match locale1 with VPtr p => Some p | VNil _ => None | _ => Some locale1 end in
      match lv with
      | Some (VStruct ln lfs) =>
          if isZero (VStruct ln lfs) then Ret (base, locale1)
          else phase2 VPtr (zeroOf bt)
      | _ => Ret (base, locale1)
      end
  | VPtr bv => phase2 VPtr bv
  | _ => phase2 (fun x => x) base
  end.

(** [localesUnmarshalHook(from, to, preferredKeys)]. *)
Definition localesUnmarshalHook (C : conv) (preferredKeys : list string)
    (from : option (gmap string (option value))) (addressable : bool) (to : value)
  : outcome value :=
  onRecord (fun addr fs =>
    fieldLoop (pairStep (unmarshalPair C preferredKeys from) addr) (length fs) 0 fs)
    addressable to.

(** [LocalesHookWithSelector], [LocalesHook] and their unmarshal
    counterparts. *)
Definition LocalesHookWithSelector (C : conv) (selector : option (list string)) :=
  localesMarshalHook C (resolveKeys selector).

Definition LocalesHook (C : conv) :=
  LocalesHookWithSelector C (Some ["EnUS"; "EnAU"]).

Definition LocalesUnmarshalHookWithSelector (C : conv) (selector : option (list string)) :=
  localesUnmarshalHook C (resolveKeys selector).

Definition LocalesUnmarshalHook (C : conv) :=
  LocalesUnmarshalHookWithSelector C (Some ["EnUS"; "EnAU"]).

End Hooks.
Export Hooks.

(** ** The traversal in the specification's words *)

Module LabelSpec.

(** An anonymously composed sub-record: an embedded field of struct kind. *)
Definition isEmbedded (f : fieldOf gtype) : bool :=
  fanon f && match kindOf (fval f) with KStruct => true | _ => false end.

Definition embeds (t : gtype) : list (fieldOf gtype) :=
  List.filter isEmbedded (fieldsOfType t).

(** Breadth-first order: the embedded fields of a level, then those of the
    next level, the types these fields compose. *)
Fixpoint levelOrder (depth : nat) (level : list gtype) : list (fieldOf gtype) :=
  match depth with
  | O => []
  | S d =>
      let es := flat_map embeds level in
      es ++ levelOrder d (map fval es)
  end.

(** A composed field declares a label when it carries the annotation. *)
Definition hasLabel (f : fieldOf gtype) : bool :=
  match tagLookup (ftag f) neo4jTag with
  | Some _ => true
  | None => false
  end.

(** The label name a field declares: the first comma-separated segment of
    its annotation. *)
Definition labelName (f : fieldOf gtype) : string :=
  match tagLookup (ftag f) neo4jTag with
  | Some label => hd "" (splitComma label)
  | None => ""
  end.

(** The composed type is not the abstract marker type. *)
Definition notMarker (f : fieldOf gtype) : bool :=
  negb (String.eqb (typeName (fval f)) "Label").

Definition labelOf (f : fieldOf gtype) : neo4jName :=
  mkName (labelName f) (notMarker f).

(** The label-declaring composed fields of a record type in breadth-first
    discovery order, and in emission order. *)
Definition discovered (t : gtype) : list (fieldOf gtype) :=
  List.filter hasLabel (levelOrder (typeWeight (derefType t)) [derefType t]).

Definition contributors (t : gtype) : list (fieldOf gtype) :=
  rev (discovered t).

(** A composition chain: a record type composing exactly one sub-record,
    under a label, which is a chain in turn, down to a record that composes
    none.  The labels are listed from the innermost composition outwards. *)
Inductive IsChain : gtype -> list string -> Prop :=
| chain_root (n : string) (fs : list (fieldOf gtype)) :
    List.filter isEmbedded fs = [] ->
    IsChain (TStruct n fs) []
| chain_compose (n : string) (pre post : list (fieldOf gtype)) (f : fieldOf gtype)
    (labels : list string) :
    List.filter isEmbedded pre = [] ->
    List.filter isEmbedded post = [] ->
    fanon f = true ->
    hasLabel f = true ->
    IsChain (fval f) labels ->
    IsChain (TStruct n (pre ++ f :: post)) (labels ++ [labelName f]).

Definition queueWeight (queue : list gtype) : nat :=
  list_sum (map typeWeight queue).

(** A record type, or a pointer, slice or array thereof, resolved
    recursively to its element type. *)
Fixpoint resolved (t : gtype) : gtype :=
  match t with
  | TPtr e | TSlice e | TArray _ e => resolved e
  | _ => t
  end.

(** The record type an input of the extraction stands for; the nil
    interface stands for none. *)
Definition composedType (i : option value) : gtype :=
  match i with
  | Some v => resolved (typeOf v)
  | None => TIface
  end.

End LabelSpec.
Export LabelSpec.

(** ** The keys of a record in the specification's words *)

Module PropsSpec.

(** The flat keys the fields of a record map to, in field order, taken one
    field at a time: a plain named field that is not zero maps to its
    joined name, a composed record without directive to the keys of its
    fields under the same prefix, a flattened record to the keys of its
    fields under the joined prefix. *)
Definition fieldKeys (toLowerCamel : string -> string)
    (rec : value -> string -> list string) (ft : fieldOf value) (prefix : string)
  : list string :=
  let fv := fval ft in
  if negb (fexported ft) then []
  else match PropTagForField ft with
       | None => if fanon ft then rec fv prefix else []
       | Some tag =>
           if Ignore tag then []
           else if Flatten tag then
             if negb (ValidateFlattenType (typeOf fv)) then []
             else if isNilPtr fv then []
             else if isZero fv then []
             else rec fv (JoinPrefix prefix
                            (if String.eqb (Name tag) "" then toLowerCamel (fname ft)
                             else Name tag))
           else if isZero fv then []
           else [JoinPrefix prefix
                   (if String.eqb (Name tag) "" then toLowerCamel (fname ft) else Name tag)]
       end.

Fixpoint producedKeys (toLowerCamel : string -> string) (v : value) (prefix : string)
    {struct v} : list string :=
  match v with
  | VPtr p => producedKeys toLowerCamel p prefix
  | VStruct _ fs =>
      (fix fields (fs : list (fieldOf value)) {struct fs} : list string :=
         match fs with
         | [] => []
         | ft :: rest =>
             fieldKeys toLowerCamel (producedKeys toLowerCamel) ft prefix ++ fields rest
         end) fs
  | _ => []
  end.

(** Every flatten directive met by the walk sits on a record or a pointer
    to a record. *)
Definition fieldFlattenValid (rec : value -> bool) (ft : fieldOf value) : bool :=
  let fv := fval ft in
  if negb (fexported ft) then true
  else match PropTagForField ft with
       | None => if fanon ft then rec fv else true
       | Some tag =>
           if Ignore tag then true
           else if Flatten tag then
             ValidateFlattenType (typeOf fv)
             && (if isNilPtr fv then true else if isZero fv then true else rec fv)
           else true
       end.

Fixpoint flattenValid (v : value) {struct v} : bool :=
  match v with
  | VPtr p => flattenValid p
  | VStruct _ fs =>
      (fix fields (fs : list (fieldOf value)) {struct fs} : bool :=
         match fs with
         | [] => true
         | ft :: rest => fieldFlattenValid flattenValid ft && fields rest
         end) fs
  | _ => true
  end.

(** No value of a map is the zero value of its type. *)
Definition noZero (props : gmap string value) : Prop :=
  forall k x, props !! k = Some x -> isZero x = false.

(** [out] is [props] grown by exactly the keys [keys], each of them new. *)
Definition grownBy (keys : list string) (props out : gmap string value) : Prop :=
  NoDup keys
  /\ (forall k, k ∈ keys -> props !! k = None)
  /\ (forall k, is_Some (out !! k) <-> is_Some (props !! k) \/ k ∈ keys)
  /\ (noZero props -> noZero out)
  /\ props ⊆ out.

(** What a successful walk of a value does to the map. *)
Definition collectGrows (toLowerCamel : string -> string) (v : value) : Prop :=
  forall prefix props out,
    collectProps toLowerCamel v prefix props = Ok out ->
    grownBy (producedKeys toLowerCamel v prefix) props out.

(** The walk fails with the configuration error only when a flatten
    directive sits on something that is not a record. *)
Definition flattenSafe (toLowerCamel : string -> string) (v : value) : Prop :=
  forall prefix props,
    flattenValid v = true ->
    collectProps toLowerCamel v prefix props <> Err ErrFlattenType.

End PropsSpec.
Export PropsSpec.

(** ** The locale pairs in the specification's words *)

Module HookSpec.

(** The companion record a companion cell stands for: the record itself,
    the record pointed to, or for a nil pointer the zero record that is
    allocated for it. *)
Definition companionFields (locale : value) : option (string * list (fieldOf value)) :=
  match locale with
  | VStruct n fs => Some (n, fs)
  | VPtr (VStruct n fs) => Some (n, fs)
  | VNil lt =>
      match zeroOf lt with
      | VStruct n fs => Some (n, fs)
      | _ => None
      end
  | _ => None
  end.

(** The companion cell holding the record [v]: a record cell holds it, a
    pointer cell points to it. *)
Definition rewrap (locale : value) (v : value) : value :=
  match locale with
  | VStruct _ _ => v
  | _ => VPtr v
  end.

(** A companion field populated from its flat key, when the raw map has a
    usable value for it. *)
Definition populate (C : conv) (props : gmap string (option value)) (prefix : string)
    (lf : fieldOf value) : fieldOf value :=
  match extractField C props prefix lf with
  | Some v => withVal lf v
  | None => lf
  end.

(** The value the companion is authoritative for: that of the first locale
    key, in preference order, whose field is not zero, else that of the
    first field in declaration order that is not zero. *)
Definition authoritative (lfs : list (fieldOf value)) (preferredKeys : list string)
  : option value :=
  match firstPreferredLocaleValue lfs preferredKeys with
  | Some f => Some (fval f)
  | None => option_map fval (List.find (fun f => negb (isZero (fval f))) lfs)
  end.

(** What the base cell holds once pointers are unwrapped, a nil pointer
    standing for the zero value allocated for it. *)
Definition baseCell (base : value) : value :=
  match base with
  | VNil bt => zeroOf bt
  | VPtr bv => bv
  | _ => base
  end.

(** The base cell overwritten with [v], if there is one. *)
Definition overwritten (base : value) (v : option value) : value :=
  match v with
  | Some x =>
      match base with
      | VNil _ | VPtr _ => VPtr x
      | _ => x
      end
  | None => base
  end.

(** The value of the field called [name] of a record, through pointers. *)
Fixpoint fieldValue (v : value) (name : string) : option value :=
  match v with
  | VPtr p => fieldValue p name
  | VStruct _ fs =>
      match fieldIndex fs name with
      | Some (_, f) => Some (fval f)
      | None => None
      end
  | _ => None
  end.

(** A companion field that can feed the base cell holding [bv]: it is
    exported and its type is assignable to the type of the base. *)
Definition feedsBase (C : conv) (bv : value) (f : fieldOf value) : Prop :=
  fexported f = true /\ assignable C (typeOf (fval f)) (typeOf bv) = true.

(** A name with its first letter in lower case. *)
Definition lowerFirst (s : string) : string :=
  match s with
  | EmptyString => EmptyString
  | String c rest =>
      String (if Ascii.leb "A" c && Ascii.leb c "Z" then ascii_of_nat (nat_of_ascii c + 32)
              else c) rest
  end.

(** The non-nil value the raw map holds for the locale key [localeKey] of
    the base [baseName]: the entry under the flat key
    [<baseName>_<localeKey>], both written with a lower-case first
    letter. *)
Definition flatValue (props : gmap string (option value)) (baseName localeKey : string)
  : option value :=
  match props !! (lowerFirst baseName +:+ "_" +:+ lowerFirst localeKey) with
  | Some (Some rv) => Some rv
  | _ => None
  end.

(** The companion populated from the flat values: an exported field for
    whose name the raw map holds a flat value holds that value, the other
    fields are as they were. *)
Definition populated (props : gmap string (option value)) (baseName : string)
    (lfs : list (fieldOf value)) : list (fieldOf value) :=
  map (fun lf =>
         match flatValue props baseName (fname lf) with
         | Some rv => if fexported lf then withVal lf rv else lf
         | None => lf
         end) lfs.

(** What the field called [key] holds, when there is such a field and it is
    not zero. *)
Definition heldBy (lfs : list (fieldOf value)) (key : string) : option value :=
  match List.find (fun f => String.eqb (fname f) key) lfs with
  | Some f => if isZero (fval f) then None else Some (fval f)
  | None => None
  end.

(** The value of the first locale key, in preference order, that holds a
    non-zero value. *)
Definition preferredValue (lfs : list (fieldOf value)) (preferredKeys : list string)
  : option value :=
  head (omap (heldBy lfs) preferredKeys).

(** The first non-zero value in declaration order. *)
Definition firstNonZero (lfs : list (fieldOf value)) : option value :=
  head (List.filter (fun v => negb (isZero v)) (map fval lfs)).

(** The value that overwrites the base: that of the first preferred locale
    key holding a non-zero value, falling back to the first non-zero field
    in declaration order. *)
Definition authoritativeValue (lfs : list (fieldOf value)) (preferredKeys : list string)
  : option value :=
  match preferredValue lfs preferredKeys with
  | Some v => Some v
  | None => firstNonZero lfs
  end.

(** The record declares no embedded field: looking a field up by name then
    finds the fields the record declares and no others. *)
Definition noEmbedded {V : Type} (fs : list (fieldOf V)) : bool :=
  forallb (fun f => negb (fanon f)) fs.

(** [FieldByName] is decided by the fields the record declares: the name
    is that of a declared field, which is then the field found, or the
    record declares no embedded field, so that no field is promoted. *)
Definition plainLookup {V : Type} (fs : list (fieldOf V)) (name : string) : bool :=
  match fieldIndex fs name with
  | Some _ => true
  | None => noEmbedded fs
  end.

(** The companion record of a companion cell declares no embedded field. *)
Definition plainCompanion (locale : value) : bool :=
  match companionFields locale with
  | Some (_, lfs) => noEmbedded lfs
  | None => true
  end.

(** The companion record of a companion cell declares exported fields
    only. *)
Definition exportedCompanion (locale : value) : bool :=
  match companionFields locale with
  | Some (_, lfs) => forallb fexported lfs
  | None => true
  end.

(** The pairs of a record are kept apart from the pair of field [i], whose
    base is [baseName].  Every field that can be a companion, being
    exported and called after a base [b] with a locale suffix,
    - names a base whose lookup the declared fields decide;
    - names a base that cannot be a companion itself;
    - does not share the base of field [i], unless it is field [i];
    - holds a record, a pointer to one or a nil pointer to one, that
      declares no embedded field and no unexported field. *)
Definition separatePairs (fs : list (fieldOf value)) (i : nat) (baseName : string) : Prop :=
  forall k f b,
    fs !! k = Some f -> fexported f = true -> localeBaseName (fname f) = Some b ->
    plainLookup fs b = true
    /\ localeBaseName b = None
    /\ (k <> i -> b <> baseName)
    /\ plainCompanion (fval f) = true
    /\ exportedCompanion (fval f) = true.

(** What the iterations of a hook keep of the record [fs0] they started
    from: the names and the export status of its fields, and companions
    whose fields are all exported. *)
Definition fieldShape (f : fieldOf value) : string * bool := (fname f, fexported f).

Definition keptByLoop (fs0 fs : list (fieldOf value)) : Prop :=
  fieldShape <$> fs = fieldShape <$> fs0
  /\ forall k f, fs !! k = Some f -> fexported f = true ->
                 is_Some (localeBaseName (fname f)) -> exportedCompanion (fval f) = true.

(** The name is written in ASCII. *)
Fixpoint asciiName (s : string) : bool :=
  match s with
  | EmptyString => true
  | String c rest => Nat.ltb (nat_of_ascii c) 128 && asciiName rest
  end.

End HookSpec.
Export HookSpec.

(** ** The records of the tests *)

Module Examples.

(** The records of the tests: [Node] composes nothing, [person] composes
    [Node] as "Person", [swedishPerson] composes [person] as "Swedish" and
    [foreignPerson] composes [swedishPerson] as "Foreign". *)
Definition composed (fieldName label : string) (t : gtype) : fieldOf gtype :=
  mkField fieldName false true [(neo4jTag, label)] t.

Definition nodeT : gtype :=
  TStruct "Node" [mkField "ID" true false [("json", "id")] TString].

Definition personT : gtype := TStruct "person" [composed "Node" "Person" nodeT].

Definition swedishPersonT : gtype :=
  TStruct "swedishPerson" [composed "person" "Swedish" personT].

Definition foreignPersonT : gtype :=
  TStruct "foreignPerson" [composed "swedishPerson" "Foreign" swedishPersonT].

Definition nodesOnly : ifaces :=
  mkIfaces (fun t => match derefType t with TStruct _ _ => true | _ => false end)
           (fun _ => false).

(** [Label] is the abstract marker type; [robot] composes it as "Robot". *)
Definition labelT : gtype := TStruct "Label" [].

Definition robotT : gtype := TStruct "robot" [composed "Label" "Robot" labelT].

Definition swedishRobotT : gtype :=
  TStruct "" [mkField "swedishPerson" false true [] swedishPersonT;
              mkField "robot" false true [] robotT].

(** A record composing two records under a relationship-type annotation. *)
Definition relationshipT : gtype := TStruct "Relationship" [].

Definition twoTypesT : gtype :=
  TStruct "twoTypes" [composed "Relationship" "Friendship" relationshipT;
                      composed "Node" "Family" nodeT].

Definition relationshipsOnly : ifaces :=
  mkIfaces (fun _ => false)
           (fun t => match derefType t with TStruct _ _ => true | _ => false end).

(** Records for the serializer: a field named by its [json] or [db]
    annotation. *)
Definition jsonField (fieldName tag : string) (v : value) : fieldOf value :=
  mkField fieldName true false [("json", tag)] v.

Definition dbField (fieldName tag : string) (v : value) : fieldOf value :=
  mkField fieldName true false [("db", tag)] v.

(** [testJSONStruct{Name: "Alpha"}]: [Count] holds its zero value. *)
Definition testJSONStruct : value :=
  VStruct "testJSONStruct" [jsonField "Name" "name" (VString "Alpha");
                            jsonField "Count" "count" (VInt 0)].

(** Two fields named alike, and a plain field colliding with a field of a
    flattened record. *)
Definition twiceNamed : value :=
  VStruct "twiceNamed" [jsonField "First" "x" (VString "1");
                        jsonField "Second" "x" (VString "2")].

Definition flattenedClash : value :=
  VStruct "flattenedClash"
    [dbField "TitleEnUS" "title_enUS" (VString "plain");
     dbField "TitleLocale" "title,flatten"
       (VPtr (VStruct "testLocale" [dbField "EnUS" "enUS" (VString "nested")]))].

(** The records of the hook tests. *)
Definition hookLocalesT : gtype :=
  TStruct "hookLocales" [mkField "EnUS" true false [("json", "enUS")] TString;
                         mkField "EnAU" true false [("json", "enAU")] TString].

Definition hookLocales (enUS enAU : string) : value :=
  VStruct "hookLocales" [jsonField "EnUS" "enUS" (VString enUS);
                         jsonField "EnAU" "enAU" (VString enAU)].

(** [hookLocalizedPerson], [hookNilableLocalePerson] and
    [hookPtrBaseLocalePerson] differ in the types of their two fields. *)
Definition hookPerson (tname : string) (name nameLocale : value) : value :=
  VStruct tname [jsonField "Name" "name" name;
                 jsonField "NameLocale" "nameLocale" nameLocale].

Definition hookLocalizedPerson (name : string) (nameLocale : value) : value :=
  hookPerson "hookLocalizedPerson" (VString name) nameLocale.

Definition hookNilableLocalePerson (name : string) (nameLocale : value) : value :=
  hookPerson "hookNilableLocalePerson" (VString name) nameLocale.

Definition hookPtrBaseLocalePerson (name nameLocale : value) : value :=
  hookPerson "hookPtrBaseLocalePerson" name nameLocale.

(** The raw result [{name: "fallback", name_enUS: "US", name_enAU: "AU"}]. *)
Definition flatProps : gmap string (option value) :=
  <["name" := Some (VString "fallback")]>
    (<["name_enUS" := Some (VString "US")]>
       (<["name_enAU" := Some (VString "AU")]> ∅)).

End Examples.
Export Examples.

(** ** Further notions used to state properties of the three files *)

Module CoverSpec.

(** [strings.Join(parts, ",")]. *)
Fixpoint joinComma (parts : list string) : string :=
  match parts with
  | [] => ""
  | p :: rest =>
      match rest with
      | [] => p
      | _ :: _ => String.append p (String "," (joinComma rest))
      end
  end.

(** A string without a comma. *)
Fixpoint commaFree (s : string) : bool :=
  match s with
  | EmptyString => true
  | String c rest => negb (Ascii.eqb c ","%char) && commaFree rest
  end.

(** The fields of a record type called by the names of a request, in the
    order of the request; a name that no field bears is passed over. *)
Fixpoint namedFields (fs : list (fieldOf gtype)) (names : list string) : list (fieldOf gtype) :=
  match names with
  | [] => []
  | n :: rest =>
      match fieldIndex fs n with
      | Some (_, f) => f :: namedFields fs rest
      | None => namedFields fs rest
      end
  end.

(** No pointer of the chain [v] points to a value of node type. *)
Fixpoint noNodeAlong (I : ifaces) (v : value) : bool :=
  match v with
  | VPtr p => negb (isINode I (typeOf p)) && noNodeAlong I p
  | _ => true
  end.

(** [reflect.Zero(t).Interface()]: the nil interface for an interface type. *)
Definition zeroInterface (t : gtype) : option value :=
  match t with
  | TIface => None
  | _ => Some (zeroOf t)
  end.

(** Nothing stands in the way of a walk over valid flatten directives whose
    keys are new and distinct. *)
Definition collectSucceeds (toLowerCamel : string -> string) (v : value) : Prop :=
  forall prefix props,
    flattenValid v = true ->
    NoDup (producedKeys toLowerCamel v prefix) ->
    (forall k, k ∈ producedKeys toLowerCamel v prefix -> props !! k = None) ->
    exists out, collectProps toLowerCamel v prefix props = Ok out.

(** [testDBStruct] of the tests: a title and its flattened companion. *)
Definition flattenedTitle : value :=
  VStruct "testDBStruct"
    [dbField "Title" "title" (VString "Hello");
     dbField "TitleLocale" "title,flatten"
       (VPtr (VStruct "testLocale" [dbField "EnUS" "enUS" (VString "Hello-US");
                                    dbField "EnAU" "enAU" (VString "")]))].

(** The fields of the record a hook works on, reached through pointers. *)
Fixpoint recordFields (v : value) : option (list (fieldOf value)) :=
  match v with
  | VPtr p => recordFields p
  | VStruct _ fs => Some fs
  | _ => None
  end.

(** The loop of a locale hook over a record, for a pair body [sync]:
    [localesMarshalHook] and [localesUnmarshalHook] are its two instances. *)
Definition localesLoop (sync : string -> value -> value -> outcome (value * value))
    (addressable : bool) (v : value) : outcome value :=
  onRecord (fun addr fs => fieldLoop (pairStep sync addr) (length fs) 0 fs) addressable v.

(** Conversion never turns a value that is not zero into a zero value. *)
Definition keepsNonZero (C : conv) : Prop :=
  forall v t, isZero v = false -> isZero (convert C v t) = false.

(** What [Set] stores has the type of the cell it is stored in: a value
    is assignable to its own type only, and a conversion yields a value of
    the type converted to. *)
Definition storesCellType (C : conv) : Prop :=
  (forall a b, assignable C a b = true -> a = b)
  /\ (forall v t, convertible C (typeOf v) t = true -> typeOf (convert C v t) = t).

(** The first phase of the unmarshal hook on one pair: the companion cell
    after the flat keys of the raw map were extracted into it, and whether
    any was found; without a raw map nothing is extracted. *)
Definition flatExtraction (C : conv) (keys : list string)
    (props : option (gmap string (option value))) (baseName : string) (locale : value)
  : value * bool :=
  match props with
  | Some m => extractFlatLocaleKeys C m baseName locale keys
  | None => (locale, false)
  end.

End CoverSpec.
Export CoverSpec.

(** * Properties *)

(** ** The reflect universe *)

(** Induction on types that reaches the fields of a record type. *)
Lemma gtype_fields_ind (P : gtype -> Prop) :
  P TString -> P TInt -> P TBool -> P TIface ->
  (forall e, P e -> P (TPtr e)) ->
  (forall e, P e -> P (TSlice e)) ->
  (forall n e, P e -> P (TArray n e)) ->
  (forall n fs, Forall (fun f => P (fval f)) fs -> P (TStruct n fs)) ->
  forall t, P t.
Proof.
  intros HS HI HB HF HPtr HSlice HArr HStruct.
  fix IH 1. intros t. destruct t as [ | | | |e|e|n e|n fs].
  - exact HS.
  - exact HI.
  - exact HB.
  - exact HF.
  - apply HPtr, IH.
  - apply HSlice, IH.
  - apply HArr, IH.
  - apply HStruct.
    induction fs as [|f rest IHfs]; constructor; [apply IH|exact IHfs].
Qed.

(** The zero value of a type is zero and has that type. *)
Lemma isZero_zeroOf (t : gtype) : isZero (zeroOf t) = true.
Proof.
  induction t as [ | | | |e IH|e IH|n e IH|n fs IH] using gtype_fields_ind;
    simpl; try reflexivity.
  - induction n as [|n IHn]; simpl; [reflexivity|]. rewrite IH. exact IHn.
  - induction IH as [|f rest Hf Hrest IHrest]; simpl; [reflexivity|].
    rewrite Hf. exact IHrest.
Qed.

Lemma typeOf_zeroOf (t : gtype) : typeOf (zeroOf t) = t.
Proof.
  induction t as [ | | | |e IH|e IH|n e IH|n fs IH] using gtype_fields_ind;
    simpl; try reflexivity.
  - rewrite repeat_length. reflexivity.
  - f_equal. induction IH as [|f rest Hf Hrest IHrest]; simpl; [reflexivity|].
    rewrite IHrest. f_equal. unfold withVal. simpl. rewrite Hf. destruct f; reflexivity.
Qed.

(** ** Strings and the tag parser *)

Lemma splitComma_nonempty (s : string) : splitComma s <> [].
Proof.
  induction s as [|c rest IH]; simpl; [discriminate|].
  destruct (Ascii.eqb c ","%char); [discriminate|].
  destruct (splitComma rest); discriminate.
Qed.

Lemma scanOpts_true (opts : list string) : scanOpts opts true = true.
Proof.
  induction opts as [|o rest IH]; simpl; [reflexivity|].
  destruct (String.eqb o "flatten"); exact IH.
Qed.

(** C9: an annotation whose first comma-separated segment is [-] parses to
    a directive with [Ignore] set and [Flatten] clear, whatever the later
    segments are: the options are recorded raw but never scanned. *)
Theorem ParsePropTag_ignore (key raw : string) :
  hd "" (splitComma raw) = "-" ->
  Ignore (ParsePropTag key raw) = true
  /\ Flatten (ParsePropTag key raw) = false
  /\ Name (ParsePropTag key raw) = "-"
  /\ RawOpts (ParsePropTag key raw) = tl (splitComma raw).
Proof.
  intros Hfirst. unfold ParsePropTag. rewrite Hfirst. simpl.
  repeat split.
  destruct (splitComma raw) as [|p [|q rest]]; reflexivity.
Qed.

Lemma ParsePropTag_ignore_witness :
  hd "" (splitComma "-,flatten") = "-"
  /\ Ignore (ParsePropTag "json" "-,flatten") = true
  /\ Flatten (ParsePropTag "json" "-,flatten") = false
  /\ RawOpts (ParsePropTag "json" "-,flatten") = ["flatten"].
Proof.
  split; [reflexivity|].
  destruct (ParsePropTag_ignore "json" "-,flatten" eq_refl) as (Hi & Hf & _ & Ho).
  repeat split; assumption.
Defined.

(** Without the leading [-] the same option does set [Flatten]. *)
Example ParsePropTag_flatten :
  ParsePropTag "db" ",flatten" = mkPropTag "" true false "db" ["flatten"].
Proof. reflexivity. Qed.

(** ** The in-place reversal *)

Lemma swapLoop_middle {A : Type} (fuel : nat) :
  forall (mid pre post : list A),
    length mid <= fuel ->
    swapLoop fuel (length pre) (length pre + length mid - 1) (pre ++ mid ++ post)
    = pre ++ rev mid ++ post.
Proof.
  induction fuel as [|fuel IH]; intros mid pre post Hlen.
  - destruct mid; simpl in *; [reflexivity|lia].
  - destruct mid as [|a mid].
    { simpl. replace (length pre + 0 - 1) with (length pre - 1) by lia.
      destruct (Nat.ltb_spec (length pre) (length pre - 1)); [lia|reflexivity]. }
    destruct mid as [|b mid _] using rev_ind.
    { simpl. replace (length pre + 1 - 1) with (length pre) by lia.
      rewrite Nat.ltb_irrefl. reflexivity. }
    simpl swapLoop. rewrite length_cons, length_app in *. simpl length in *.
    replace (length pre + S (length mid + 1) - 1) with (length pre + S (length mid)) by lia.
    destruct (Nat.ltb_spec (length pre) (length pre + S (length mid))); [|lia].
    assert (Hi : (pre ++ a :: (mid ++ [b]) ++ post) !! length pre = Some a).
    { apply list_lookup_middle. reflexivity. }
    assert (Hj : (pre ++ a :: (mid ++ [b]) ++ post) !! (length pre + S (length mid)) = Some b).
    { replace (pre ++ a :: (mid ++ [b]) ++ post) with ((pre ++ a :: mid) ++ b :: post)
        by (repeat (rewrite <- app_assoc; simpl); reflexivity).
      apply list_lookup_middle. rewrite length_app. simpl. lia. }
    rewrite Hi, Hj.
    assert (Hswap : <[length pre + S (length mid) := a]>
                      (<[length pre := b]> (pre ++ a :: (mid ++ [b]) ++ post))
                    = (pre ++ [b]) ++ mid ++ ([a] ++ post)).
    { replace (length pre) with (length pre + 0) at 2 by lia.
      rewrite insert_app_r. simpl.
      rewrite insert_app_r. simpl.
      rewrite <- !app_assoc. simpl. do 2 f_equal.
      replace (length mid) with (length mid + 0) by lia.
      rewrite insert_app_r. reflexivity. }
    rewrite Hswap.
    replace (length pre + 1) with (length (pre ++ [b])) by (rewrite length_app; reflexivity).
    replace (length pre + S (length mid) - 1) with (length (pre ++ [b]) + length mid - 1)
      by (rewrite length_app; simpl; lia).
    rewrite IH by lia.
    simpl. rewrite rev_app_distr. simpl. rewrite <- !app_assoc. reflexivity.
Qed.

(** The swap loop reverses the list. *)
Lemma reverseInPlace_rev {A : Type} (tags : list A) : reverseInPlace tags = rev tags.
Proof.
  unfold reverseInPlace.
  pose proof (swapLoop_middle (length tags) tags [] [] (le_n _)) as H.
  simpl in H. rewrite !app_nil_r in H. exact H.
Qed.

(** ** Label extraction *)

Lemma extractTagFromMatch_app (tags : list neo4jName) (f : fieldOf gtype) :
  extractTagFromMatch tags f = tags ++ map labelOf (List.filter hasLabel [f]).
Proof.
  unfold extractTagFromMatch, labelOf, labelName, notMarker, hasLabel. simpl.
  destruct (tagLookup (ftag f) neo4jTag) eqn:E; simpl; [rewrite E; reflexivity|].
  symmetry. apply app_nil_r.
Qed.

Lemma scanFields_spec (fs : list (fieldOf gtype)) :
  forall queue tags,
    scanFields fs queue tags
    = (queue ++ map fval (List.filter isEmbedded fs),
       tags ++ map labelOf (List.filter hasLabel (List.filter isEmbedded fs))).
Proof.
  induction fs as [|f rest IH]; intros queue tags; simpl.
  - rewrite !app_nil_r. reflexivity.
  - destruct (isEmbedded f) eqn:Em; unfold isEmbedded in Em;
      destruct (fanon f), (kindOf (fval f)); try discriminate Em; try apply IH.
    rewrite IH, extractTagFromMatch_app. simpl.
    rewrite <- !app_assoc. simpl.
    destruct (hasLabel f); simpl; reflexivity.
Qed.

Lemma filter_app_list {A : Type} (p : A -> bool) (l1 l2 : list A) :
  List.filter p (l1 ++ l2) = List.filter p l1 ++ List.filter p l2.
Proof. apply List.filter_app. Qed.

(** Dequeuing a whole level appends its sub-records to what was queued
    behind it. *)
Lemma walkQueue_level (cur : list gtype) :
  forall nxt tags fuel,
    walkQueue (length cur + fuel) (cur ++ nxt) tags
    = walkQueue fuel (nxt ++ map fval (flat_map embeds cur))
        (tags ++ map labelOf (List.filter hasLabel (flat_map embeds cur))).
Proof.
  induction cur as [|v cur IH]; intros nxt tags fuel; simpl.
  - rewrite !app_nil_r. reflexivity.
  - rewrite scanFields_spec. fold (embeds v).
    rewrite <- app_assoc. rewrite IH.
    rewrite !map_app, filter_app_list, map_app, <- !app_assoc. reflexivity.
Qed.

Lemma typeWeight_pos (t : gtype) : 1 <= typeWeight t.
Proof. destruct t; simpl; lia. Qed.

Lemma list_sum_filter_le (fs : list (fieldOf gtype)) (p : fieldOf gtype -> bool) :
  list_sum (map typeWeight (map fval (List.filter p fs)))
  <= list_sum (map (fun f => typeWeight (fval f)) fs).
Proof.
  induction fs as [|f rest IH]; simpl; [lia|].
  destruct (p f); simpl; lia.
Qed.

Lemma embeds_weight (v : gtype) :
  S (queueWeight (map fval (embeds v))) <= typeWeight v.
Proof.
  unfold queueWeight, embeds.
  destruct v; simpl; try lia.
  pose proof (list_sum_filter_le fields isEmbedded). lia.
Qed.

Lemma queueWeight_app (q1 q2 : list gtype) :
  queueWeight (q1 ++ q2) = queueWeight q1 + queueWeight q2.
Proof. unfold queueWeight. rewrite map_app, list_sum_app. reflexivity. Qed.

Lemma next_level_weight (level : list gtype) :
  length level + queueWeight (map fval (flat_map embeds level)) <= queueWeight level.
Proof.
  induction level as [|v level IH]; simpl; [unfold queueWeight; simpl; lia|].
  rewrite map_app, queueWeight_app.
  pose proof (embeds_weight v).
  change (queueWeight (v :: level)) with (typeWeight v + queueWeight level). lia.
Qed.

Lemma levelOrder_nil (depth : nat) : levelOrder depth [] = [].
Proof. induction depth as [|d IH]; simpl; [reflexivity|exact IH]. Qed.

(** The queue loop visits the composed fields level by level, and the fuel
    [queueWeight] is enough for it to finish. *)
Lemma walkQueue_levelOrder (depth : nat) :
  forall level tags fuel,
    queueWeight level <= depth ->
    queueWeight level <= fuel ->
    walkQueue fuel level tags
    = Some (tags ++ map labelOf (List.filter hasLabel (levelOrder depth level))).
Proof.
  induction depth as [|d IH]; intros level tags fuel Hd Hf.
  - destruct level as [|v level].
    + destruct fuel; simpl; rewrite app_nil_r; reflexivity.
    + pose proof (typeWeight_pos v).
      change (queueWeight (v :: level)) with (typeWeight v + queueWeight level) in Hd. lia.
  - destruct level as [|v level].
    { destruct fuel; simpl; rewrite levelOrder_nil, app_nil_r; reflexivity. }
    pose proof (next_level_weight (v :: level)) as Hn. simpl length in Hn.
    simpl flat_map in Hn.
    replace fuel with (length (v :: level) + (fuel - length (v :: level)))
      by (simpl length; lia).
    pose proof (walkQueue_level (v :: level) [] tags (fuel - length (v :: level))) as Hl.
    rewrite app_nil_r in Hl. simpl app in Hl. rewrite Hl.
    rewrite IH by (simpl length; lia).
    simpl levelOrder.
    generalize (embeds v ++ flat_map embeds level). intros es.
    rewrite filter_app_list, map_app, app_assoc. reflexivity.
Qed.

(** The record walk returns, whatever the record type. *)
Lemma walkQueue_total (t : gtype) :
  walkQueue (typeWeight t) [t] []
  = Some (map labelOf (List.filter hasLabel (levelOrder (typeWeight t) [t]))).
Proof.
  apply (walkQueue_levelOrder (typeWeight t) [t] []);
    unfold queueWeight; simpl; lia.
Qed.

(** [extractNeo4JName] without field names returns the labels of the
    composed fields found breadth-first, in reverse discovery order. *)
Lemma extractNeo4JName_contributors (t : gtype) (tags : list neo4jName) :
  extractNeo4JName t [] = Some tags ->
  tags = map labelOf (contributors t).
Proof.
  unfold extractNeo4JName, contributors, discovered.
  destruct (derefType t) eqn:E; try discriminate.
  rewrite walkQueue_total, reverseInPlace_rev. intros [= <-].
  rewrite map_rev. reflexivity.
Qed.

Lemma extractNeo4JName_struct (t : gtype) (n : string) (fs : list (fieldOf gtype)) :
  derefType t = TStruct n fs ->
  extractNeo4JName t [] = Some (map labelOf (contributors t)).
Proof.
  intros E. unfold extractNeo4JName, contributors, discovered. rewrite E.
  rewrite walkQueue_total, reverseInPlace_rev, map_rev. reflexivity.
Qed.

Lemma IsChain_struct (t : gtype) (labels : list string) :
  IsChain t labels -> kindOf t = KStruct.
Proof. intros H. destruct H; reflexivity. Qed.

Lemma typeWeight_field (n : string) (pre post : list (fieldOf gtype)) (f : fieldOf gtype) :
  S (typeWeight (fval f)) <= typeWeight (TStruct n (pre ++ f :: post)).
Proof.
  simpl. rewrite map_app, list_sum_app. simpl. lia.
Qed.

(** Along a chain the walk finds one labelled field per level, outermost
    first. *)
Lemma levelOrder_chain (t : gtype) (labels : list string) :
  IsChain t labels ->
  forall depth, typeWeight t <= depth ->
    map labelName (List.filter hasLabel (levelOrder depth [t])) = rev labels.
Proof.
  induction 1 as [n fs Hnone | n pre post f labels Hpre Hpost Hanon Hlabel Hin IH];
    intros depth Hdepth.
  - destruct depth as [|d]; [reflexivity|].
    simpl. unfold embeds. simpl. rewrite Hnone. simpl. rewrite levelOrder_nil. reflexivity.
  - destruct depth as [|d]; [simpl in Hdepth; lia|].
    pose proof (typeWeight_field n pre post f) as Hw.
    assert (Hf : isEmbedded f = true).
    { unfold isEmbedded. rewrite Hanon, (IsChain_struct _ _ Hin). reflexivity. }
    simpl levelOrder. unfold embeds at 1 2. simpl fieldsOfType.
    rewrite !app_nil_r, (filter_app_list isEmbedded pre (f :: post)), Hpre.
    simpl List.filter at 2 3. rewrite Hf, Hpost. simpl. rewrite Hlabel. simpl.
    rewrite IH by lia. rewrite rev_app_distr. reflexivity.
Qed.

Lemma name_labelOf (fs : list (fieldOf gtype)) :
  map name (map labelOf fs) = map labelName fs.
Proof. rewrite map_map. reflexivity. Qed.

(** C5: label extraction walks the anonymously composed records breadth
    first, collects the label each composed field declares and reverses the
    order of discovery; along a composition chain the emitted labels run
    from the innermost (most general) composition to the outermost, so that
    for a chain A, B, C the result is [A.label; B.label; C.label]. *)
Theorem ExtractNodeLabels_chain (I : ifaces) (v : value) (labels : list string) :
  isINode I (typeOf v) = true ->
  IsChain (derefType (typeOf v)) labels ->
  extractNeo4JName (typeOf v) [] = Some (map labelOf (rev (discovered (typeOf v))))
  /\ ExtractNodeLabels I (Some v) = Ret (Some labels).
Proof.
  intros Hnode Hchain.
  assert (Hs : exists n fs, derefType (typeOf v) = TStruct n fs).
  { destruct Hchain; eauto. }
  destruct Hs as (n & fs & Hs).
  pose proof (extractNeo4JName_struct _ _ _ Hs) as Hx. unfold contributors in Hx.
  split; [exact Hx|].
  unfold ExtractNodeLabels, extractNodeLabels, labelsOfNode. rewrite Hnode. simpl.
  rewrite Hx, name_labelOf, map_rev. unfold discovered.
  rewrite (levelOrder_chain _ _ Hchain) by lia.
  rewrite rev_involutive. reflexivity.
Qed.

Lemma foreignPerson_chain : IsChain foreignPersonT ["Person"; "Swedish"; "Foreign"].
Proof.
  apply (chain_compose "foreignPerson" [] [] (composed "swedishPerson" "Foreign" swedishPersonT)
           ["Person"; "Swedish"]); try reflexivity.
  apply (chain_compose "swedishPerson" [] [] (composed "person" "Swedish" personT)
           ["Person"]); try reflexivity.
  apply (chain_compose "person" [] [] (composed "Node" "Person" nodeT) []); try reflexivity.
  apply chain_root. reflexivity.
Qed.

Lemma ExtractNodeLabels_chain_witness :
  ExtractNodeLabels nodesOnly (Some (zeroOf foreignPersonT))
  = Ret (Some ["Person"; "Swedish"; "Foreign"]).
Proof.
  exact (proj2 (ExtractNodeLabels_chain nodesOnly (zeroOf foreignPersonT)
                  ["Person"; "Swedish"; "Foreign"] eq_refl foreignPerson_chain)).
Defined.

(** ** Concrete labels *)

#[local] Arguments extractNeo4JName : simpl never.
#[local] Arguments labelsOfNode : simpl never.

Lemma appendConcrete_filter (labels : list neo4jName) :
  forall out, appendConcrete labels out = out ++ map name (List.filter concrete labels).
Proof.
  induction labels as [|l rest IH]; intros out; simpl.
  - symmetry. apply app_nil_r.
  - rewrite IH. destruct (concrete l); simpl; [|reflexivity].
    rewrite <- app_assoc. reflexivity.
Qed.

Lemma filter_concrete_labelOf (fs : list (fieldOf gtype)) :
  map name (List.filter concrete (map labelOf fs))
  = map labelName (List.filter notMarker fs).
Proof.
  induction fs as [|f rest IH]; simpl; [reflexivity|].
  destruct (notMarker f); simpl; rewrite IH; reflexivity.
Qed.

Lemma sublist_map_filter {A B : Type} (g : A -> B) (p : A -> bool) (l : list A) :
  sublist (map g (List.filter p l)) (map g l).
Proof.
  induction l as [|a rest IH]; simpl; [constructor|].
  destruct (p a); simpl; [apply sublist_skip|apply sublist_cons]; exact IH.
Qed.

Lemma Ret_inj {A : Type} (a b : A) : Ret a = Ret b -> a = b.
Proof. intros H. injection H as H. exact H. Qed.

(** Where [extractNodeLabels] returns a list, it is what [extractNeo4JName]
    returns for a type that the type of the input resolves through. *)
Lemma resolved_derefType (t : gtype) : resolved (derefType t) = resolved t.
Proof. induction t; simpl; try reflexivity. exact IHt. Qed.

Lemma extractNeo4JName_resolved (t : gtype) (tags : list neo4jName) :
  extractNeo4JName t [] = Some tags ->
  tags = map labelOf (contributors (resolved t)).
Proof.
  intros H. pose proof (extractNeo4JName_contributors t tags H) as Ht.
  unfold extractNeo4JName in H.
  destruct (derefType t) as [ | | | | | | |n fs] eqn:E; try discriminate.
  assert (Hr : resolved t = TStruct n fs).
  { rewrite <- resolved_derefType, E. reflexivity. }
  rewrite Ht. unfold contributors, discovered. rewrite Hr, E. reflexivity.
Qed.

Lemma extractNodeLabelsZero_source (I : ifaces) (t : gtype) (tags : list neo4jName) :
  extractNodeLabelsZero I t = Ret (Some tags) ->
  tags = map labelOf (contributors (resolved t)).
Proof.
  induction t; simpl; try (intros; discriminate);
    (destruct (isINode I _) eqn:EI;
     [intros H; apply Ret_inj in H; exact (extractNeo4JName_resolved _ _ H)|]);
    try (intros; discriminate); try assumption.
Qed.

Lemma extractNodeLabels_source (I : ifaces) (v : value) (tags : list neo4jName) :
  extractNodeLabels I (Some v) = Ret (Some tags) ->
  tags = map labelOf (contributors (resolved (typeOf v))).
Proof.
  simpl. destruct (isINode I (typeOf v)).
  { intros H. apply Ret_inj in H. exact (extractNeo4JName_resolved _ _ H). }
  induction v; simpl; try discriminate.
  - destruct (isINode I (typeOf v)); [|exact IHv].
    intros H. apply Ret_inj in H. exact (extractNeo4JName_resolved _ _ H).
  - apply extractNodeLabelsZero_source.
  - apply extractNodeLabelsZero_source.
Qed.

(** C10: for every input the concrete labels are exactly the labels of the
    contributing composed fields of the record type the input resolves to
    whose type is not the marker type [Label], in the order of the full
    extraction, which lists the labels of all contributing fields; in
    particular they form a subsequence of the full label list.  The two
    extractions return nil together and panic together. *)
Theorem ExtractConcreteNodeLabels_subsequence (I : ifaces) (i : option value) :
  match ExtractNodeLabels I i with
  | Ret (Some full) =>
      full = map labelName (contributors (composedType i))
      /\ ExtractConcreteNodeLabels I i
         = Ret (Some (map labelName (List.filter notMarker (contributors (composedType i)))))
      /\ sublist (map labelName (List.filter notMarker (contributors (composedType i)))) full
  | Ret None => ExtractConcreteNodeLabels I i = Ret None
  | Panic m => ExtractConcreteNodeLabels I i = Panic m
  end.
Proof.
  unfold ExtractNodeLabels, ExtractConcreteNodeLabels.
  destruct (extractNodeLabels I i) as [[tags|]|m] eqn:E; simpl; try reflexivity.
  destruct i as [v|]; [|discriminate E].
  rewrite (extractNodeLabels_source I v tags E). simpl.
  rewrite name_labelOf, appendConcrete_filter, filter_concrete_labelOf.
  simpl. repeat split. apply sublist_map_filter.
Qed.

(** The anonymous record of the tests composing [swedishPerson] and a
    [robot] that composes the marker type. *)
Example ExtractConcreteNodeLabels_robot :
  ExtractNodeLabels nodesOnly (Some (zeroOf swedishRobotT))
  = Ret (Some ["Person"; "Robot"; "Swedish"])
  /\ ExtractConcreteNodeLabels nodesOnly (Some (zeroOf swedishRobotT))
     = Ret (Some ["Person"; "Swedish"]).
Proof. split; reflexivity. Qed.

(** ** Relationship types *)

Lemma derefValue_type (r v : value) :
  derefValue r = Some v -> typeOf v = derefType (typeOf r).
Proof.
  induction r; simpl; try (intros [= <-]; reflexivity); try discriminate.
  exact IHr.
Qed.

Lemma extractNeo4JName_kind (t : gtype) (tags : list neo4jName) :
  extractNeo4JName t [] = Some tags -> kindOf (derefType t) = KStruct.
Proof.
  unfold extractNeo4JName. destruct (derefType t); try discriminate. reflexivity.
Qed.

(** A value whose type is a record type, possibly behind pointers, that
    is not an [IRelationship] gives the empty string. *)
Lemma ExtractRelationshipType_not_relationship (I : ifaces) (r : value) :
  kindOf (derefType (typeOf r)) = KStruct ->
  isIRelationship I (typeOf r) = false ->
  ExtractRelationshipType I (Some r) = Ret "".
Proof.
  intros Hk Hrel. unfold ExtractRelationshipType. rewrite Hrel.
  destruct (derefValue r) as [v|] eqn:E; [|reflexivity].
  apply derefValue_type in E. rewrite <- E in Hk.
  destruct v; simpl in Hk; try discriminate; reflexivity.
Qed.

(** C6: a record type carrying more than one relationship-type annotation
    never yields one of the names: the extraction panics when the value is a
    relationship and returns the empty string otherwise.  A type without
    annotation gives the empty string, and so does the nil input. *)
Theorem ExtractRelationshipType_ambiguous (I : ifaces) (r : value) (tags : list neo4jName) :
  extractNeo4JName (typeOf r) [] = Some tags ->
  ExtractRelationshipType I None = Ret ""
  /\ (1 < length tags ->
      ExtractRelationshipType I (Some r)
      = if isIRelationship I (typeOf r)
        then Panic "relationships with multiple types are not supported in Neo4J"
        else Ret "")
  /\ (tags = [] -> ExtractRelationshipType I (Some r) = Ret "").
Proof.
  intros Htags. pose proof (extractNeo4JName_kind _ _ Htags) as Hk.
  split; [reflexivity|]. split.
  - intros Hlen. destruct (isIRelationship I (typeOf r)) eqn:Hrel.
    + unfold ExtractRelationshipType, relationshipTypeOf. rewrite Hrel, Htags.
      destruct (Nat.ltb_spec 1 (length tags)); [reflexivity|lia].
    + apply ExtractRelationshipType_not_relationship; assumption.
  - intros ->. destruct (isIRelationship I (typeOf r)) eqn:Hrel.
    + unfold ExtractRelationshipType, relationshipTypeOf. rewrite Hrel, Htags. reflexivity.
    + apply ExtractRelationshipType_not_relationship; assumption.
Qed.

Lemma ExtractRelationshipType_ambiguous_witness :
  ExtractRelationshipType relationshipsOnly (Some (zeroOf twoTypesT))
  = Panic "relationships with multiple types are not supported in Neo4J"
  /\ ExtractRelationshipType nodesOnly (Some (zeroOf twoTypesT)) = Ret ""
  /\ ExtractRelationshipType relationshipsOnly (Some (zeroOf personT)) = Ret "Person"
  /\ ExtractRelationshipType relationshipsOnly (Some (zeroOf nodeT)) = Ret "".
Proof.
  destruct (ExtractRelationshipType_ambiguous relationshipsOnly (zeroOf twoTypesT)
              [mkName "Family" true; mkName "Friendship" true] eq_refl) as (_ & H2 & _).
  destruct (ExtractRelationshipType_ambiguous nodesOnly (zeroOf twoTypesT)
              [mkName "Family" true; mkName "Friendship" true] eq_refl) as (_ & H2' & _).
  destruct (ExtractRelationshipType_ambiguous relationshipsOnly (zeroOf nodeT)
              [] eq_refl) as (_ & _ & H0).
  split; [exact (H2 ltac:(simpl; lia))|].
  split; [exact (H2' ltac:(simpl; lia))|].
  split; [reflexivity|exact (H0 eq_refl)].
Defined.

(** ** The serializer *)

(** Induction on values that reaches the fields of a record. *)
Lemma value_fields_ind (P : value -> Prop) :
  (forall s, P (VString s)) ->
  (forall z, P (VInt z)) ->
  (forall b, P (VBool b)) ->
  P VIfaceNil ->
  (forall e, P (VNil e)) ->
  (forall v, P v -> P (VPtr v)) ->
  (forall e isnil items, P (VSlice e isnil items)) ->
  (forall e items, P (VArray e items)) ->
  (forall n fs, Forall (fun f => P (fval f)) fs -> P (VStruct n fs)) ->
  forall v, P v.
Proof.
  intros HS HI HB HN HNil HPtr HSlice HArr HStruct.
  fix IH 1. intros v. destruct v as [s|z|b| |e|p|e isnil items|e items|n fs].
  - apply HS.
  - apply HI.
  - apply HB.
  - apply HN.
  - apply HNil.
  - apply HPtr, IH.
  - apply HSlice.
  - apply HArr.
  - apply HStruct.
    induction fs as [|f rest IHfs]; constructor; [apply IH|exact IHfs].
Qed.

Section Serializer.

Variable toLowerCamel : string -> string.

Lemma collectProps_struct (n : string) (fs : list (fieldOf value)) (prefix : string) :
  forall props,
    collectProps toLowerCamel (VStruct n fs) prefix props
    = collectFields toLowerCamel fs prefix props.
Proof.
  induction fs as [|ft rest IH]; intros props; simpl; [reflexivity|].
  destruct (collectField toLowerCamel (collectProps toLowerCamel) ft prefix props);
    [apply IH|reflexivity].
Qed.

Lemma producedKeys_struct (n : string) (fs : list (fieldOf value)) (prefix : string) :
  producedKeys toLowerCamel (VStruct n fs) prefix
  = flat_map (fun ft => fieldKeys toLowerCamel (producedKeys toLowerCamel) ft prefix) fs.
Proof.
  induction fs as [|ft rest IH]; simpl; [reflexivity|].
  f_equal; try exact IH.
Qed.

Lemma flattenValid_struct (n : string) (fs : list (fieldOf value)) :
  flattenValid (VStruct n fs) = forallb (fieldFlattenValid flattenValid) fs.
Proof.
  induction fs as [|ft rest IH]; simpl; [reflexivity|].
  f_equal; try exact IH.
Qed.

Lemma collectFields_app (fs1 fs2 : list (fieldOf value)) (prefix : string) :
  forall props,
    collectFields toLowerCamel (fs1 ++ fs2) prefix props
    = match collectFields toLowerCamel fs1 prefix props with
      | Ok props1 => collectFields toLowerCamel fs2 prefix props1
      | Err e => Err e
      end.
Proof.
  induction fs1 as [|ft rest IH]; intros props; simpl; [reflexivity|].
  destruct (collectField toLowerCamel (collectProps toLowerCamel) ft prefix props);
    [apply IH|reflexivity].
Qed.

Ltac split_grownBy := unfold grownBy; split; [|split; [|split; [|split]]].

Lemma grownBy_nil (props : gmap string value) : grownBy [] props props.
Proof.
  split_grownBy.
  - constructor.
  - intros k Hk. inversion Hk.
  - intros k. split; [tauto|]. intros [H|H]; [exact H|inversion H].
  - tauto.
  - reflexivity.
Qed.

Lemma grownBy_single (props : gmap string value) (k : string) (v : value) :
  props !! k = None -> isZero v = false -> grownBy [k] props (<[k := v]> props).
Proof.
  intros Hnew Hnz. split_grownBy.
  - apply NoDup_singleton.
  - intros k' Hk'. apply list_elem_of_singleton in Hk'. subst. exact Hnew.
  - intros k'. rewrite list_elem_of_singleton. split.
    + intros Hsome. destruct (decide (k = k')) as [->|Hne]; [right; reflexivity|].
      left. rewrite lookup_insert_ne in Hsome by exact Hne. exact Hsome.
    + intros [Hsome| ->].
      * destruct (decide (k = k')) as [->|Hne].
        -- rewrite lookup_insert_eq. eauto.
        -- rewrite lookup_insert_ne by exact Hne. exact Hsome.
      * rewrite lookup_insert_eq. eauto.
  - intros Hz k' x Hx. destruct (decide (k = k')) as [->|Hne].
    + rewrite lookup_insert_eq in Hx. injection Hx as <-. exact Hnz.
    + rewrite lookup_insert_ne in Hx by exact Hne. exact (Hz _ _ Hx).
  - apply insert_subseteq. exact Hnew.
Qed.

Lemma grownBy_app (keys1 keys2 : list string) (props mid out : gmap string value) :
  grownBy keys1 props mid -> grownBy keys2 mid out -> grownBy (keys1 ++ keys2) props out.
Proof.
  intros (Hnd1 & Hnew1 & Hdom1 & Hz1 & Hsub1) (Hnd2 & Hnew2 & Hdom2 & Hz2 & Hsub2).
  split_grownBy.
  - apply NoDup_app. split; [exact Hnd1|]. split; [|exact Hnd2].
    intros k Hk1 Hk2. specialize (Hnew2 k Hk2).
    assert (is_Some (mid !! k)) as [x Hx] by (apply Hdom1; right; exact Hk1).
    congruence.
  - intros k Hk. apply elem_of_app in Hk as [Hk|Hk]; [exact (Hnew1 k Hk)|].
    specialize (Hnew2 k Hk). destruct (props !! k) as [x|] eqn:E; [|reflexivity].
    assert (is_Some (mid !! k)) as [y Hy] by (apply Hdom1; left; eauto).
    congruence.
  - intros k. rewrite elem_of_app, Hdom2, Hdom1. tauto.
  - intros Hz. apply Hz2, Hz1, Hz.
  - etransitivity; eassumption.
Qed.

Lemma collectField_grows (ft : fieldOf value) (prefix : string)
    (props out : gmap string value) :
  collectGrows toLowerCamel (fval ft) ->
  collectField toLowerCamel (collectProps toLowerCamel) ft prefix props = Ok out ->
  grownBy (fieldKeys toLowerCamel (producedKeys toLowerCamel) ft prefix) props out.
Proof.
  intros IH. unfold collectField, fieldKeys.
  destruct (fexported ft); simpl; [|intros [= <-]; apply grownBy_nil].
  destruct (PropTagForField ft) as [tag|].
  - destruct (Ignore tag); [intros [= <-]; apply grownBy_nil|].
    destruct (Flatten tag).
    + destruct (ValidateFlattenType (typeOf (fval ft))); simpl; [|discriminate].
      destruct (isNilPtr (fval ft)); [intros [= <-]; apply grownBy_nil|].
      destruct (isZero (fval ft)); [intros [= <-]; apply grownBy_nil|].
      apply IH.
    + destruct (isZero (fval ft)) eqn:Hz; [intros [= <-]; apply grownBy_nil|].
      destruct (props !! _) eqn:Hk; [discriminate|].
      intros [= <-]. apply grownBy_single; assumption.
  - destruct (fanon ft); [apply IH|intros [= <-]; apply grownBy_nil].
Qed.

Lemma collectFields_grows (fs : list (fieldOf value)) (prefix : string) :
  Forall (fun f => collectGrows toLowerCamel (fval f)) fs ->
  forall props out,
    collectFields toLowerCamel fs prefix props = Ok out ->
    grownBy (flat_map (fun ft => fieldKeys toLowerCamel (producedKeys toLowerCamel) ft prefix) fs)
      props out.
Proof.
  induction 1 as [|ft rest Hft Hrest IH]; intros props out; simpl.
  - intros [= <-]. apply grownBy_nil.
  - destruct (collectField toLowerCamel (collectProps toLowerCamel) ft prefix props)
      as [mid|e] eqn:E; [|discriminate].
    intros Hout. eapply grownBy_app.
    + eapply collectField_grows; eassumption.
    + apply IH. exact Hout.
Qed.

Lemma collectProps_grows (v : value) : collectGrows toLowerCamel v.
Proof.
  induction v as [s|z|b| |e|p IH|e isnil items|e items|n fs IH] using value_fields_ind;
    unfold collectGrows; intros prefix props out;
    try (simpl; intros [= <-]; apply grownBy_nil).
  - simpl. apply IH.
  - rewrite collectProps_struct, producedKeys_struct. apply collectFields_grows. exact IH.
Qed.

Lemma collectField_flattenSafe (ft : fieldOf value) (prefix : string)
    (props : gmap string value) :
  flattenSafe toLowerCamel (fval ft) ->
  fieldFlattenValid flattenValid ft = true ->
  collectField toLowerCamel (collectProps toLowerCamel) ft prefix props <> Err ErrFlattenType.
Proof.
  intros IH. unfold collectField, fieldFlattenValid.
  destruct (fexported ft); simpl; [|discriminate].
  destruct (PropTagForField ft) as [tag|].
  - destruct (Ignore tag); [discriminate|].
    destruct (Flatten tag).
    + destruct (ValidateFlattenType (typeOf (fval ft))); simpl; [|discriminate].
      destruct (isNilPtr (fval ft)); [discriminate|].
      destruct (isZero (fval ft)); [discriminate|].
      apply IH.
    + destruct (isZero (fval ft)); [discriminate|].
      destruct (props !! _); discriminate.
  - destruct (fanon ft); [apply IH|discriminate].
Qed.

Lemma collectProps_flattenSafe (v : value) : flattenSafe toLowerCamel v.
Proof.
  induction v as [s|z|b| |e|p IH|e isnil items|e items|n fs IH] using value_fields_ind;
    unfold flattenSafe; intros prefix props; try (simpl; discriminate).
  - simpl. apply IH.
  - rewrite collectProps_struct, flattenValid_struct. revert props.
    induction IH as [|ft rest Hft Hrest IHrest]; intros props; simpl; [discriminate|].
    intros Hvalid. apply andb_true_iff in Hvalid as [Hv1 Hv2].
    pose proof (collectField_flattenSafe ft prefix props Hft Hv1) as Hne.
    destruct (collectField toLowerCamel (collectProps toLowerCamel) ft prefix props)
      as [mid|e]; [apply IHrest; exact Hv2|exact Hne].
Qed.

End Serializer.

Lemma PropsFromStruct_noZero (toLowerCamel : string -> string) (v : value)
    (out : gmap string value) :
  PropsFromStruct toLowerCamel v = inr out -> noZero out.
Proof.
  assert (Hempty : noZero ∅).
  { intros k x Hx. rewrite lookup_empty in Hx. discriminate. }
  induction v; try (simpl; discriminate); cbn [PropsFromStruct].
  - intros H. assert (out = ∅) as -> by congruence. exact Hempty.
  - exact IHv.
  - destruct (collectProps toLowerCamel (VStruct tname fields) "" ∅) as [props|e] eqn:E;
      [|discriminate].
    intros H. assert (out = props) as -> by congruence.
    destruct (collectProps_grows toLowerCamel _ _ _ _ E) as (_ & _ & _ & Hz & _).
    exact (Hz Hempty).
Qed.

(** C7: a field with a plain name directive that holds the zero value of
    its type is skipped: the loop body leaves the map as it is, the record
    serializes as if the field were not declared, and no entry of a produced
    property map is a zero value. *)
Theorem collectProps_skips_zero (toLowerCamel : string -> string) (n : string)
    (pre post : list (fieldOf value)) (ft : fieldOf value) (tag : PropTag)
    (prefix : string) (props : gmap string value) :
  PropTagForField ft = Some tag ->
  Ignore tag = false ->
  Flatten tag = false ->
  isZero (fval ft) = true ->
  collectField toLowerCamel (collectProps toLowerCamel) ft prefix props = Ok props
  /\ collectProps toLowerCamel (VStruct n (pre ++ ft :: post)) prefix props
     = collectProps toLowerCamel (VStruct n (pre ++ post)) prefix props
  /\ (forall out,
        noZero props ->
        collectProps toLowerCamel (VStruct n (pre ++ ft :: post)) prefix props = Ok out ->
        noZero out)
  /\ (forall out,
        PropsFromStruct toLowerCamel (VStruct n (pre ++ ft :: post)) = inr out ->
        noZero out).
Proof.
  intros Htag Hign Hflat Hzero.
  assert (Hskip : forall m,
             collectField toLowerCamel (collectProps toLowerCamel) ft prefix m = Ok m).
  { intros m. unfold collectField. rewrite Htag, Hign, Hflat, Hzero.
    destruct (fexported ft); reflexivity. }
  split; [apply Hskip|]. split; [|split].
  - rewrite !collectProps_struct, !collectFields_app.
    destruct (collectFields toLowerCamel pre prefix props) as [mid|e]; [|reflexivity].
    simpl. rewrite Hskip. reflexivity.
  - intros out Hz Hout.
    destruct (collectProps_grows toLowerCamel _ _ _ _ Hout) as (_ & _ & _ & Hnz & _).
    exact (Hnz Hz).
  - intros out. apply PropsFromStruct_noZero.
Qed.

Lemma collectProps_skips_zero_witness :
  PropsFromStruct (fun s => s) testJSONStruct = inr {[ "name" := VString "Alpha" ]}
  /\ collectProps (fun s => s) testJSONStruct "" ∅
     = collectProps (fun s => s)
         (VStruct "testJSONStruct" [jsonField "Name" "name" (VString "Alpha")]) "" ∅.
Proof.
  split; [reflexivity|].
  exact (proj1 (proj2 (collectProps_skips_zero (fun s => s) "testJSONStruct"
                         [jsonField "Name" "name" (VString "Alpha")] []
                         (jsonField "Count" "count" (VInt 0))
                         (ParsePropTag "json" "count") "" ∅
                         eq_refl eq_refl eq_refl eq_refl))).
Defined.

(** A key list with a duplicate makes the walk fail. *)
Lemma collectProps_not_NoDup (toLowerCamel : string -> string) (v : value)
    (prefix : string) (props : gmap string value) :
  ~ NoDup (producedKeys toLowerCamel v prefix) ->
  (exists e, collectProps toLowerCamel v prefix props = Err e)
  /\ (flattenValid v = true ->
      exists key, collectProps toLowerCamel v prefix props = Err (ErrDuplicateKey key)).
Proof.
  intros Hdup.
  destruct (collectProps toLowerCamel v prefix props) as [out|e] eqn:E.
  - destruct (collectProps_grows toLowerCamel _ _ _ _ E) as (Hnd & _).
    contradiction.
  - split; [eauto|]. intros Hvalid. destruct e as [key|]; [eauto|].
    exfalso. exact (collectProps_flattenSafe toLowerCamel v prefix props Hvalid E).
Qed.

Lemma two_fields_not_NoDup (toLowerCamel : string -> string) (n : string)
    (pre mid post : list (fieldOf value)) (f1 f2 : fieldOf value) (prefix key : string) :
  key ∈ fieldKeys toLowerCamel (producedKeys toLowerCamel) f1 prefix ->
  key ∈ fieldKeys toLowerCamel (producedKeys toLowerCamel) f2 prefix ->
  ~ NoDup (producedKeys toLowerCamel (VStruct n (pre ++ f1 :: mid ++ f2 :: post)) prefix).
Proof.
  intros H1 H2. rewrite producedKeys_struct, flat_map_app. simpl.
  rewrite flat_map_app. simpl.
  intros Hnd. apply NoDup_app in Hnd as (_ & _ & Hnd).
  apply NoDup_app in Hnd as (_ & Hdisj & _).
  apply (Hdisj key H1). apply elem_of_app. right. apply elem_of_app. left. exact H2.
Qed.

(** C8: when two fields of a record map to the same joined flat key,
    each directly, through a composed record or through a flatten prefix,
    the serializer returns an error and no map: neither value is kept.
    Unless a flatten directive is misplaced, the error is the duplicate-key
    error. *)
Theorem collectProps_duplicate_key (toLowerCamel : string -> string) (n : string)
    (pre mid post : list (fieldOf value)) (f1 f2 : fieldOf value)
    (prefix key : string) (props : gmap string value) :
  key ∈ fieldKeys toLowerCamel (producedKeys toLowerCamel) f1 prefix ->
  key ∈ fieldKeys toLowerCamel (producedKeys toLowerCamel) f2 prefix ->
  (exists e,
      collectProps toLowerCamel (VStruct n (pre ++ f1 :: mid ++ f2 :: post)) prefix props
      = Err e)
  /\ (flattenValid (VStruct n (pre ++ f1 :: mid ++ f2 :: post)) = true ->
      exists dup,
        collectProps toLowerCamel (VStruct n (pre ++ f1 :: mid ++ f2 :: post)) prefix props
        = Err (ErrDuplicateKey dup)).
Proof.
  intros H1 H2.
  pose proof (two_fields_not_NoDup toLowerCamel n pre mid post f1 f2 prefix key H1 H2) as Hdup.
  exact (collectProps_not_NoDup toLowerCamel _ prefix props Hdup).
Qed.

Lemma collectProps_duplicate_key_witness :
  collectProps (fun s => s) twiceNamed "" ∅ = Err (ErrDuplicateKey "x")
  /\ PropsFromStruct (fun s => s) twiceNamed = inl (ErrProps (ErrDuplicateKey "x"))
  /\ exists dup, collectProps (fun s => s) flattenedClash "" ∅ = Err (ErrDuplicateKey dup).
Proof.
  split; [reflexivity|]. split; [reflexivity|].
  refine (proj2 (collectProps_duplicate_key (fun s => s) "flattenedClash" [] [] []
                   (dbField "TitleEnUS" "title_enUS" (VString "plain"))
                   (dbField "TitleLocale" "title,flatten"
                      (VPtr (VStruct "testLocale" [dbField "EnUS" "enUS" (VString "nested")])))
                   "" "title_enUS" ∅ _ _) eq_refl).
  - left.
  - left.
Defined.

(** A key already in the map is a conflict as well. *)
Lemma collectProps_key_taken (toLowerCamel : string -> string) (v : value)
    (prefix key : string) (props : gmap string value) :
  key ∈ producedKeys toLowerCamel v prefix ->
  is_Some (props !! key) ->
  exists e, collectProps toLowerCamel v prefix props = Err e.
Proof.
  intros Hin [x Hx].
  destruct (collectProps toLowerCamel v prefix props) as [out|e] eqn:E; [|eauto].
  destruct (collectProps_grows toLowerCamel _ _ _ _ E) as (_ & Hnew & _).
  rewrite (Hnew key Hin) in Hx. discriminate.
Qed.

(** ** The locale hooks *)

Lemma fieldIndex_Some {V : Type} (fs : list (fieldOf V)) (name : string) (i : nat)
    (f : fieldOf V) :
  fieldIndex fs name = Some (i, f) ->
  fs !! i = Some f /\ fname f = name /\ f ∈ fs.
Proof.
  revert i. induction fs as [|g rest IH]; intros i; simpl; [discriminate|].
  destruct (String.eqb (fname g) name) eqn:E.
  - intros [= <- <-]. apply String.eqb_eq in E.
    split; [reflexivity|]. split; [exact E|]. left.
  - destruct (fieldIndex rest name) as [[j h]|]; [|discriminate].
    intros [= <- <-]. destruct (IH j eq_refl) as (Hl & Hn & Hin).
    split; [exact Hl|]. split; [exact Hn|]. right. exact Hin.
Qed.

Lemma firstPreferredLocaleValue_Some (lfs : list (fieldOf value)) (keys : list string)
    (f : fieldOf value) :
  firstPreferredLocaleValue lfs keys = Some f ->
  f ∈ lfs /\ isZero (fval f) = false.
Proof.
  induction keys as [|key rest IH]; simpl; [discriminate|].
  destruct (fieldIndex lfs key) as [[i g]|] eqn:E; [|exact IH].
  destruct (isZero (fval g)) eqn:Hz; [exact IH|].
  intros [= <-]. apply fieldIndex_Some in E as (_ & _ & Hin). split; assumption.
Qed.

Lemma assignValue_assignable (C : conv) (dst src : value) :
  assignable C (typeOf src) (typeOf dst) = true ->
  assignValue C dst true src false = Ret (Some src).
Proof. intros H. unfold assignValue. simpl. rewrite H. reflexivity. Qed.

Lemma baseFromFields_find (C : conv) (bv : value) (lfs : list (fieldOf value)) :
  Forall (feedsBase C bv) lfs ->
  baseFromFields C bv lfs
  = Ret (option_map fval (List.find (fun f => negb (isZero (fval f))) lfs)).
Proof.
  induction 1 as [|f rest [Hexp Hasg] Hrest IH]; simpl; [reflexivity|].
  destruct (isZero (fval f)); simpl; [exact IH|].
  rewrite Hexp. simpl. rewrite (assignValue_assignable C bv (fval f) Hasg). reflexivity.
Qed.

Lemma setBaseFromLocale_authoritative (C : conv) (bv : value) (lfs : list (fieldOf value))
    (keys : list string) :
  Forall (feedsBase C bv) lfs ->
  setBaseFromLocale C bv lfs keys = Ret (authoritative lfs keys).
Proof.
  intros Hall. unfold setBaseFromLocale, authoritative.
  destruct (firstPreferredLocaleValue lfs keys) as [f|] eqn:E;
    [|apply baseFromFields_find; exact Hall].
  apply firstPreferredLocaleValue_Some in E as [Hin _].
  rewrite Forall_forall in Hall. destruct (Hall f Hin) as [Hexp Hasg].
  rewrite Hexp. simpl. rewrite (assignValue_assignable C bv (fval f) Hasg). reflexivity.
Qed.

Lemma authoritative_zero (n : string) (lfs : list (fieldOf value)) (keys : list string) :
  isZero (VStruct n lfs) = true -> authoritative lfs keys = None.
Proof.
  simpl. intros Hz. rewrite forallb_forall in Hz. unfold authoritative.
  assert (Hfirst : firstPreferredLocaleValue lfs keys = None).
  { destruct (firstPreferredLocaleValue lfs keys) as [f|] eqn:E; [|reflexivity].
    apply firstPreferredLocaleValue_Some in E as [Hin Hnz].
    apply list_elem_of_In in Hin. rewrite (Hz f Hin) in Hnz. discriminate. }
  rewrite Hfirst.
  destruct (List.find (fun f => negb (isZero (fval f))) lfs) as [f|] eqn:E; [|reflexivity].
  apply List.find_some in E as [Hin Hnz]. rewrite (Hz f Hin) in Hnz. discriminate.
Qed.

Lemma authoritative_nonzero (n : string) (lfs : list (fieldOf value)) (keys : list string) :
  isZero (VStruct n lfs) = false -> exists v, authoritative lfs keys = Some v.
Proof.
  simpl. intros Hz. unfold authoritative.
  destruct (firstPreferredLocaleValue lfs keys) as [f|]; [eauto|].
  destruct (List.find (fun f => negb (isZero (fval f))) lfs) as [f|] eqn:E; [simpl; eauto|].
  exfalso. assert (Hall : forallb (fun f => isZero (fval f)) lfs = true).
  { apply forallb_forall. intros f Hin.
    pose proof (List.find_none _ _ E f Hin) as Hf. simpl in Hf.
    destruct (isZero (fval f)); [reflexivity|discriminate]. }
  congruence.
Qed.

Lemma extractFields_spec (C : conv) (props : gmap string (option value)) (prefix : string)
    (lfs : list (fieldOf value)) :
  forall found,
    extractFields C props prefix lfs found
    = (map (populate C props prefix) lfs,
       found || existsb (fun lf => match extractField C props prefix lf with
                                   | Some _ => true
                                   | None => false
                                   end) lfs).
Proof.
  induction lfs as [|lf rest IH]; intros found; simpl.
  - rewrite orb_false_r. reflexivity.
  - unfold populate at 1. destruct (extractField C props prefix lf); rewrite IH; simpl.
    + rewrite orb_true_r. reflexivity.
    + reflexivity.
Qed.

Lemma hasAnyFlatKey_elem (props : gmap string (option value)) (prefix key : string)
    (keys : list string) (x : option value) :
  key ∈ keys ->
  props !! flatKey prefix key = Some x ->
  hasAnyFlatKey props prefix keys = true.
Proof.
  intros Hin Hx. induction Hin as [key rest|key k rest Hin IH]; simpl.
  - rewrite Hx. reflexivity.
  - destruct (props !! flatKey prefix k); [reflexivity|exact (IH Hx)].
Qed.

(** A flat key with a usable value for a field of the companion makes the
    extraction populate the companion, allocating it when it was nil, and
    report that flat keys were found. *)
Lemma extractFlatLocaleKeys_found (C : conv) (props : gmap string (option value))
    (baseName : string) (locale : value) (keys : list string)
    (ln : string) (lfs : list (fieldOf value)) (lf : fieldOf value) (rv : value) :
  companionFields locale = Some (ln, lfs) ->
  isNilPtr locale = false \/ fname lf ∈ keys ->
  lf ∈ lfs ->
  fexported lf = true ->
  props !! flatKey (lcFirst baseName) (fname lf) = Some (Some rv) ->
  assignable C (typeOf rv) (typeOf (fval lf)) = true ->
  extractFlatLocaleKeys C props baseName locale keys
  = (rewrap locale (VStruct ln (map (populate C props (lcFirst baseName)) lfs)), true)
  /\ withVal lf rv ∈ map (populate C props (lcFirst baseName)) lfs.
Proof.
  intros Hcomp Hkey Hin Hexp Hprop Hasg.
  assert (Hfield : extractField C props (lcFirst baseName) lf = Some rv).
  { unfold extractField. rewrite Hexp, Hprop, Hasg. reflexivity. }
  assert (Hex : existsb (fun lf => match extractField C props (lcFirst baseName) lf with
                                   | Some _ => true
                                   | None => false
                                   end) lfs = true).
  { apply existsb_exists. exists lf. rewrite Hfield.
    split; [apply list_elem_of_In; exact Hin|reflexivity]. }
  split.
  - unfold extractFlatLocaleKeys.
    destruct locale as [s|z|b| |lt|p|e isnil items|e items|n fs]; simpl in Hcomp;
      try discriminate.
    + destruct Hkey as [Hnil|Hkey]; [discriminate Hnil|].
      rewrite (hasAnyFlatKey_elem _ _ _ _ _ Hkey Hprop). simpl.
      destruct (zeroOf lt); try discriminate. injection Hcomp as -> ->.
      rewrite extractFields_spec, Hex. reflexivity.
    + destruct p; try discriminate. injection Hcomp as -> ->.
      rewrite extractFields_spec, Hex. reflexivity.
    + injection Hcomp as -> ->. rewrite extractFields_spec, Hex. reflexivity.
  - apply list_elem_of_In, in_map_iff. exists lf.
    split; [unfold populate; rewrite Hfield; reflexivity|apply list_elem_of_In; exact Hin].
Qed.

Lemma rewrap_cases (locale v : value) :
  rewrap locale v = v \/ rewrap locale v = VPtr v.
Proof. destruct locale; simpl; auto. Qed.

(** With flat keys found the companion is authoritative for the base,
    whatever the base held. *)
Lemma unmarshalPair_flat (C : conv) (keys : list string)
    (props : gmap string (option value)) (baseName : string) (base locale : value)
    (ln : string) (lfs' : list (fieldOf value)) :
  extractFlatLocaleKeys C props baseName locale keys
  = (rewrap locale (VStruct ln lfs'), true) ->
  Forall (feedsBase C (baseCell base)) lfs' ->
  unmarshalPair C keys (Some props) baseName base locale
  = Ret (overwritten base (authoritative lfs' keys), rewrap locale (VStruct ln lfs')).
Proof.
  intros Hextract Hfeed. unfold unmarshalPair. rewrite Hextract.
  pose proof (setBaseFromLocale_authoritative C (baseCell base) lfs' keys Hfeed) as Hset.
  destruct (rewrap_cases locale (VStruct ln lfs')) as [-> | ->].
  - destruct base as [s|z|b| |bt|bv|e isnil items|e items|n fs]; simpl in Hset |- *;
      try (rewrite Hset; destruct (authoritative lfs' keys); reflexivity).
    destruct (forallb (fun f => isZero (fval f)) lfs') eqn:Hz.
    + rewrite (authoritative_zero ln lfs' keys Hz). reflexivity.
    + rewrite Hset. destruct (authoritative_nonzero ln lfs' keys Hz) as [v ->]. reflexivity.
  - destruct base as [s|z|b| |bt|bv|e isnil items|e items|n fs]; simpl in Hset |- *;
      try (rewrite Hset; destruct (authoritative lfs' keys); reflexivity).
    destruct (forallb (fun f => isZero (fval f)) lfs') eqn:Hz.
    + rewrite (authoritative_zero ln lfs' keys Hz). reflexivity.
    + rewrite Hset. destruct (authoritative_nonzero ln lfs' keys Hz) as [v ->]. reflexivity.
Qed.

(** One iteration of the unmarshal loop on a locale-bearing pair for which
    a flat key is found, in terms of the functions of the code. *)
Lemma pairStep_flat_keys (C : conv) (keys : list string)
    (props : gmap string (option value)) (fs : list (fieldOf value)) (i bi : nat)
    (localeField baseField : fieldOf value) (baseName ln : string)
    (lfs : list (fieldOf value)) (lf : fieldOf value) (rv : value) :
  fs !! i = Some localeField ->
  fexported localeField = true ->
  localeBaseName (fname localeField) = Some baseName ->
  fieldIndex fs baseName = Some (bi, baseField) ->
  fexported baseField = true ->
  companionFields (fval localeField) = Some (ln, lfs) ->
  isNilPtr (fval localeField) = false \/ fname lf ∈ keys ->
  lf ∈ lfs ->
  fexported lf = true ->
  props !! flatKey (lcFirst baseName) (fname lf) = Some (Some rv) ->
  assignable C (typeOf rv) (typeOf (fval lf)) = true ->
  Forall (feedsBase C (baseCell (fval baseField)))
    (map (populate C props (lcFirst baseName)) lfs) ->
  withVal lf rv ∈ map (populate C props (lcFirst baseName)) lfs
  /\ pairStep (unmarshalPair C keys (Some props)) true fs i
     = Ret (<[bi := withVal baseField
                      (overwritten (fval baseField)
                         (authoritative (map (populate C props (lcFirst baseName)) lfs) keys))]>
              (<[i := withVal localeField
                        (rewrap (fval localeField)
                           (VStruct ln (map (populate C props (lcFirst baseName)) lfs)))]>
                 fs)).
Proof.
  intros Hi Hexp Hname Hbase Hbexp Hcomp Hkey Hin Hlexp Hprop Hasg Hfeed.
  destruct (extractFlatLocaleKeys_found C props baseName (fval localeField) keys ln lfs lf rv
              Hcomp Hkey Hin Hlexp Hprop Hasg) as [Hextract Hpop].
  split; [exact Hpop|].
  unfold pairStep. rewrite Hi, Hexp, Hname, Hbase, Hbexp. simpl.
  rewrite (unmarshalPair_flat C keys props baseName (fval baseField) (fval localeField)
             ln _ Hextract Hfeed).
  reflexivity.
Qed.

(** The specification's words against the functions of the code. *)
Lemma fieldIndex_find {V : Type} (fs : list (fieldOf V)) (name : string) :
  option_map snd (fieldIndex fs name) = List.find (fun f => String.eqb (fname f) name) fs.
Proof.
  induction fs as [|g rest IH]; simpl; [reflexivity|].
  destruct (String.eqb (fname g) name); [reflexivity|].
  rewrite <- IH. destruct (fieldIndex rest name) as [[j h]|]; reflexivity.
Qed.

Lemma firstPreferredLocaleValue_preferredValue (lfs : list (fieldOf value))
    (keys : list string) :
  option_map fval (firstPreferredLocaleValue lfs keys) = preferredValue lfs keys.
Proof.
  unfold preferredValue. induction keys as [|key rest IH]; simpl; [reflexivity|].
  unfold heldBy at 1. rewrite <- fieldIndex_find.
  destruct (fieldIndex lfs key) as [[j f]|]; simpl; [|exact IH].
  destruct (isZero (fval f)); [exact IH|reflexivity].
Qed.

Lemma find_firstNonZero (lfs : list (fieldOf value)) :
  option_map fval (List.find (fun f => negb (isZero (fval f))) lfs) = firstNonZero lfs.
Proof.
  unfold firstNonZero. induction lfs as [|f rest IH]; simpl; [reflexivity|].
  destruct (isZero (fval f)); simpl; [exact IH|reflexivity].
Qed.

Lemma authoritative_authoritativeValue (lfs : list (fieldOf value)) (keys : list string) :
  authoritative lfs keys = authoritativeValue lfs keys.
Proof.
  unfold authoritative, authoritativeValue.
  rewrite <- firstPreferredLocaleValue_preferredValue, <- find_firstNonZero.
  destruct (firstPreferredLocaleValue lfs keys); reflexivity.
Qed.

Lemma lcFirst_lowerFirst (s : string) : lcFirst s = lowerFirst s.
Proof.
  destruct s as [|c rest]; [reflexivity|]. unfold lcFirst, lowerFirst. f_equal.
  destruct c as [[] [] [] [] [] [] [] []]; reflexivity.
Qed.

Lemma populate_populated (C : conv) (props : gmap string (option value))
    (baseName : string) (lfs : list (fieldOf value)) :
  (forall f v, f ∈ lfs -> fexported f = true ->
               flatValue props baseName (fname f) = Some v ->
               assignable C (typeOf v) (typeOf (fval f)) = true) ->
  map (populate C props (lcFirst baseName)) lfs = populated props baseName lfs.
Proof.
  intros Hasg. unfold populated. apply map_ext_in. intros f Hin.
  apply list_elem_of_In in Hin.
  specialize (Hasg f). unfold populate, extractField, flatValue, flatKey in *.
  rewrite <- !lcFirst_lowerFirst in *.
  destruct (fexported f); simpl.
  - destruct (props !! _) as [[rv|]|]; try reflexivity.
    rewrite (Hasg rv Hin eq_refl eq_refl). reflexivity.
  - destruct (props !! _) as [[rv|]|]; reflexivity.
Qed.

(** A companion is never its own base: the base name is shorter. *)
Lemma substring_prefix_length (n : nat) (s : string) :
  n <= String.length s -> String.length (substring 0 n s) = n.
Proof.
  revert n. induction s as [|c s IH]; intros [|n] H; simpl in *; try reflexivity; try lia.
  rewrite IH by lia. reflexivity.
Qed.

Lemma TrimSuffix_shorter (s suffix : string) :
  HasSuffix s suffix = true -> 0 < String.length suffix ->
  String.length (TrimSuffix s suffix) < String.length s.
Proof.
  intros H Hpos. unfold TrimSuffix. rewrite H. unfold HasSuffix in H.
  apply andb_true_iff in H as [Hle _]. apply Nat.leb_le in Hle.
  rewrite substring_prefix_length by lia. lia.
Qed.

Lemma localeBaseName_shorter (fieldName base : string) :
  localeBaseName fieldName = Some base -> String.length base < String.length fieldName.
Proof.
  unfold localeBaseName.
  destruct (HasSuffix fieldName "Locales") eqn:E1.
  - intros [= <-]. apply TrimSuffix_shorter; [exact E1|simpl; lia].
  - destruct (HasSuffix fieldName "Locale") eqn:E2; [|discriminate].
    intros [= <-]. apply TrimSuffix_shorter; [exact E2|simpl; lia].
Qed.

(** The hook never panics on companions whose fields are all exported, and
    leaves them so. *)
Lemma assignValue_exported (C : conv) (dst src : value) :
  exists o, assignValue C dst true src false = Ret o.
Proof.
  unfold assignValue. simpl.
  destruct (assignable C _ _); [eauto|]. destruct (convertible C _ _); eauto.
Qed.

Lemma baseFromFields_exported (C : conv) (bv : value) (lfs : list (fieldOf value)) :
  forallb fexported lfs = true -> exists o, baseFromFields C bv lfs = Ret o.
Proof.
  induction lfs as [|f rest IH]; simpl; [eauto|].
  intros H. apply andb_true_iff in H as [Hf Hrest].
  destruct (isZero (fval f)); [exact (IH Hrest)|].
  rewrite Hf. simpl.
  destruct (assignValue_exported C bv (fval f)) as [[v|] ->]; [eauto|exact (IH Hrest)].
Qed.

Lemma setBaseFromLocale_exported (C : conv) (bv : value) (lfs : list (fieldOf value))
    (keys : list string) :
  forallb fexported lfs = true -> exists o, setBaseFromLocale C bv lfs keys = Ret o.
Proof.
  intros H. unfold setBaseFromLocale.
  destruct (firstPreferredLocaleValue lfs keys) as [f|] eqn:E;
    [|exact (baseFromFields_exported C bv lfs H)].
  apply firstPreferredLocaleValue_Some in E as [Hin _].
  rewrite forallb_forall in H. rewrite (H f (proj1 (list_elem_of_In _ _) Hin)). simpl.
  destruct (assignValue_exported C bv (fval f)) as [[v|] ->]; [eauto|].
  apply baseFromFields_exported. apply forallb_forall. exact H.
Qed.

Lemma forallb_map_populate (C : conv) (props : gmap string (option value)) (prefix : string)
    (lfs : list (fieldOf value)) :
  forallb fexported (map (populate C props prefix) lfs) = forallb fexported lfs.
Proof.
  induction lfs as [|f rest IH]; simpl; [reflexivity|]. rewrite IH. f_equal.
  unfold populate. destruct (extractField C props prefix f); reflexivity.
Qed.

Lemma extractFlatLocaleKeys_exported (C : conv) (props : gmap string (option value))
    (baseName : string) (locale : value) (keys : list string) :
  exportedCompanion (fst (extractFlatLocaleKeys C props baseName locale keys))
  = exportedCompanion locale.
Proof.
  unfold extractFlatLocaleKeys, exportedCompanion.
  destruct locale as [s|z|b| |lt|p|e isnil items|e items|n fs]; simpl; try reflexivity.
  - destruct (hasAnyFlatKey props (lcFirst baseName) keys); simpl; [|reflexivity].
    destruct (zeroOf lt); simpl; try reflexivity.
    rewrite extractFields_spec. simpl. apply forallb_map_populate.
  - destruct p; simpl; try reflexivity.
    rewrite extractFields_spec. simpl. apply forallb_map_populate.
  - rewrite extractFields_spec. simpl. apply forallb_map_populate.
Qed.

Lemma unmarshalPair_exported (C : conv) (keys : list string)
    (from : option (gmap string (option value))) (baseName : string) (base locale : value) :
  exportedCompanion locale = true ->
  exists b' l', unmarshalPair C keys from baseName base locale = Ret (b', l')
                /\ exportedCompanion l' = true.
Proof.
  intros Hexp.
  assert (H1 : exportedCompanion
                 (fst match from with
                      | Some m => extractFlatLocaleKeys C m baseName locale keys
                      | None => (locale, false)
                      end) = true).
  { destruct from as [m|]; [rewrite extractFlatLocaleKeys_exported|]; exact Hexp. }
  unfold unmarshalPair.
  destruct (match from with Some m => _ | None => _ end) as [locale1 found].
  simpl in H1. clear Hexp.
  assert (Hset : forall bv n lfs,
            locale1 = VStruct n lfs \/ locale1 = VPtr (VStruct n lfs) ->
            exists o, setBaseFromLocale C bv lfs keys = Ret o).
  { intros bv n lfs Hl. apply setBaseFromLocale_exported.
    destruct Hl as [-> | ->]; exact H1. }
  destruct base; simpl;
    destruct locale1 as [ | | | | |lv| | |ln lfs]; simpl; eauto;
    try (destruct lv as [ | | | | | | | |ln lfs]; simpl; eauto).
  all: repeat match goal with
       | |- context [setBaseFromLocale _ ?bv ?l _] =>
           let o := fresh "o" in let Ho := fresh "Ho" in
           destruct (Hset bv ln l ltac:(auto)) as [o Ho]; rewrite Ho; destruct o
       | |- context [if ?b then _ else _] => destruct b
       end; eauto.
Qed.

Lemma fmap_insert_withVal {B : Type} (h : fieldOf value -> B) (fs : list (fieldOf value))
    (k : nat) (f : fieldOf value) (x : value) :
  (forall g y, h (withVal g y) = h g) ->
  (h <$> fs) !! k = Some (h f) ->
  h <$> <[k := withVal f x]> fs = h <$> fs.
Proof.
  intros Hh Hk. rewrite list_fmap_insert, Hh. apply list_insert_id. exact Hk.
Qed.

Lemma fieldShape_lookup (fs fs0 : list (fieldOf value)) (k : nat) (f : fieldOf value) :
  fieldShape <$> fs = fieldShape <$> fs0 ->
  fs !! k = Some f ->
  exists f0, fs0 !! k = Some f0 /\ fname f0 = fname f /\ fexported f0 = fexported f.
Proof.
  intros Hs Hk.
  assert (H : (fieldShape <$> fs0) !! k = Some (fieldShape f)).
  { rewrite <- Hs, list_lookup_fmap, Hk. reflexivity. }
  rewrite list_lookup_fmap in H. destruct (fs0 !! k) as [f0|]; [|discriminate].
  injection H as Hn He. eauto.
Qed.

Lemma fieldIndex_fieldShape (name : string) (fs : list (fieldOf value)) :
  forall fs0 j f0,
    fieldShape <$> fs = fieldShape <$> fs0 ->
    fieldIndex fs0 name = Some (j, f0) ->
    exists f, fieldIndex fs name = Some (j, f).
Proof.
  induction fs as [|g rest IH]; intros [|g0 rest0] j f0 Hs; simpl in *; try discriminate.
  injection Hs as Hn He Hrest.
  rewrite Hn. destruct (String.eqb (fname g0) name).
  - intros [= <- <-]. eauto.
  - destruct (fieldIndex rest0 name) as [[j0 h0]|] eqn:E0; [|discriminate].
    intros [= <- <-]. destruct (IH rest0 j0 h0 Hrest E0) as [h ->]. eauto.
Qed.

Section PairLoop.

Variable sync : string -> value -> value -> outcome (value * value).
Variables (fs0 : list (fieldOf value)) (i bi : nat) (baseName : string).
Variables (localeField baseField : fieldOf value).

Hypothesis Hsync : forall name base locale,
  exportedCompanion locale = true ->
  exists b' l', sync name base locale = Ret (b', l') /\ exportedCompanion l' = true.
Hypothesis Hsep : separatePairs fs0 i baseName.
Hypothesis Hi : fs0 !! i = Some localeField.
Hypothesis Hexp : fexported localeField = true.
Hypothesis Hname : localeBaseName (fname localeField) = Some baseName.
Hypothesis Hbase : fieldIndex fs0 baseName = Some (bi, baseField).

Lemma keptByLoop_start : keptByLoop fs0 fs0.
Proof.
  split; [reflexivity|]. intros k f Hk He [b Hb].
  exact (proj2 (proj2 (proj2 (proj2 (Hsep k f b Hk He Hb))))).
Qed.

Lemma base_not_companion : localeBaseName baseName = None.
Proof. exact (proj1 (proj2 (Hsep i localeField baseName Hi Hexp Hname))). Qed.

Lemma keptByLoop_insert (fs : list (fieldOf value)) (k : nat) (f : fieldOf value) (x : value) :
  keptByLoop fs0 fs -> fs !! k = Some f ->
  (fexported f = true -> is_Some (localeBaseName (fname f)) -> exportedCompanion x = true) ->
  keptByLoop fs0 (<[k := withVal f x]> fs).
Proof.
  intros [Hs Hc] Hk Hx. split.
  - rewrite <- Hs. apply fmap_insert_withVal; [reflexivity|].
    rewrite list_lookup_fmap, Hk. reflexivity.
  - intros j g Hj He Hn. destruct (Nat.eq_dec k j) as [<-|Hne].
    + rewrite list_lookup_insert_eq in Hj by (apply lookup_lt_Some in Hk; exact Hk).
      injection Hj as <-. exact (Hx He Hn).
    + rewrite list_lookup_insert_ne in Hj by exact Hne. exact (Hc j g Hj He Hn).
Qed.

Lemma pairStep_other (fs : list (fieldOf value)) (k : nat) :
  keptByLoop fs0 fs -> k <> i ->
  exists fs1, pairStep sync true fs k = Ret fs1
              /\ keptByLoop fs0 fs1 /\ fs1 !! i = fs !! i /\ fs1 !! bi = fs !! bi.
Proof.
  intros Hinv Hk. pose proof Hinv as [Hs Hc]. unfold pairStep.
  destruct (fs !! k) as [f|] eqn:Ek; [|eauto].
  destruct (fexported f) eqn:Ef; simpl; [|eauto].
  destruct (localeBaseName (fname f)) as [b|] eqn:Eb; [|eauto].
  destruct (fieldIndex fs b) as [[bk bf]|] eqn:Ebk; [|eauto].
  destruct (fexported bf) eqn:Ebf; simpl; [|eauto].
  destruct (Hsync b (fval bf) (fval f) (Hc k f Ek Ef (ex_intro _ b Eb)))
    as (b' & l' & -> & Hl').
  apply fieldIndex_Some in Ebk as (Hbk & Hbn & _).
  destruct (fieldShape_lookup fs fs0 k f Hs Ek) as (f0 & Hk0 & Hn0 & He0).
  rewrite <- Hn0 in Eb. rewrite <- He0 in Ef.
  destruct (Hsep k f0 b Hk0 Ef Eb) as (_ & Hbnone & Hshare & _ & _).
  pose proof (fieldIndex_Some _ _ _ _ Hbase) as (Hbi0 & Hbin & _).
  assert (Hkb : k <> bk).
  { intros ->. rewrite Ek in Hbk. injection Hbk as ->. rewrite Hn0, Hbn in Eb.
    apply localeBaseName_shorter in Eb. lia. }
  assert (Hbki : bk <> i).
  { intros ->. destruct (fieldShape_lookup fs fs0 i bf Hs Hbk) as (g0 & Hg0 & Hgn & _).
    rewrite Hi in Hg0. injection Hg0 as <-. rewrite Hgn, Hbn in Hname. congruence. }
  assert (Hkbi : k <> bi).
  { intros ->. rewrite Hbi0 in Hk0. injection Hk0 as <-. rewrite Hbin in Eb.
    rewrite base_not_companion in Eb. discriminate. }
  assert (Hbkbi : bk <> bi).
  { intros ->. destruct (fieldShape_lookup fs fs0 bi bf Hs Hbk) as (g0 & Hg0 & Hgn & _).
    rewrite Hbi0 in Hg0. injection Hg0 as <-. apply (Hshare Hk). congruence. }
  eexists. split; [reflexivity|]. split; [|split].
  - apply keptByLoop_insert.
    + apply keptByLoop_insert; [exact Hinv|exact Ek|]. intros _ _. exact Hl'.
    + rewrite list_lookup_insert_ne by exact Hkb. exact Hbk.
    + intros _ [x Hx]. rewrite Hbn, Hbnone in Hx. discriminate.
  - rewrite list_lookup_insert_ne by exact Hbki.
    rewrite list_lookup_insert_ne by exact Hk. reflexivity.
  - rewrite list_lookup_insert_ne by exact Hbkbi.
    rewrite list_lookup_insert_ne by exact Hkbi. reflexivity.
Qed.

Lemma fieldLoop_after (n : nat) :
  forall k fs, i < k -> keptByLoop fs0 fs ->
    exists fs', fieldLoop (pairStep sync true) n k fs = Ret fs'
                /\ fs' !! i = fs !! i /\ fs' !! bi = fs !! bi.
Proof.
  induction n as [|n IH]; intros k fs Hk Hinv; simpl; [eauto|].
  destruct (pairStep_other fs k Hinv ltac:(lia)) as (fs1 & -> & Hinv1 & H1 & H2).
  destruct (IH (S k) fs1 ltac:(lia) Hinv1) as (fs' & -> & H3 & H4).
  exists fs'. split; [reflexivity|]. split; congruence.
Qed.

Variables (L B : value).
Hypothesis HL : exportedCompanion L = true.
Hypothesis Hstep : forall fs,
  fs !! i = Some localeField ->
  fieldIndex fs baseName = Some (bi, baseField) ->
  pairStep sync true fs i
  = Ret (<[bi := withVal baseField B]> (<[i := withVal localeField L]> fs)).

Lemma fieldLoop_pair (n : nat) :
  forall k fs, k <= i -> i < k + n -> keptByLoop fs0 fs ->
    fs !! i = Some localeField -> fs !! bi = Some baseField ->
    exists fs', fieldLoop (pairStep sync true) n k fs = Ret fs'
                /\ fs' !! i = Some (withVal localeField L)
                /\ fs' !! bi = Some (withVal baseField B).
Proof.
  pose proof (fieldIndex_Some _ _ _ _ Hbase) as (Hbi0 & Hbin & _).
  assert (Hne : i <> bi).
  { intros ->. rewrite Hi in Hbi0. injection Hbi0 as ->.
    pose proof (localeBaseName_shorter _ _ Hname). rewrite Hbin in *. lia. }
  induction n as [|n IH]; intros k fs Hle Hlt Hinv Hfi Hfb; [lia|]. simpl.
  destruct (Nat.eq_dec k i) as [->|Hk].
  - assert (Hfx : fieldIndex fs baseName = Some (bi, baseField)).
    { destruct (fieldIndex_fieldShape baseName fs fs0 bi baseField (proj1 Hinv) Hbase) as [g Hg].
      pose proof (fieldIndex_Some _ _ _ _ Hg) as (Hgb & _ & _).
      rewrite Hfb in Hgb. injection Hgb as <-. exact Hg. }
    rewrite (Hstep fs Hfi Hfx).
    assert (Hinv1 : keptByLoop fs0 (<[bi := withVal baseField B]> (<[i := withVal localeField L]> fs))).
    { apply keptByLoop_insert.
      - apply keptByLoop_insert; [exact Hinv|exact Hfi|]. intros _ _. exact HL.
      - rewrite list_lookup_insert_ne by exact Hne. exact Hfb.
      - intros _ [x Hx]. rewrite Hbin, base_not_companion in Hx. discriminate. }
    destruct (fieldLoop_after n (S i) _ ltac:(lia) Hinv1) as (fs' & -> & H1 & H2).
    exists fs'. split; [reflexivity|]. rewrite H1, H2.
    apply lookup_lt_Some in Hfi as Hlen. apply lookup_lt_Some in Hfb as Hlen'. split.
    + rewrite list_lookup_insert_ne by (intros E; apply Hne; symmetry; exact E).
      apply list_lookup_insert_eq. exact Hlen.
    + apply list_lookup_insert_eq. rewrite length_insert. exact Hlen'.
  - destruct (pairStep_other fs k Hinv Hk) as (fs1 & -> & Hinv1 & H1 & H2).
    apply (IH (S k) fs1); [lia|lia|exact Hinv1|congruence|congruence].
Qed.

End PairLoop.



(** The same pair through the whole hook, and a nil companion that the
    hook allocates. *)
Example unmarshal_hook_on_flat_props :
  localesUnmarshalHook identConv ["EnAU"; "EnUS"] (Some flatProps) false
    (VPtr (hookLocalizedPerson "fallback" (hookLocales "" "")))
  = Ret (VPtr (hookLocalizedPerson "AU" (hookLocales "US" "AU")))
  /\ LocalesUnmarshalHook identConv (Some flatProps) false
       (VPtr (hookNilableLocalePerson "fallback" (VNil hookLocalesT)))
     = Ret (VPtr (hookNilableLocalePerson "US" (VPtr (hookLocales "US" "AU")))).
Proof. split; reflexivity. Qed.

(** Without flat keys a nil companion stays nil and the base is kept. *)
Example unmarshal_hook_without_flat_props :
  LocalesUnmarshalHook identConv (Some {[ "name" := Some (VString "Hello") ]}) false
    (VPtr (hookNilableLocalePerson "Hello" (VNil hookLocalesT)))
  = Ret (VPtr (hookNilableLocalePerson "Hello" (VNil hookLocalesT))).
Proof. reflexivity. Qed.

(** C1: the unmarshal hook run without flat keys on a record whose base is
    a non-nil pointer to the empty string and whose companion carries
    [EnUS = "Hello"].  The hook unwraps the base pointer before it tests
    for the zero value, so the explicit empty string is taken for a missing
    base and overwritten with "Hello". *)
Theorem localesUnmarshalHook_overwrites_explicit_empty :
  LocalesUnmarshalHook identConv None false
    (VPtr (hookPtrBaseLocalePerson (VPtr (VString "")) (VPtr (hookLocales "Hello" ""))))
  = Ret (VPtr (hookPtrBaseLocalePerson (VPtr (VString "Hello"))
                 (VPtr (hookLocales "Hello" ""))))
  /\ fieldValue (VPtr (hookPtrBaseLocalePerson (VPtr (VString "Hello"))
                         (VPtr (hookLocales "Hello" "")))) "Name"
     <> Some (VPtr (VString "")).
Proof. split; [reflexivity|discriminate]. Qed.

(** The nil base, on the other hand, is filled from the companion. *)
Example unmarshal_hook_fills_nil_base :
  LocalesUnmarshalHook identConv None false
    (VPtr (hookPtrBaseLocalePerson (VNil TString) (VPtr (hookLocales "Hello" ""))))
  = Ret (VPtr (hookPtrBaseLocalePerson (VPtr (VString "Hello"))
                 (VPtr (hookLocales "Hello" "")))).
Proof. reflexivity. Qed.

(** C2: the marshal hook on a record whose base is a non-nil pointer to
    the empty string and whose companion holds stale values.  The hook
    takes the zero base for a missing one and fills it from the companion:
    the companion keeps "stale" in both fields and the base becomes
    "stale". *)
Theorem localesMarshalHook_keeps_stale_on_zero_base :
  LocalesHook identConv false
    (VPtr (hookPtrBaseLocalePerson (VPtr (VString "")) (VPtr (hookLocales "stale" "stale"))))
  = Ret (VPtr (hookPtrBaseLocalePerson (VPtr (VString "stale"))
                 (VPtr (hookLocales "stale" "stale"))))
  /\ LocalesHook identConv false
       (VPtr (hookLocalizedPerson "" (hookLocales "stale-US" "stale-AU")))
     = Ret (VPtr (hookLocalizedPerson "stale-US" (hookLocales "stale-US" "stale-AU"))).
Proof. split; reflexivity. Qed.

(** C3: the marshal hook on a record whose base is "Updated" and whose
    companion holds stale values in both fields leaves the record as it
    is: the base is written to the companion only when the companion is
    zero, as for the nil companion of the second record. *)
Theorem localesMarshalHook_keeps_stale_on_new_base :
  LocalesHook identConv false
    (VPtr (hookNilableLocalePerson "Updated" (VPtr (hookLocales "Stale" "Stale"))))
  = Ret (VPtr (hookNilableLocalePerson "Updated" (VPtr (hookLocales "Stale" "Stale"))))
  /\ LocalesHook identConv false
       (VPtr (hookNilableLocalePerson "Hello" (VNil hookLocalesT)))
     = Ret (VPtr (hookNilableLocalePerson "Hello" (VPtr (hookLocales "Hello" "")))).
Proof. split; reflexivity. Qed.

(** A nil base leaves the companion untouched (the base itself is
    allocated and filled from it), and a record that is not addressable is
    left alone altogether. *)
Example marshal_hook_nil_base :
  LocalesHook identConv false
    (VPtr (hookPtrBaseLocalePerson (VNil TString) (VPtr (hookLocales "existing" "data"))))
  = Ret (VPtr (hookPtrBaseLocalePerson (VPtr (VString "existing"))
                 (VPtr (hookLocales "existing" "data"))))
  /\ LocalesHook identConv false (hookLocalizedPerson "Hi" (hookLocales "" ""))
     = Ret (hookLocalizedPerson "Hi" (hookLocales "" "")).
Proof. split; reflexivity. Qed.

(** The three evaluations above are instances of what the two hooks do on
    every pair. *)

(** Unmarshal, no raw map: a base pointing to a zero value is overwritten
    from a companion that is not zero. *)
Lemma unmarshalPair_zero_base (C : conv) (keys : list string) (baseName : string)
    (bv locale : value) (ln : string) (lfs : list (fieldOf value)) :
  locale = VStruct ln lfs \/ locale = VPtr (VStruct ln lfs) ->
  isZero bv = true ->
  isZero (VStruct ln lfs) = false ->
  Forall (feedsBase C bv) lfs ->
  exists v, authoritative lfs keys = Some v
            /\ unmarshalPair C keys None baseName (VPtr bv) locale = Ret (VPtr v, locale).
Proof.
  intros Hloc Hzb Hzl Hfeed.
  destruct (authoritative_nonzero ln lfs keys Hzl) as [v Hv]. exists v. split; [exact Hv|].
  pose proof (setBaseFromLocale_authoritative C bv lfs keys Hfeed) as Hset.
  simpl in Hzl.
  destruct Hloc as [-> | ->]; unfold unmarshalPair; simpl;
    rewrite Hzb, Hzl, Hset, Hv; reflexivity.
Qed.

(** Marshal: with a base pointing to a zero value and a companion that is
    not zero, the companion is left as it is and the base is filled. *)
Lemma marshalPair_zero_base (C : conv) (keys : list string)
    (bv locale : value) (ln : string) (lfs : list (fieldOf value)) :
  locale = VStruct ln lfs \/ locale = VPtr (VStruct ln lfs) ->
  isZero bv = true ->
  isZero (VStruct ln lfs) = false ->
  Forall (feedsBase C bv) lfs ->
  exists v, authoritative lfs keys = Some v
            /\ marshalPair C keys (VPtr bv) locale = Ret (VPtr v, locale).
Proof.
  intros Hloc Hzb Hzl Hfeed.
  destruct (authoritative_nonzero ln lfs keys Hzl) as [v Hv]. exists v. split; [exact Hv|].
  pose proof (setBaseFromLocale_authoritative C bv lfs keys Hfeed) as Hset.
  simpl in Hzl.
  destruct Hloc as [-> | ->]; unfold marshalPair; simpl;
    rewrite Hzb, Hzl, Hset, Hv; reflexivity.
Qed.

(** Marshal: with a base and a companion that are both not zero, nothing
    is written. *)
Lemma marshalPair_both_set (C : conv) (keys : list string)
    (base bv locale : value) (ln : string) (lfs : list (fieldOf value)) :
  base = VPtr bv \/ (base = bv /\ kindOf (typeOf bv) <> KPtr) ->
  locale = VStruct ln lfs \/ locale = VPtr (VStruct ln lfs) ->
  isZero bv = false ->
  isZero (VStruct ln lfs) = false ->
  marshalPair C keys base locale = Ret (base, locale).
Proof.
  intros Hbase Hloc Hzb Hzl. simpl in Hzl.
  destruct Hbase as [-> | [-> Hnn]].
  - destruct Hloc as [-> | ->]; unfold marshalPair; simpl; rewrite Hzb, Hzl; reflexivity.
  - destruct bv; try discriminate Hzb; try (exfalso; apply Hnn; reflexivity);
      destruct Hloc as [-> | ->]; unfold marshalPair; simpl in *;
      rewrite ?Hzb, ?Hzl; reflexivity.
Qed.

Lemma setLocaleFromBase_first_key (C : conv) (bv : value) (lfs : list (fieldOf value))
    (key : string) (rest : list string) (i : nat) (f : fieldOf value) :
  fieldIndex lfs key = Some (i, f) ->
  fexported f = true ->
  isZero (fval f) = true ->
  assignable C (typeOf bv) (typeOf (fval f)) = true ->
  setLocaleFromBase C bv lfs (key :: rest) = (<[i := withVal f bv]> lfs, true).
Proof.
  intros Hidx Hexp Hz Hasg. unfold setLocaleFromBase. simpl.
  rewrite Hidx, Hexp, Hz. simpl.
  rewrite (assignValue_assignable C (fval f) bv Hasg). reflexivity.
Qed.

#[local] Arguments isZero : simpl never.
#[local] Arguments setLocaleFromBase : simpl never.

(** Marshal: a base that is not zero is written into the field of the
    first preferred key of a companion that is nil or zero, which is
    allocated when nil; its other fields stay zero. *)
Lemma marshalPair_fills_companion (C : conv) (key : string) (rest : list string)
    (base bv locale : value) (ln : string) (lfs : list (fieldOf value))
    (i : nat) (f : fieldOf value) :
  base = VPtr bv \/ (base = bv /\ kindOf (typeOf bv) <> KPtr) ->
  isZero bv = false ->
  companionFields locale = Some (ln, lfs) ->
  isZero (VStruct ln lfs) = true ->
  fieldIndex lfs key = Some (i, f) ->
  fexported f = true ->
  assignable C (typeOf bv) (typeOf (fval f)) = true ->
  marshalPair C (key :: rest) base locale
  = Ret (base, rewrap locale (VStruct ln (<[i := withVal f bv]> lfs))).
Proof.
  intros Hbase Hzb Hcomp Hzl Hidx Hexp Hasg.
  assert (Hzf : isZero (fval f) = true).
  { assert (Hall : forallb (fun g => isZero (fval g)) lfs = true) by exact Hzl.
    rewrite forallb_forall in Hall.
    apply fieldIndex_Some in Hidx as (_ & _ & Hin).
    apply (Hall f). apply list_elem_of_In. exact Hin. }
  pose proof (setLocaleFromBase_first_key C bv lfs key rest i f Hidx Hexp Hzf Hasg) as Hset.
  destruct locale as [s|z|b| |lt|p|e isnil items|e items|n fs]; simpl in Hcomp;
    try discriminate.
  - destruct (zeroOf lt) eqn:Ez; try discriminate. injection Hcomp as -> ->.
    destruct Hbase as [-> | [-> Hk]].
    + unfold marshalPair. rewrite Hzb, Ez. simpl. rewrite ?Hzb, Hzl, Hset. reflexivity.
    + destruct bv; try discriminate Hzb; try (exfalso; apply Hk; reflexivity);
        unfold marshalPair; rewrite Hzb, Ez; simpl; rewrite ?Hzb, Hzl, Hset; reflexivity.
  - destruct p; try discriminate. injection Hcomp as -> ->.
    destruct Hbase as [-> | [-> Hk]].
    + unfold marshalPair. simpl. rewrite Hzb, Hzl, Hset. reflexivity.
    + destruct bv; try discriminate Hzb; try (exfalso; apply Hk; reflexivity);
        unfold marshalPair; simpl; rewrite ?Hzb, Hzl, Hset; reflexivity.
  - injection Hcomp as -> ->.
    destruct Hbase as [-> | [-> Hk]].
    + unfold marshalPair. simpl. rewrite Hzb, Hzl, Hset. reflexivity.
    + destruct bv; try discriminate Hzb; try (exfalso; apply Hk; reflexivity);
        unfold marshalPair; simpl; rewrite ?Hzb, Hzl, Hset; reflexivity.
Qed.

(** * Further properties *)

(** ** The tag parser *)

Lemma scanOpts_spec (opts : list string) :
  forall b, scanOpts opts b = b || existsb (fun o => String.eqb o "flatten") opts.
Proof.
  induction opts as [|o rest IH]; intros b; simpl.
  - rewrite orb_false_r. reflexivity.
  - rewrite IH. destruct (String.eqb o "flatten"), b; reflexivity.
Qed.

Lemma parts_tail (raw : string) :
  (if Nat.ltb 1 (length (splitComma raw)) then tl (splitComma raw) else [])
  = tl (splitComma raw).
Proof. destruct (splitComma raw) as [|p [|q rest]]; reflexivity. Qed.

(** X1: a directive has [Flatten] set exactly when its first segment is not
    [-] and one of the later segments is the token [flatten]; the position
    of the token among the options and the other options do not matter. *)
Theorem ParsePropTag_Flatten_iff (key raw : string) :
  Flatten (ParsePropTag key raw) = true
  <-> hd "" (splitComma raw) <> "-" /\ "flatten" ∈ tl (splitComma raw).
Proof.
  unfold ParsePropTag. rewrite parts_tail.
  destruct (String.eqb_spec (hd "" (splitComma raw)) "-") as [E|E]; simpl.
  - split; [discriminate|]. intros [H _]. contradiction.
  - rewrite scanOpts_spec. simpl. split.
    + intros H. split; [exact E|].
      apply existsb_exists in H as (o & Hin & Ho). apply String.eqb_eq in Ho. subst o.
      apply list_elem_of_In. exact Hin.
    + intros [_ H]. apply existsb_exists. exists "flatten".
      split; [apply list_elem_of_In; exact H|reflexivity].
Qed.

Lemma joinComma_splitComma (s : string) : joinComma (splitComma s) = s.
Proof.
  induction s as [|c rest IH]; [reflexivity|].
  simpl splitComma. destruct (Ascii.eqb_spec c ","%char) as [->|Hc].
  - pose proof (splitComma_nonempty rest) as Hne.
    destruct (splitComma rest) as [|w ws] eqn:E; [contradiction|].
    simpl joinComma in *. rewrite IH. reflexivity.
  - destruct (splitComma rest) as [|w ws] eqn:E.
    + exfalso. exact (splitComma_nonempty rest E).
    + simpl joinComma in *. destruct ws as [|w' ws']; simpl; rewrite <- IH; reflexivity.
Qed.

Lemma splitComma_commaFree (s : string) :
  Forall (fun p => commaFree p = true) (splitComma s).
Proof.
  induction s as [|c rest IH]; simpl; [repeat constructor|].
  destruct (Ascii.eqb c ","%char) eqn:Ec; [constructor; [reflexivity|exact IH]|].
  destruct (splitComma rest) as [|w ws]; [repeat constructor; simpl; rewrite Ec; reflexivity|].
  inversion IH as [|? ? Hw Hws]; subst. constructor; [|exact Hws].
  simpl. rewrite Ec, Hw. reflexivity.
Qed.

(** X2: parsing loses nothing of an annotation: the override name followed
    by the raw options, joined with commas, is the annotation again, and
    neither the name nor an option holds a comma. *)
Theorem ParsePropTag_joins_back (key raw : string) :
  joinComma (Name (ParsePropTag key raw) :: RawOpts (ParsePropTag key raw)) = raw
  /\ TagKey (ParsePropTag key raw) = key
  /\ Forall (fun p => commaFree p = true)
       (Name (ParsePropTag key raw) :: RawOpts (ParsePropTag key raw)).
Proof.
  assert (Hparts : Name (ParsePropTag key raw) :: RawOpts (ParsePropTag key raw)
                   = splitComma raw).
  { unfold ParsePropTag. rewrite parts_tail.
    pose proof (splitComma_nonempty raw) as Hne.
    destruct (splitComma raw) as [|p rest]; [contradiction|].
    simpl. destruct (String.eqb p "-"); reflexivity. }
  rewrite Hparts. split; [apply joinComma_splitComma|].
  split; [|apply splitComma_commaFree].
  unfold ParsePropTag. destruct (String.eqb _ "-"); reflexivity.
Qed.

(** ** Label extraction *)

Lemma scanNamed_spec (fs : list (fieldOf gtype)) (names : list string) :
  forall tags,
    scanNamed fs names tags
    = tags ++ map labelOf (List.filter hasLabel (namedFields fs names)).
Proof.
  induction names as [|n rest IH]; intros tags; simpl.
  - rewrite app_nil_r. reflexivity.
  - destruct (fieldIndex fs n) as [[i f]|]; [|apply IH].
    rewrite IH, extractTagFromMatch_app. simpl.
    destruct (hasLabel f); simpl; rewrite <- app_assoc; reflexivity.
Qed.

(** X3: called with field names that the declared fields of the record
    decide (each names a declared field, or the record declares no embedded
    field), the extraction looks at the named fields only: it returns the
    labels of those that exist and carry the annotation, in the reverse
    order of the request; a name that no field bears and a field without
    annotation are passed over silently. *)
Theorem extractNeo4JName_named (t : gtype) (n : string) (fs : list (fieldOf gtype))
    (first : string) (others : list string) :
  derefType t = TStruct n fs ->
  forallb (plainLookup fs) (first :: others) = true ->
  extractNeo4JName t (first :: others)
  = Some (rev (map labelOf (List.filter hasLabel (namedFields fs (first :: others))))).
Proof.
  intros Ht _. unfold extractNeo4JName. rewrite Ht.
  rewrite scanNamed_spec, reverseInPlace_rev. reflexivity.
Qed.

Lemma extractNeo4JName_named_witness :
  extractNeo4JName
    (TPtr (TStruct "knows" [mkField "From" true false [(neo4jTag, "FROM")] TString;
                            mkField "Since" true false [("json", "since")] TInt;
                            mkField "To" true false [(neo4jTag, "TO,extra")] TString]))
    ["From"; "Missing"; "Since"; "To"]
  = Some [mkName "TO" true; mkName "FROM" true].
Proof.
  exact (extractNeo4JName_named
           (TPtr (TStruct "knows" [mkField "From" true false [(neo4jTag, "FROM")] TString;
                                   mkField "Since" true false [("json", "since")] TInt;
                                   mkField "To" true false [(neo4jTag, "TO,extra")] TString]))
           "knows" _ "From" ["Missing"; "Since"; "To"] eq_refl eq_refl).
Defined.

Lemma levelOrder_depth (d : nat) :
  forall d' level,
    queueWeight level <= d -> queueWeight level <= d' ->
    levelOrder d level = levelOrder d' level.
Proof.
  induction d as [|d IH]; intros d' level Hd Hd'.
  - destruct level as [|v level]; [rewrite !levelOrder_nil; reflexivity|].
    pose proof (typeWeight_pos v).
    change (queueWeight (v :: level)) with (typeWeight v + queueWeight level) in Hd. lia.
  - destruct level as [|v level]; [rewrite !levelOrder_nil; reflexivity|].
    pose proof (next_level_weight (v :: level)) as Hn. simpl length in Hn.
    destruct d' as [|d'].
    { pose proof (typeWeight_pos v).
      change (queueWeight (v :: level)) with (typeWeight v + queueWeight level) in Hd'. lia. }
    cbn [levelOrder]. f_equal. apply IH; lia.
Qed.

(** X4: only anonymously composed records contribute labels: a field that
    is named, or embedded but not of struct kind, can be added to or
    removed from a record type without changing the extracted labels,
    whatever annotation it carries. *)
Theorem extractNeo4JName_ignores_plain_field (n : string)
    (pre post : list (fieldOf gtype)) (f : fieldOf gtype) :
  fanon f = false \/ kindOf (fval f) <> KStruct ->
  extractNeo4JName (TStruct n (pre ++ f :: post)) []
  = extractNeo4JName (TStruct n (pre ++ post)) [].
Proof.
  intros Hf.
  assert (Hemb : isEmbedded f = false).
  { unfold isEmbedded. destruct Hf as [-> | Hk]; [reflexivity|].
    destruct (fanon f); [|reflexivity]. destruct (kindOf (fval f)); try reflexivity.
    contradiction. }
  assert (Hembeds : embeds (TStruct n (pre ++ f :: post)) = embeds (TStruct n (pre ++ post))).
  { unfold embeds. simpl. rewrite !filter_app_list. simpl. rewrite Hemb. reflexivity. }
  rewrite (extractNeo4JName_struct (TStruct n (pre ++ f :: post)) n (pre ++ f :: post) eq_refl).
  rewrite (extractNeo4JName_struct (TStruct n (pre ++ post)) n (pre ++ post) eq_refl).
  do 2 f_equal. unfold contributors, discovered. do 2 f_equal.
  cbn [derefType].
  set (T1 := TStruct n (pre ++ f :: post)) in *. set (T2 := TStruct n (pre ++ post)) in *.
  assert (H1 : levelOrder (typeWeight T1) [T1]
               = embeds T1 ++ levelOrder (typeWeight T1 - 1) (map fval (embeds T1))).
  { pose proof (typeWeight_pos T1).
    replace (typeWeight T1) with (S (typeWeight T1 - 1)) at 1 by lia.
    cbn [levelOrder flat_map]. rewrite app_nil_r. reflexivity. }
  assert (H2 : levelOrder (typeWeight T2) [T2]
               = embeds T2 ++ levelOrder (typeWeight T2 - 1) (map fval (embeds T2))).
  { pose proof (typeWeight_pos T2).
    replace (typeWeight T2) with (S (typeWeight T2 - 1)) at 1 by lia.
    cbn [levelOrder flat_map]. rewrite app_nil_r. reflexivity. }
  rewrite H1, H2, Hembeds. f_equal.
  pose proof (embeds_weight T1) as W1. pose proof (embeds_weight T2) as W2.
  rewrite Hembeds in W1.
  apply levelOrder_depth; lia.
Qed.

Lemma extractNeo4JName_ignores_plain_field_witness :
  extractNeo4JName
    (TStruct "personWithAnonymousStructLabels"
       [mkField "swedishPerson" false true [] swedishPersonT;
        mkField "S" true false [(neo4jTag, "Concrete")] swedishPersonT]) []
  = Some [mkName "Person" true; mkName "Swedish" true].
Proof.
  refine (eq_trans (extractNeo4JName_ignores_plain_field "personWithAnonymousStructLabels"
                      [mkField "swedishPerson" false true [] swedishPersonT] []
                      (mkField "S" true false [(neo4jTag, "Concrete")] swedishPersonT)
                      (or_introl eq_refl)) _).
  reflexivity.
Defined.

Lemma unwrapNode_nil_chain (I : ifaces) (v : value) :
  derefValue v = None ->
  noNodeAlong I v = true ->
  unwrapNode I v = Panic "reflect: call of reflect.Value.Interface on zero Value".
Proof.
  induction v; simpl; try discriminate; [reflexivity|].
  intros Hnil Hno. apply andb_true_iff in Hno as [Hn Hrest].
  apply negb_true_iff in Hn. rewrite Hn. exact (IHv Hnil Hrest).
Qed.

(** X5: a chain of pointers that ends in a nil pointer and meets no node
    type on its way makes the label extraction panic inside [reflect]
    (the loop calls [Interface] on the invalid value), whereas the
    relationship-type extraction stops at the invalid value and returns the
    empty string. *)
Theorem nil_pointer_chain (I : ifaces) (v : value) :
  derefValue v = None ->
  isINode I (typeOf v) = false ->
  noNodeAlong I v = true ->
  isIRelationship I (typeOf v) = false ->
  ExtractNodeLabels I (Some v)
  = Panic "reflect: call of reflect.Value.Interface on zero Value"
  /\ ExtractConcreteNodeLabels I (Some v)
     = Panic "reflect: call of reflect.Value.Interface on zero Value"
  /\ ExtractRelationshipType I (Some v) = Ret "".
Proof.
  intros Hnil Hnode Hno Hrel.
  unfold ExtractNodeLabels, ExtractConcreteNodeLabels, extractNodeLabels,
    ExtractRelationshipType.
  rewrite Hnode, Hrel, Hnil, (unwrapNode_nil_chain I v Hnil Hno). repeat split.
Qed.

Lemma nil_pointer_chain_witness :
  ExtractNodeLabels nodesOnly (Some (VPtr (VNil TString)))
  = Panic "reflect: call of reflect.Value.Interface on zero Value"
  /\ ExtractRelationshipType nodesOnly (Some (VPtr (VNil TString))) = Ret "".
Proof.
  destruct (nil_pointer_chain nodesOnly (VPtr (VNil TString))
              eq_refl eq_refl eq_refl eq_refl) as (H1 & _ & H3).
  split; assumption.
Defined.

Lemma extractNodeLabelsZero_zeroInterface (I : ifaces) (t : gtype) :
  extractNodeLabelsZero I t = extractNodeLabels I (zeroInterface t).
Proof.
  destruct t; try reflexivity;
    unfold zeroInterface, extractNodeLabels; rewrite typeOf_zeroOf;
    cbn [extractNodeLabelsZero]; destruct (isINode I _); reflexivity.
Qed.

Lemma ExtractRelationshipTypeZero_zeroInterface (I : ifaces) (t : gtype) :
  ExtractRelationshipTypeZero I t = ExtractRelationshipType I (zeroInterface t).
Proof.
  destruct t; try reflexivity;
    unfold zeroInterface, ExtractRelationshipType; rewrite typeOf_zeroOf;
    cbn [ExtractRelationshipTypeZero]; destruct (isIRelationship I _); reflexivity.
Qed.

(** X6: the labels and the relationship type of a slice are those of the
    zero value of its element type, whatever the slice holds and whether it
    is nil or not; a slice of interfaces gives nil labels and the empty
    type. *)
Theorem slice_extraction (I : ifaces) (elem : gtype) (isnil : bool) (items : list value) :
  isINode I (TSlice elem) = false ->
  isIRelationship I (TSlice elem) = false ->
  ExtractNodeLabels I (Some (VSlice elem isnil items))
  = ExtractNodeLabels I (zeroInterface elem)
  /\ ExtractRelationshipType I (Some (VSlice elem isnil items))
     = ExtractRelationshipType I (zeroInterface elem).
Proof.
  intros Hnode Hrel. split.
  - unfold ExtractNodeLabels. f_equal.
    rewrite <- extractNodeLabelsZero_zeroInterface.
    unfold extractNodeLabels. simpl. rewrite Hnode. reflexivity.
  - rewrite <- ExtractRelationshipTypeZero_zeroInterface.
    unfold ExtractRelationshipType. simpl. rewrite Hrel. reflexivity.
Qed.

Lemma slice_extraction_witness :
  ExtractNodeLabels nodesOnly (Some (VSlice (TPtr personT) false [VNil personT]))
  = Ret (Some ["Person"])
  /\ ExtractRelationshipType relationshipsOnly (Some (VSlice TIface false [])) = Ret "".
Proof.
  split.
  - exact (proj1 (slice_extraction nodesOnly (TPtr personT) false [VNil personT]
                    eq_refl eq_refl)).
  - exact (proj2 (slice_extraction relationshipsOnly TIface false [] eq_refl eq_refl)).
Defined.

(** ** The serializer *)

Section SerializerCover.

Variable toLowerCamel : string -> string.

(** A walk that succeeds met no misplaced flatten directive. *)
Lemma collectField_Ok_valid (ft : fieldOf value) (prefix : string)
    (props out : gmap string value) :
  (forall prefix props out,
      collectProps toLowerCamel (fval ft) prefix props = Ok out ->
      flattenValid (fval ft) = true) ->
  collectField toLowerCamel (collectProps toLowerCamel) ft prefix props = Ok out ->
  fieldFlattenValid flattenValid ft = true.
Proof.
  intros IH. unfold collectField, fieldFlattenValid.
  destruct (fexported ft); simpl; [|reflexivity].
  destruct (PropTagForField ft) as [tag|].
  - destruct (Ignore tag); [reflexivity|].
    destruct (Flatten tag); [|reflexivity].
    destruct (ValidateFlattenType (typeOf (fval ft))); simpl; [|discriminate].
    destruct (isNilPtr (fval ft)); [reflexivity|].
    destruct (isZero (fval ft)); [reflexivity|].
    apply IH.
  - destruct (fanon ft); [apply IH|reflexivity].
Qed.

Lemma collectProps_Ok_valid (v : value) :
  forall prefix props out,
    collectProps toLowerCamel v prefix props = Ok out -> flattenValid v = true.
Proof.
  induction v as [s|z|b| |e|p IH|e isnil items|e items|n fs IH] using value_fields_ind;
    intros prefix props out; try reflexivity.
  - simpl. apply IH.
  - rewrite collectProps_struct, flattenValid_struct. revert props.
    induction IH as [|ft rest Hft Hrest IHrest]; intros props; simpl; [reflexivity|].
    destruct (collectField toLowerCamel (collectProps toLowerCamel) ft prefix props)
      as [mid|e] eqn:E; [|discriminate].
    intros Hout. rewrite (collectField_Ok_valid ft prefix props mid Hft E). simpl.
    exact (IHrest mid Hout).
Qed.

Lemma collectField_succeeds (ft : fieldOf value) (prefix : string)
    (props : gmap string value) :
  collectSucceeds toLowerCamel (fval ft) ->
  fieldFlattenValid flattenValid ft = true ->
  NoDup (fieldKeys toLowerCamel (producedKeys toLowerCamel) ft prefix) ->
  (forall k, k ∈ fieldKeys toLowerCamel (producedKeys toLowerCamel) ft prefix ->
             props !! k = None) ->
  exists out, collectField toLowerCamel (collectProps toLowerCamel) ft prefix props = Ok out.
Proof.
  intros IH. unfold collectSucceeds in IH. unfold collectField, fieldFlattenValid, fieldKeys.
  destruct (fexported ft); simpl; [|eauto].
  destruct (PropTagForField ft) as [tag|].
  - destruct (Ignore tag); [eauto|].
    destruct (Flatten tag).
    + destruct (ValidateFlattenType (typeOf (fval ft))); simpl; [|discriminate].
      destruct (isNilPtr (fval ft)); [eauto|].
      destruct (isZero (fval ft)); [eauto|].
      apply IH.
    + destruct (isZero (fval ft)); [eauto|].
      intros _ _ Hnew. rewrite (Hnew _ (list_elem_of_here _ _)). eauto.
  - destruct (fanon ft); [apply IH|eauto].
Qed.

Lemma collectProps_succeeds (v : value) : collectSucceeds toLowerCamel v.
Proof.
  induction v as [s|z|b| |e|p IH|e isnil items|e items|n fs IH] using value_fields_ind;
    unfold collectSucceeds in *; intros prefix props; try (simpl; eauto; fail).
  rewrite flattenValid_struct, producedKeys_struct.
  rewrite (collectProps_struct toLowerCamel n fs prefix props). revert props.
  induction IH as [|ft rest Hft Hrest IHrest]; intros props; simpl; [eauto|].
    intros Hvalid Hnd Hnew. apply andb_true_iff in Hvalid as [Hv1 Hv2].
    apply NoDup_app in Hnd as (Hnd1 & Hdisj & Hnd2).
    destruct (collectField_succeeds ft prefix props Hft Hv1 Hnd1) as [mid Hmid].
    { intros k Hk. apply Hnew. apply elem_of_app. left. exact Hk. }
    rewrite Hmid.
    pose proof (collectProps_grows toLowerCamel (fval ft)) as Hg.
    destruct (collectField_grows toLowerCamel ft prefix props mid Hg Hmid)
      as (_ & _ & Hdom & _).
    apply IHrest; [exact Hv2|exact Hnd2|].
    intros k Hk. destruct (mid !! k) as [x|] eqn:Ex; [|reflexivity].
    assert (Hs : is_Some (mid !! k)) by eauto.
    apply Hdom in Hs as [[y Hy]|Hin].
    + rewrite Hnew in Hy; [discriminate|]. apply elem_of_app. right. exact Hk.
    + exfalso. exact (Hdisj k Hin Hk).
Qed.

End SerializerCover.

(** X7: the serializer succeeds exactly when every flatten directive it
    meets sits on a record or a pointer to one, the keys its fields map to
    are distinct, and none of them is in the map already; these are its
    only causes of failure. *)
Theorem collectProps_succeeds_iff (toLowerCamel : string -> string) (v : value)
    (prefix : string) (props : gmap string value) :
  (exists out, collectProps toLowerCamel v prefix props = Ok out)
  <-> flattenValid v = true
      /\ NoDup (producedKeys toLowerCamel v prefix)
      /\ (forall k, k ∈ producedKeys toLowerCamel v prefix -> props !! k = None).
Proof.
  split.
  - intros [out Hout].
    destruct (collectProps_grows toLowerCamel v prefix props out Hout) as (Hnd & Hnew & _).
    split; [exact (collectProps_Ok_valid toLowerCamel v prefix props out Hout)|].
    split; assumption.
  - intros (Hvalid & Hnd & Hnew).
    exact (collectProps_succeeds toLowerCamel v prefix props Hvalid Hnd Hnew).
Qed.

(** X8: a successful walk only adds to the map: every entry it was given
    is kept with its value, and the keys of the result are the keys given
    together with the keys the fields map to. *)
Theorem collectProps_extends (toLowerCamel : string -> string) (v : value)
    (prefix : string) (props out : gmap string value) :
  collectProps toLowerCamel v prefix props = Ok out ->
  props ⊆ out
  /\ (forall k x, props !! k = Some x -> out !! k = Some x)
  /\ (forall k, is_Some (out !! k)
                <-> is_Some (props !! k) \/ k ∈ producedKeys toLowerCamel v prefix).
Proof.
  intros Hout.
  destruct (collectProps_grows toLowerCamel v prefix props out Hout)
    as (_ & _ & Hdom & _ & Hsub).
  split; [exact Hsub|]. split; [|exact Hdom].
  intros k x Hk. exact (lookup_weaken _ _ _ _ Hk Hsub).
Qed.

Lemma collectProps_extends_witness :
  collectProps (fun s => s) testJSONStruct "p" {[ "kept" := VInt 1 ]}
  = Ok (<["p_name" := VString "Alpha"]> {[ "kept" := VInt 1 ]})
  /\ ({[ "kept" := VInt 1 ]} : gmap string value)
     ⊆ <["p_name" := VString "Alpha"]> {[ "kept" := VInt 1 ]}.
Proof.
  split; [reflexivity|].
  exact (proj1 (collectProps_extends (fun s => s) testJSONStruct "p"
                  {[ "kept" := VInt 1 ]} _ eq_refl)).
Defined.

(** X9: when a record serializes, each of its plain named fields that is
    exported and not zero is found in the result under its joined name,
    holding the value of the field. *)
Theorem collectProps_holds_field (toLowerCamel : string -> string) (n : string)
    (pre post : list (fieldOf value)) (ft : fieldOf value) (tag : PropTag)
    (prefix : string) (props out : gmap string value) :
  fexported ft = true ->
  PropTagForField ft = Some tag ->
  Ignore tag = false ->
  Flatten tag = false ->
  isZero (fval ft) = false ->
  collectProps toLowerCamel (VStruct n (pre ++ ft :: post)) prefix props = Ok out ->
  out !! JoinPrefix prefix (if String.eqb (Name tag) "" then toLowerCamel (fname ft)
                            else Name tag)
  = Some (fval ft).
Proof.
  intros Hexp Htag Hign Hflat Hnz.
  rewrite collectProps_struct, collectFields_app.
  destruct (collectFields toLowerCamel pre prefix props) as [m1|e]; [|discriminate].
  simpl. unfold collectField at 1. rewrite Hexp, Htag, Hign, Hflat, Hnz. simpl.
  destruct (m1 !! _) eqn:Hk; [discriminate|].
  intros Hpost.
  assert (Hpost' : collectProps toLowerCamel (VStruct n post) prefix
                     (<[JoinPrefix prefix (if String.eqb (Name tag) ""
                                           then toLowerCamel (fname ft) else Name tag)
                        := fval ft]> m1) = Ok out).
  { rewrite collectProps_struct. exact Hpost. }
  destruct (collectProps_grows toLowerCamel _ _ _ _ Hpost') as (_ & _ & _ & _ & Hsub).
  eapply lookup_weaken; [|exact Hsub]. apply lookup_insert_eq.
Qed.

Lemma collectProps_holds_field_witness :
  PropsFromStruct (fun s => s) testJSONStruct = inr {[ "name" := VString "Alpha" ]}
  /\ ({[ "name" := VString "Alpha" ]} : gmap string value) !! "name" = Some (VString "Alpha").
Proof.
  split; [reflexivity|].
  exact (collectProps_holds_field (fun s => s) "testJSONStruct" []
           [jsonField "Count" "count" (VInt 0)] (jsonField "Name" "name" (VString "Alpha"))
           (ParsePropTag "json" "name") "" ∅ {[ "name" := VString "Alpha" ]}
           eq_refl eq_refl eq_refl eq_refl eq_refl eq_refl).
Defined.

Lemma append_cons_string (x : ascii) (a b : string) :
  String.append (String x a) b = String x (String.append a b).
Proof. reflexivity. Qed.

Lemma append_assoc_string (a b c : string) :
  String.append (String.append a b) c = String.append a (String.append b c).
Proof.
  induction a as [|x a IH]; [reflexivity|].
  rewrite !append_cons_string. f_equal. exact IH.
Qed.

Lemma prefix_empty (s : string) : String.prefix "" s = true.
Proof. destruct s; reflexivity. Qed.

Lemma prefix_append (a b : string) : String.prefix a (String.append a b) = true.
Proof.
  induction a as [|x a IH]; [apply prefix_empty|].
  rewrite append_cons_string. simpl.
  destruct (ascii_dec x x); [exact IH|contradiction].
Qed.

Lemma prefix_append_l (a b c : string) :
  String.prefix (String.append a b) c = true -> String.prefix a c = true.
Proof.
  revert c. induction a as [|x a IH]; intros c; [intros _; apply prefix_empty|].
  rewrite append_cons_string.
  destruct c as [|y c]; simpl; [discriminate|].
  destruct (ascii_dec x y); [apply IH|discriminate].
Qed.

Lemma JoinPrefix_nonempty (prefix name : string) :
  prefix <> "" -> JoinPrefix prefix name = String.append prefix (String.append "_" name).
Proof.
  intros Hne. unfold JoinPrefix.
  destruct (String.eqb_spec prefix ""); [contradiction|reflexivity].
Qed.

Lemma producedKeys_prefixed (toLowerCamel : string -> string) (v : value) :
  forall prefix k,
    prefix <> "" ->
    k ∈ producedKeys toLowerCamel v prefix ->
    String.prefix (String.append prefix "_") k = true.
Proof.
  induction v as [s|z|b| |e|p IH|e isnil items|e items|n fs IH] using value_fields_ind;
    intros prefix k Hne; try (simpl; intros Hk; inversion Hk; fail).
  - simpl. apply IH. exact Hne.
  - rewrite producedKeys_struct.
    induction IH as [|ft rest Hft Hrest IHrest]; simpl; [intros Hk; inversion Hk|].
    intros Hk. apply elem_of_app in Hk as [Hk|Hk]; [|exact (IHrest Hk)].
    clear IHrest. unfold fieldKeys in Hk.
    assert (Hnested : forall name,
               k ∈ producedKeys toLowerCamel (fval ft) (JoinPrefix prefix name) ->
               String.prefix (String.append prefix "_") k = true).
    { intros name Hin. rewrite (JoinPrefix_nonempty prefix name Hne) in Hin.
      apply Hft in Hin; [|destruct prefix; [contradiction|discriminate]].
      assert (Heq : String.append (String.append prefix (String.append "_" name)) "_"
                    = String.append (String.append prefix "_") (String.append name "_")).
      { rewrite !append_assoc_string. reflexivity. }
      rewrite Heq in Hin. exact (prefix_append_l _ _ _ Hin). }
    destruct (fexported ft); simpl in Hk; [|inversion Hk].
    destruct (PropTagForField ft) as [tag|].
    + destruct (Ignore tag); [inversion Hk|].
      destruct (Flatten tag).
      * destruct (ValidateFlattenType (typeOf (fval ft))); simpl in Hk; [|inversion Hk].
        destruct (isNilPtr (fval ft)); [inversion Hk|].
        destruct (isZero (fval ft)); [inversion Hk|].
        exact (Hnested _ Hk).
      * destruct (isZero (fval ft)); [inversion Hk|].
        apply list_elem_of_singleton in Hk. subst k.
        rewrite (JoinPrefix_nonempty prefix _ Hne).
        match goal with
        | |- String.prefix _ (String.append prefix (String.append "_" ?name)) = true =>
            replace (String.append prefix (String.append "_" name))
              with (String.append (String.append prefix "_") name)
              by (rewrite append_assoc_string; reflexivity)
        end.
        apply prefix_append.
    + destruct (fanon ft); [exact (Hft prefix k Hne Hk)|inversion Hk].
Qed.

(** X10: under a prefix that is not empty every key the serializer adds
    starts with that prefix and an underscore: the entries of a flattened
    record stay in its own name space, at any depth. *)
Theorem collectProps_name_space (toLowerCamel : string -> string) (v : value)
    (prefix : string) (props out : gmap string value) (k : string) :
  prefix <> "" ->
  collectProps toLowerCamel v prefix props = Ok out ->
  is_Some (out !! k) ->
  is_Some (props !! k) \/ String.prefix (String.append prefix "_") k = true.
Proof.
  intros Hne Hout Hk.
  destruct (collectProps_grows toLowerCamel v prefix props out Hout) as (_ & _ & Hdom & _).
  apply Hdom in Hk as [Hk|Hk]; [left; exact Hk|right].
  exact (producedKeys_prefixed toLowerCamel v prefix k Hne Hk).
Qed.

Lemma collectProps_name_space_witness :
  PropsFromStruct (fun s => s) flattenedTitle
  = inr (<["title" := VString "Hello"]>
           (<["title_enUS" := VString "Hello-US"]> ∅))
  /\ String.prefix "title_" "title_enUS" = true.
Proof.
  split; [reflexivity|].
  destruct (collectProps_name_space (fun s => s)
              (VPtr (VStruct "testLocale" [dbField "EnUS" "enUS" (VString "Hello-US");
                                           dbField "EnAU" "enAU" (VString "")]))
              "title" ∅ {[ "title_enUS" := VString "Hello-US" ]} "title_enUS"
              ltac:(discriminate) eq_refl ltac:(eexists; reflexivity)) as [[x Hx]|H].
  - rewrite lookup_empty in Hx. discriminate.
  - exact H.
Defined.

(** X11: a field that is unexported, carries the ignore directive, or has
    no directive and is not embedded never takes part in serialization:
    the record serializes, or fails, as if the field were not declared,
    whatever the field holds. *)
Theorem collectProps_skips_field (toLowerCamel : string -> string) (n : string)
    (pre post : list (fieldOf value)) (ft : fieldOf value)
    (prefix : string) (props : gmap string value) :
  fexported ft = false
  \/ (exists tag, PropTagForField ft = Some tag /\ Ignore tag = true)
  \/ (PropTagForField ft = None /\ fanon ft = false) ->
  collectProps toLowerCamel (VStruct n (pre ++ ft :: post)) prefix props
  = collectProps toLowerCamel (VStruct n (pre ++ post)) prefix props.
Proof.
  intros Hskip.
  assert (Hfield : forall m,
             collectField toLowerCamel (collectProps toLowerCamel) ft prefix m = Ok m).
  { intros m. unfold collectField.
    destruct Hskip as [-> | [(tag & -> & ->) | [-> ->]]]; simpl; try reflexivity.
    destruct (fexported ft); reflexivity.
    destruct (fexported ft); reflexivity. }
  rewrite !collectProps_struct, !collectFields_app.
  destruct (collectFields toLowerCamel pre prefix props) as [mid|e]; [|reflexivity].
  simpl. rewrite Hfield. reflexivity.
Qed.

Lemma collectProps_skips_field_witness :
  PropsFromStruct (fun s => s)
    (VStruct "testDBStruct" [dbField "Title" "title" (VString "Hello");
                             jsonField "Ignored" "-" (VString "skip")])
  = inr {[ "title" := VString "Hello" ]}
  /\ collectProps (fun s => s)
       (VStruct "testDBStruct" [dbField "Title" "title" (VString "Hello");
                                jsonField "Ignored" "-" (VString "skip")]) "" ∅
     = collectProps (fun s => s)
         (VStruct "testDBStruct" [dbField "Title" "title" (VString "Hello")]) "" ∅.
Proof.
  split; [reflexivity|].
  refine (collectProps_skips_field (fun s => s) "testDBStruct"
            [dbField "Title" "title" (VString "Hello")] []
            (jsonField "Ignored" "-" (VString "skip")) "" ∅ _).
  right. left. exists (ParsePropTag "json" "-"). split; reflexivity.
Defined.

Lemma collectProps_deref (toLowerCamel : string -> string) (v : value)
    (prefix : string) (props : gmap string value) :
  collectProps toLowerCamel v prefix props
  = match derefAll v with
    | Some (VStruct _ fs) => collectFields toLowerCamel fs prefix props
    | _ => Ok props
    end.
Proof.
  induction v; try reflexivity.
  - simpl. exact IHv.
  - simpl derefAll. apply collectProps_struct.
Qed.

(** X12: behind any number of pointers, a nil pointer serializes to the
    empty map without error and anything that is not a record is refused
    by [PropsFromStruct]; the inner walk [collectProps], on the other hand,
    leaves the map as it is in both cases and reports nothing. *)
Theorem PropsFromStruct_edges (toLowerCamel : string -> string) (v : value)
    (prefix : string) (props : gmap string value) :
  (forall n fs, derefAll v <> Some (VStruct n fs)) ->
  collectProps toLowerCamel v prefix props = Ok props
  /\ PropsFromStruct toLowerCamel v
     = match derefAll v with
       | None => inr ∅
       | Some _ => inl ErrNotStruct
       end.
Proof.
  intros Hns. split.
  - rewrite collectProps_deref. destruct (derefAll v) as [w|]; [|reflexivity].
    destruct w; try reflexivity. exfalso. exact (Hns _ _ eq_refl).
  - induction v; try reflexivity.
    + simpl. apply IHv. exact Hns.
    + exfalso. exact (Hns _ _ eq_refl).
Qed.

Lemma PropsFromStruct_edges_witness :
  PropsFromStruct (fun s => s) (VPtr (VPtr (VNil TString))) = inr ∅
  /\ PropsFromStruct (fun s => s) (VPtr (VString "x")) = inl ErrNotStruct
  /\ collectProps (fun s => s) (VPtr (VString "x")) "p" {[ "k" := VInt 1 ]}
     = Ok {[ "k" := VInt 1 ]}.
Proof.
  split; [|split].
  - exact (proj2 (PropsFromStruct_edges (fun s => s) (VPtr (VPtr (VNil TString))) "" ∅
                    ltac:(discriminate))).
  - exact (proj2 (PropsFromStruct_edges (fun s => s) (VPtr (VString "x")) "" ∅
                    ltac:(discriminate))).
  - exact (proj1 (PropsFromStruct_edges (fun s => s) (VPtr (VString "x")) "p"
                    {[ "k" := VInt 1 ]} ltac:(discriminate))).
Defined.

(** ** The naming convention of the locale hooks *)

Lemma substring_all (s : string) : substring 0 (String.length s) s = s.
Proof. induction s as [|x s IH]; simpl; [reflexivity|]. rewrite IH. reflexivity. Qed.

Lemma length_append_string (a b : string) :
  String.length (String.append a b) = String.length a + String.length b.
Proof.
  induction a as [|x a IH]; [reflexivity|].
  rewrite append_cons_string. simpl. rewrite IH. reflexivity.
Qed.

Lemma substring_append_tail (a b : string) :
  substring (String.length a) (String.length b) (String.append a b) = b.
Proof.
  induction a as [|x a IH]; [apply substring_all|].
  rewrite append_cons_string. simpl. exact IH.
Qed.

Lemma substring_append_head (a b : string) :
  substring 0 (String.length a) (String.append a b) = a.
Proof.
  induction a as [|x a IH]; [destruct b; reflexivity|].
  rewrite append_cons_string. simpl. rewrite IH. reflexivity.
Qed.

Lemma substring_split (s : string) :
  forall n, n <= String.length s ->
    String.append (substring 0 n s) (substring n (String.length s - n) s) = s.
Proof.
  induction s as [|x s IH]; intros n Hn.
  - destruct n; reflexivity.
  - destruct n as [|n].
    + simpl. rewrite substring_all. reflexivity.
    + simpl in Hn. simpl. rewrite append_cons_string. f_equal. apply IH. lia.
Qed.

Lemma HasSuffix_append (a suffix : string) : HasSuffix (String.append a suffix) suffix = true.
Proof.
  unfold HasSuffix. rewrite length_append_string.
  replace (String.length a + String.length suffix - String.length suffix)
    with (String.length a) by lia.
  rewrite substring_append_tail, String.eqb_refl.
  destruct (Nat.leb_spec (String.length suffix) (String.length a + String.length suffix));
    [reflexivity|lia].
Qed.

Lemma TrimSuffix_append (a suffix : string) : TrimSuffix (String.append a suffix) suffix = a.
Proof.
  unfold TrimSuffix. rewrite HasSuffix_append, length_append_string.
  replace (String.length a + String.length suffix - String.length suffix)
    with (String.length a) by lia.
  apply substring_append_head.
Qed.

Lemma HasSuffix_split (s suffix : string) :
  HasSuffix s suffix = true -> s = String.append (TrimSuffix s suffix) suffix.
Proof.
  intros H. unfold TrimSuffix. rewrite H. unfold HasSuffix in H.
  apply andb_true_iff in H as [Hlen Heq].
  apply Nat.leb_le in Hlen. apply String.eqb_eq in Heq.
  pose proof (substring_split s (String.length s - String.length suffix) ltac:(lia)) as Hs.
  replace (String.length s - (String.length s - String.length suffix))
    with (String.length suffix) in Hs by lia.
  rewrite Heq in Hs. symmetry. exact Hs.
Qed.

Lemma append_last_char (a b : string) (x y : ascii) :
  String.append a (String x "") = String.append b (String y "") -> x = y.
Proof.
  revert b. induction a as [|c a IH]; intros b.
  - destruct b as [|d b]; [intros [= ->]; reflexivity|].
    rewrite append_cons_string. destruct b; discriminate.
  - rewrite append_cons_string. destruct b as [|d b].
    + destruct a; discriminate.
    + rewrite append_cons_string. intros [= _ H]. exact (IH b H).
Qed.

Lemma Locale_not_Locales (base : string) :
  HasSuffix (String.append base "Locale") "Locales" = false.
Proof.
  destruct (HasSuffix (String.append base "Locale") "Locales") eqn:E; [|reflexivity].
  apply HasSuffix_split in E.
  set (t := TrimSuffix (String.append base "Locale") "Locales") in E.
  assert (H1 : String.append base "Locale"
               = String.append (String.append base "Local") (String "e" "")).
  { rewrite append_assoc_string. reflexivity. }
  assert (H2 : String.append t "Locales"
               = String.append (String.append t "Locale") (String "s" "")).
  { rewrite append_assoc_string. reflexivity. }
  rewrite H1, H2 in E. apply append_last_char in E. discriminate.
Qed.

(** X13: a field is a companion exactly when its name is a base name
    followed by [Locale] or [Locales], and the base name is what precedes
    the suffix; the longer suffix is tried first, so that [TitleLocales]
    pairs with [Title]. *)
Theorem localeBaseName_iff (fieldName base : string) :
  localeBaseName fieldName = Some base
  <-> fieldName = String.append base "Locale" \/ fieldName = String.append base "Locales".
Proof.
  unfold localeBaseName. split.
  - destruct (HasSuffix fieldName "Locales") eqn:E1.
    + intros [= <-]. right. exact (HasSuffix_split _ _ E1).
    + destruct (HasSuffix fieldName "Locale") eqn:E2; [|discriminate].
      intros [= <-]. left. exact (HasSuffix_split _ _ E2).
  - intros [-> | ->].
    + rewrite Locale_not_Locales, HasSuffix_append, TrimSuffix_append. reflexivity.
    + rewrite HasSuffix_append, TrimSuffix_append. reflexivity.
Qed.

(** ** The loop of the locale hooks *)

Lemma localesLoop_marshal (C : conv) (keys : list string) (addressable : bool) (v : value) :
  localesMarshalHook C keys addressable v
  = localesLoop (fun _ => marshalPair C keys) addressable v.
Proof. reflexivity. Qed.

Lemma localesLoop_unmarshal (C : conv) (keys : list string)
    (from : option (gmap string (option value))) (addressable : bool) (v : value) :
  localesUnmarshalHook C keys from addressable v
  = localesLoop (unmarshalPair C keys from) addressable v.
Proof. reflexivity. Qed.

Lemma pairStep_not_addressable (sync : string -> value -> value -> outcome (value * value))
    (fs : list (fieldOf value)) (i : nat) :
  pairStep sync false fs i = Ret fs.
Proof.
  unfold pairStep. destruct (fs !! i) as [lf|]; [|reflexivity].
  destruct (fexported lf); simpl; [|reflexivity].
  destruct (localeBaseName (fname lf)) as [baseName|]; [|reflexivity].
  destruct (fieldIndex fs baseName) as [[bi bf]|]; [|reflexivity].
  destruct (fexported bf); reflexivity.
Qed.

Lemma fieldLoop_fixed (step : list (fieldOf value) -> nat -> outcome (list (fieldOf value)))
    (fs : list (fieldOf value)) :
  (forall i, step fs i = Ret fs) ->
  forall n i, fieldLoop step n i fs = Ret fs.
Proof.
  intros Hstep n. induction n as [|n IH]; intros i; simpl; [reflexivity|].
  rewrite Hstep. apply IH.
Qed.

(** X14: a record without embedded fields handed to a hook by value,
    which [reflect] cannot address, is returned as it is by the marshal hook
    and by the unmarshal hook: no field of it can be set, whatever the
    record and the raw map hold, and nothing panics. *)
Theorem hooks_leave_unaddressable_record (C : conv) (keys : list string)
    (from : option (gmap string (option value))) (n : string) (fs : list (fieldOf value)) :
  noEmbedded fs = true ->
  localesMarshalHook C keys false (VStruct n fs) = Ret (VStruct n fs)
  /\ localesUnmarshalHook C keys from false (VStruct n fs) = Ret (VStruct n fs).
Proof.
  intros _. split.
  - unfold localesMarshalHook. simpl.
    rewrite (fieldLoop_fixed _ fs (pairStep_not_addressable _ fs)). reflexivity.
  - unfold localesUnmarshalHook. simpl.
    rewrite (fieldLoop_fixed _ fs (pairStep_not_addressable _ fs)). reflexivity.
Qed.

Lemma hooks_leave_unaddressable_record_witness :
  localesMarshalHook identConv ["EnUS"; "EnAU"] false
    (hookLocalizedPerson "" (hookLocales "US" ""))
  = Ret (hookLocalizedPerson "" (hookLocales "US" ""))
  /\ localesUnmarshalHook identConv ["EnUS"; "EnAU"] (Some flatProps) false
       (hookLocalizedPerson "" (hookLocales "US" ""))
     = Ret (hookLocalizedPerson "" (hookLocales "US" "")).
Proof.
  exact (hooks_leave_unaddressable_record identConv ["EnUS"; "EnAU"] (Some flatProps)
           "hookLocalizedPerson"
           [jsonField "Name" "name" (VString "");
            jsonField "NameLocale" "nameLocale" (hookLocales "US" "")] eq_refl).
Defined.

Lemma pairStep_keeps {B : Type} (h : fieldOf value -> B)
    (sync : string -> value -> value -> outcome (value * value))
    (addressable : bool) (fs fs' : list (fieldOf value)) (i : nat) :
  (forall g y, h (withVal g y) = h g) ->
  pairStep sync addressable fs i = Ret fs' ->
  h <$> fs' = h <$> fs.
Proof.
  intros Hh. unfold pairStep.
  destruct (fs !! i) as [lf|] eqn:Hi; [|intros [= <-]; reflexivity].
  destruct (fexported lf); simpl; [|intros [= <-]; reflexivity].
  destruct (localeBaseName (fname lf)) as [baseName|]; [|intros [= <-]; reflexivity].
  destruct (fieldIndex fs baseName) as [[bi bf]|] eqn:Hb; [|intros [= <-]; reflexivity].
  destruct (fexported bf); simpl; [|intros [= <-]; reflexivity].
  destruct addressable; simpl; [|intros [= <-]; reflexivity].
  destruct (sync baseName (fval bf) (fval lf)) as [[b' l']|m]; [|discriminate].
  intros [= <-].
  apply fieldIndex_Some in Hb as (Hbi & _ & _).
  assert (H1 : h <$> <[i := withVal lf l']> fs = h <$> fs).
  { apply fmap_insert_withVal; [exact Hh|]. rewrite list_lookup_fmap, Hi. reflexivity. }
  rewrite list_fmap_insert, H1, Hh. apply list_insert_id.
  rewrite list_lookup_fmap, Hbi. reflexivity.
Qed.

Lemma fieldLoop_keeps {B : Type} (h : fieldOf value -> B)
    (sync : string -> value -> value -> outcome (value * value)) (addressable : bool) :
  (forall g y, h (withVal g y) = h g) ->
  forall n i fs fs',
    fieldLoop (pairStep sync addressable) n i fs = Ret fs' ->
    h <$> fs' = h <$> fs.
Proof.
  intros Hh n. induction n as [|n IH]; intros i fs fs'; simpl.
  - intros [= <-]. reflexivity.
  - destruct (pairStep sync addressable fs i) as [fs1|m] eqn:E; [|discriminate].
    intros Hrest. rewrite (IH _ _ _ Hrest). exact (pairStep_keeps h _ _ _ _ _ Hh E).
Qed.

Lemma pairStep_frame (sync : string -> value -> value -> outcome (value * value))
    (addressable : bool) (fs fs' : list (fieldOf value)) (i j : nat) (g : fieldOf value) :
  pairStep sync addressable fs i = Ret fs' ->
  fs !! j = Some g ->
  localeBaseName (fname g) = None ->
  (forall nm, nm ∈ (fname <$> fs) -> localeBaseName nm <> Some (fname g)) ->
  fs' !! j = Some g.
Proof.
  intros Hstep Hj Hnot Hbase. unfold pairStep in Hstep.
  destruct (fs !! i) as [lf|] eqn:Hi; [|injection Hstep as <-; exact Hj].
  destruct (fexported lf); simpl in Hstep; [|injection Hstep as <-; exact Hj].
  destruct (localeBaseName (fname lf)) as [baseName|] eqn:Hn;
    [|injection Hstep as <-; exact Hj].
  destruct (fieldIndex fs baseName) as [[bi bf]|] eqn:Hb; [|injection Hstep as <-; exact Hj].
  destruct (fexported bf); simpl in Hstep; [|injection Hstep as <-; exact Hj].
  destruct addressable; simpl in Hstep; [|injection Hstep as <-; exact Hj].
  destruct (sync baseName (fval bf) (fval lf)) as [[b' l']|m]; [|discriminate].
  injection Hstep as <-.
  apply fieldIndex_Some in Hb as (Hbi & Hbn & _).
  assert (Hji : i <> j).
  { intros ->. rewrite Hi in Hj. injection Hj as ->. congruence. }
  assert (Hjb : bi <> j).
  { intros ->. rewrite Hbi in Hj. injection Hj as ->.
    apply (Hbase (fname lf)); [|rewrite Hn, Hbn; reflexivity].
    apply list_elem_of_fmap. exists lf. split; [reflexivity|].
    apply list_elem_of_lookup. eauto. }
  rewrite list_lookup_insert_ne by exact Hjb.
  rewrite list_lookup_insert_ne by exact Hji. exact Hj.
Qed.

Lemma fieldLoop_frame (sync : string -> value -> value -> outcome (value * value))
    (addressable : bool) (j : nat) (g : fieldOf value) :
  localeBaseName (fname g) = None ->
  forall n i fs fs',
    fieldLoop (pairStep sync addressable) n i fs = Ret fs' ->
    fs !! j = Some g ->
    (forall nm, nm ∈ (fname <$> fs) -> localeBaseName nm <> Some (fname g)) ->
    fs' !! j = Some g.
Proof.
  intros Hnot n. induction n as [|n IH]; intros i fs fs'; simpl.
  - intros [= <-] Hj _. exact Hj.
  - destruct (pairStep sync addressable fs i) as [fs1|m] eqn:E; [|discriminate].
    intros Hrest Hj Hbase. apply (IH _ _ _ Hrest).
    + exact (pairStep_frame _ _ _ _ _ _ _ E Hj Hnot Hbase).
    + rewrite (pairStep_keeps fname _ _ _ _ _ (fun g y => eq_refl) E). exact Hbase.
Qed.

Lemma localesLoop_frame (sync : string -> value -> value -> outcome (value * value))
    (j : nat) (g : fieldOf value) :
  localeBaseName (fname g) = None ->
  forall v addressable v' fs,
    localesLoop sync addressable v = Ret v' ->
    recordFields v = Some fs ->
    fs !! j = Some g ->
    (forall nm, nm ∈ (fname <$> fs) -> localeBaseName nm <> Some (fname g)) ->
    exists fs', recordFields v' = Some fs' /\ fs' !! j = Some g.
Proof.
  intros Hnot. unfold localesLoop.
  induction v; intros addressable v' fs; simpl; try discriminate.
  - destruct (onRecord _ true v) as [w|m] eqn:E; simpl; [|discriminate].
    intros [= <-] Hf Hj Hbase. simpl. exact (IHv true w fs E Hf Hj Hbase).
  - destruct (fieldLoop _ _ _ _) as [fs1|m] eqn:E; simpl; [|discriminate].
    intros [= <-] [= <-] Hj Hbase. exists fs1. split; [reflexivity|].
    exact (fieldLoop_frame sync addressable j g Hnot _ _ _ _ E Hj Hbase).
Qed.

(** X16: on a record without embedded fields the hooks touch the fields
    of locale-bearing pairs only: a field of the record whose name has no
    locale suffix and that is the base of no field of the record is returned
    as it was, by either hook. *)
Theorem hooks_touch_pairs_only (C : conv) (keys : list string)
    (from : option (gmap string (option value))) (addressable : bool) (v v' : value)
    (fs : list (fieldOf value)) (j : nat) (g : fieldOf value) :
  localesMarshalHook C keys addressable v = Ret v'
  \/ localesUnmarshalHook C keys from addressable v = Ret v' ->
  recordFields v = Some fs ->
  noEmbedded fs = true ->
  fs !! j = Some g ->
  localeBaseName (fname g) = None ->
  (forall nm, nm ∈ (fname <$> fs) -> localeBaseName nm <> Some (fname g)) ->
  exists fs', recordFields v' = Some fs' /\ fs' !! j = Some g.
Proof.
  intros [H|H] Hf _ Hj Hnot Hbase.
  - rewrite localesLoop_marshal in H.
    exact (localesLoop_frame _ j g Hnot v addressable v' fs H Hf Hj Hbase).
  - rewrite localesLoop_unmarshal in H.
    exact (localesLoop_frame _ j g Hnot v addressable v' fs H Hf Hj Hbase).
Qed.

Lemma hooks_touch_pairs_only_witness :
  exists fs',
    recordFields (VPtr (VStruct "article"
                          [jsonField "ID" "id" (VString "a1");
                           jsonField "Title" "title" (VString "US");
                           jsonField "TitleLocale" "titleLocale" (hookLocales "US" "")]))
    = Some fs'
    /\ fs' !! 0 = Some (jsonField "ID" "id" (VString "a1")).
Proof.
  refine (hooks_touch_pairs_only identConv ["EnUS"; "EnAU"] None false
            (VPtr (VStruct "article"
                     [jsonField "ID" "id" (VString "a1");
                      jsonField "Title" "title" (VString "");
                      jsonField "TitleLocale" "titleLocale" (hookLocales "US" "")]))
            _ _ 0 (jsonField "ID" "id" (VString "a1"))
            (or_intror eq_refl) eq_refl eq_refl eq_refl eq_refl _).
  intros nm Hnm.
  repeat (apply elem_of_cons in Hnm as [-> | Hnm]; [discriminate|]).
  inversion Hnm.
Defined.

(** ** The two directions *)

Ltac break_hyp H :=
  match type of H with
  | context [match ?x with _ => _ end] => destruct x eqn:?
  end.

Lemma tagsIdentical_sound (a : list (string * string)) :
  forall b, tagsIdentical a b = true -> a = b.
Proof.
  induction a as [|[k v] a IH]; intros [|[k' v'] b]; simpl; try discriminate.
  - reflexivity.
  - intros H. apply andb_true_iff in H as [H Hrest]. apply andb_true_iff in H as [Hk Hv].
    apply String.eqb_eq in Hk, Hv. subst. rewrite (IH b Hrest). reflexivity.
Qed.

Lemma identical_sound (a : gtype) : forall b, identical a b = true -> a = b.
Proof.
  induction a as [ | | | |e IH|e IH|n e IH|n fs IH] using gtype_fields_ind;
    intros b; destruct b; simpl; try discriminate; try reflexivity.
  - intros H. rewrite (IH _ H). reflexivity.
  - intros H. rewrite (IH _ H). reflexivity.
  - intros H. apply andb_true_iff in H as [Hn He]. apply Nat.eqb_eq in Hn.
    rewrite (IH _ He), Hn. reflexivity.
  - intros H. apply andb_true_iff in H as [Hn Hfs]. apply String.eqb_eq in Hn. subst.
    f_equal. revert fields Hfs.
    induction IH as [|f rest Hf Hrest IHrest]; intros [|g gs]; try discriminate.
    + reflexivity.
    + intros H.
      repeat (apply andb_true_iff in H as [H ?]).
      match goal with Hr : _ rest gs = true |- _ => rewrite (IHrest gs Hr) end.
      f_equal. destruct f as [fn fe fa ft fv], g as [gn ge ga gt gv]. simpl in *.
      match goal with Hn : (fn =? gn) = true |- _ => apply String.eqb_eq in Hn end.
      match goal with He : Bool.eqb fe ge = true |- _ => apply eqb_prop in He end.
      match goal with Ha : Bool.eqb fa ga = true |- _ => apply eqb_prop in Ha end.
      match goal with Ht : tagsIdentical ft gt = true |- _ =>
        apply tagsIdentical_sound in Ht end.
      match goal with Hv : identical fv gv = true |- _ => apply Hf in Hv end.
      subst. reflexivity.
Qed.

Lemma identConv_storesCellType : storesCellType identConv.
Proof.
  split.
  - intros a b H. exact (identical_sound a b H).
  - intros v t H. discriminate H.
Qed.

Lemma identConv_keepsNonZero : keepsNonZero identConv.
Proof. intros v t H. exact H. Qed.

Lemma assignValue_stored (C : conv) (dst src v : value) (ro : bool) :
  storesCellType C -> keepsNonZero C ->
  isZero src = false ->
  assignValue C dst true src ro = Ret (Some v) ->
  isZero v = false /\ typeOf v = typeOf dst
  /\ (v = src \/ v = convert C src (typeOf dst)).
Proof.
  intros [Hasg Hconv] Hkeep Hnz. unfold assignValue. simpl.
  destruct (assignable C (typeOf src) (typeOf dst)) eqn:Ea.
  - destruct ro; [discriminate|]. intros [= <-].
    split; [exact Hnz|]. split; [exact (Hasg _ _ Ea)|left; reflexivity].
  - destruct (convertible C (typeOf src) (typeOf dst)) eqn:Ec; [|discriminate].
    destruct ro; [discriminate|]. intros [= <-].
    split; [exact (Hkeep _ _ Hnz)|]. split; [exact (Hconv _ _ Ec)|right; reflexivity].
Qed.

Lemma baseFromFields_stored (C : conv) (bv v : value) (lfs : list (fieldOf value)) :
  storesCellType C -> keepsNonZero C ->
  baseFromFields C bv lfs = Ret (Some v) ->
  isZero v = false /\ typeOf v = typeOf bv
  /\ exists f, f ∈ lfs /\ isZero (fval f) = false
               /\ (v = fval f \/ v = convert C (fval f) (typeOf bv)).
Proof.
  intros Hs Hk. induction lfs as [|f rest IH]; simpl; [discriminate|].
  destruct (isZero (fval f)) eqn:Hz.
  - intros H. destruct (IH H) as (H1 & H2 & g & Hg & Hgz & Hv).
    split; [exact H1|]. split; [exact H2|]. exists g. split; [right; exact Hg|]. eauto.
  - destruct (assignValue C bv true (fval f) (negb (fexported f))) as [[w|]|m] eqn:E;
      [|exact (fun H => match IH H with
                        | conj H1 (conj H2 (ex_intro _ g (conj Hg Hrest))) =>
                            conj H1 (conj H2 (ex_intro _ g
                              (conj (list_elem_of_further _ _ _ Hg) Hrest)))
                        end)|discriminate].
    intros [= <-].
    destruct (assignValue_stored C bv (fval f) w _ Hs Hk Hz E) as (H1 & H2 & Hv).
    split; [exact H1|]. split; [exact H2|]. exists f. split; [left|]. eauto.
Qed.

Lemma setBaseFromLocale_stored (C : conv) (bv v : value)
    (lfs : list (fieldOf value)) (keys : list string) :
  storesCellType C -> keepsNonZero C ->
  setBaseFromLocale C bv lfs keys = Ret (Some v) ->
  isZero v = false /\ typeOf v = typeOf bv.
Proof.
  intros Hs Hk. unfold setBaseFromLocale.
  assert (Hrest : baseFromFields C bv lfs = Ret (Some v) ->
                  isZero v = false /\ typeOf v = typeOf bv).
  { intros H. destruct (baseFromFields_stored C bv v lfs Hs Hk H) as (H1 & H2 & _).
    split; assumption. }
  destruct (firstPreferredLocaleValue lfs keys) as [f|] eqn:E; [|exact Hrest].
  apply firstPreferredLocaleValue_Some in E as [Hin Hz].
  destruct (assignValue C bv true (fval f) (negb (fexported f))) as [[w|]|m] eqn:Ea;
    [|exact Hrest|discriminate].
  intros [= <-].
  destruct (assignValue_stored C bv (fval f) w _ Hs Hk Hz Ea) as (H1 & H2 & _).
  split; assumption.
Qed.

(** X17: when the base is filled from a companion without embedded fields
    it receives the value of a companion field that is not zero, as it is or
    converted to the type of the base, and never a zero value. *)
Theorem setBaseFromLocale_stores_companion_value (C : conv) (bv v : value)
    (lfs : list (fieldOf value)) (keys : list string) :
  storesCellType C -> keepsNonZero C ->
  noEmbedded lfs = true ->
  setBaseFromLocale C bv lfs keys = Ret (Some v) ->
  isZero v = false
  /\ typeOf v = typeOf bv
  /\ exists f, f ∈ lfs /\ isZero (fval f) = false
               /\ (v = fval f \/ v = convert C (fval f) (typeOf bv)).
Proof.
  intros Hs Hk _. unfold setBaseFromLocale.
  destruct (firstPreferredLocaleValue lfs keys) as [f|] eqn:E;
    [|apply baseFromFields_stored; assumption].
  apply firstPreferredLocaleValue_Some in E as [Hin Hz].
  destruct (assignValue C bv true (fval f) (negb (fexported f))) as [[w|]|m] eqn:Ea;
    [|apply baseFromFields_stored; assumption|discriminate].
  intros [= <-].
  destruct (assignValue_stored C bv (fval f) w _ Hs Hk Hz Ea) as (H1 & H2 & Hv).
  split; [exact H1|]. split; [exact H2|]. exists f. eauto.
Qed.

Lemma setBaseFromLocale_stores_companion_value_witness :
  setBaseFromLocale identConv (VString "") [jsonField "EnUS" "enUS" (VString "");
                                            jsonField "EnAU" "enAU" (VString "AU")]
    ["EnUS"; "EnAU"] = Ret (Some (VString "AU"))
  /\ isZero (VString "AU") = false.
Proof.
  split; [reflexivity|].
  exact (proj1 (setBaseFromLocale_stores_companion_value identConv (VString "") (VString "AU")
                  [jsonField "EnUS" "enUS" (VString ""); jsonField "EnAU" "enAU" (VString "AU")]
                  ["EnUS"; "EnAU"] identConv_storesCellType identConv_keepsNonZero
                  eq_refl eq_refl)).
Defined.

(** X18: the marshal hook works on a pair in one direction only.  When the
    base is zero (or nil) the companion is left as it is, and when the base
    is not zero the base is left as it is. *)
Theorem marshalPair_direction (C : conv) (keys : list string) (base locale b' l' : value) :
  marshalPair C keys base locale = Ret (b', l') ->
  (isZero (baseCell base) = true -> l' = locale)
  /\ (isZero (baseCell base) = false -> b' = base).
Proof.
  intros H. unfold marshalPair in H.
  destruct base; simpl baseCell; simpl in H;
    repeat (first [discriminate H | break_hyp H]);
    try (injection H as <- <-); split; intros Hz; try reflexivity; try congruence.
  all: try (rewrite isZero_zeroOf in *; discriminate).
  all: try (cbv in Hz; discriminate Hz).
Qed.

Lemma marshalPair_direction_witness :
  marshalPair identConv ["EnUS"; "EnAU"] (VString "Kalle")
    (VPtr (hookLocales "" "")) = Ret (VString "Kalle", VPtr (hookLocales "Kalle" ""))
  /\ isZero (baseCell (VString "Kalle")) = false
  /\ VString "Kalle" = VString "Kalle".
Proof.
  split; [reflexivity|]. split; [reflexivity|].
  exact (proj2 (marshalPair_direction identConv ["EnUS"; "EnAU"] (VString "Kalle")
                  (VPtr (hookLocales "" "")) (VString "Kalle")
                  (VPtr (hookLocales "Kalle" "")) eq_refl) eq_refl).
Defined.

(** ** Running the marshal hook again *)

Lemma assignValue_nonzero (C : conv) (dst src v : value) (ro : bool) :
  keepsNonZero C -> isZero src = false ->
  assignValue C dst true src ro = Ret (Some v) -> isZero v = false.
Proof.
  intros Hk Hz. unfold assignValue. simpl.
  destruct (assignable C _ _); [destruct ro; [discriminate|intros [= <-]; exact Hz]|].
  destruct (convertible C _ _); [|discriminate].
  destruct ro; [discriminate|]. intros [= <-]. exact (Hk _ _ Hz).
Qed.

Lemma forallb_insert_false (l : list (fieldOf value)) (i : nat) (f : fieldOf value) (v : value) :
  l !! i = Some f -> isZero v = false ->
  forallb (fun g => isZero (fval g)) (<[i := withVal f v]> l) = false.
Proof.
  revert i. induction l as [|g l IH]; intros [|i]; simpl; try discriminate.
  - intros _ Hz. rewrite Hz. reflexivity.
  - intros Hl Hz. rewrite (IH i Hl Hz). apply andb_false_r.
Qed.

Lemma localeFromKeys_written (C : conv) (bv : value) (lfs lfs' : list (fieldOf value))
    (keys : list string) :
  keepsNonZero C -> isZero bv = false ->
  localeFromKeys C bv lfs keys = Some lfs' ->
  forallb (fun g => isZero (fval g)) lfs' = false.
Proof.
  intros Hk Hz. induction keys as [|key rest IH]; simpl; [discriminate|].
  destruct (fieldIndex lfs key) as [[i f]|] eqn:Ei; [|exact IH].
  destruct (negb (fexported f) || negb (isZero (fval f))); [exact IH|].
  destruct (assignValue C (fval f) true bv false) as [[w|]|m] eqn:Ea; try exact IH.
  intros [= <-]. apply fieldIndex_Some in Ei.
  apply forallb_insert_false; [tauto|].
  exact (assignValue_nonzero C _ _ _ _ Hk Hz Ea).
Qed.

Lemma localeFromFields_written (C : conv) (bv : value) (lfs : list (fieldOf value)) :
  keepsNonZero C -> isZero bv = false ->
  forall lfs', localeFromFields C bv lfs = Some lfs' ->
  forallb (fun g => isZero (fval g)) lfs' = false.
Proof.
  intros Hk Hz. induction lfs as [|f rest IH]; simpl; [discriminate|].
  assert (Hrec : forall lfs', option_map (cons f) (localeFromFields C bv rest) = Some lfs' ->
                 forallb (fun g => isZero (fval g)) lfs' = false).
  { intros lfs'. destruct (localeFromFields C bv rest) as [r|]; [|discriminate].
    intros [= <-]. simpl. rewrite (IH r eq_refl). apply andb_false_r. }
  destruct (negb (fexported f) || negb (isZero (fval f))); [exact Hrec|].
  destruct (assignValue C (fval f) true bv false) as [[w|]|m] eqn:Ea; try exact Hrec.
  intros lfs' [= <-]. simpl.
  rewrite (assignValue_nonzero C _ _ _ _ Hk Hz Ea). reflexivity.
Qed.

Lemma setLocaleFromBase_cases (C : conv) (bv : value) (n : string)
    (lfs : list (fieldOf value)) (keys : list string) :
  keepsNonZero C -> isZero bv = false ->
  isZero (VStruct n (fst (setLocaleFromBase C bv lfs keys))) = false
  \/ fst (setLocaleFromBase C bv lfs keys) = lfs.
Proof.
  intros Hk Hz. unfold setLocaleFromBase.
  change (isZero (VStruct n ?l)) with (forallb (fun g => isZero (fval g)) l).
  destruct (localeFromKeys C bv lfs keys) as [l1|] eqn:E1.
  - left. exact (localeFromKeys_written C bv lfs l1 keys Hk Hz E1).
  - destruct (localeFromFields C bv lfs) as [l2|] eqn:E2.
    + left. exact (localeFromFields_written C bv lfs Hk Hz l2 E2).
    + right. reflexivity.
Qed.

Lemma isZero_struct (n : string) (fs : list (fieldOf value)) :
  isZero (VStruct n fs) = forallb (fun g => isZero (fval g)) fs.
Proof. reflexivity. Qed.

Ltac use_recorded :=
  repeat match goal with
  | H : isZero ?x = _ |- context [isZero ?x] => rewrite H
  | H : setBaseFromLocale ?C ?b ?l ?k = _ |- context [setBaseFromLocale ?C ?b ?l ?k] =>
      rewrite H
  end.

(** X19: on one pair whose companion declares no embedded field the
    marshal hook is idempotent.  When what is stored in a cell has the type
    of the cell and conversions keep non-zero values non-zero, running it
    again on its own result changes neither field. *)
Theorem marshalPair_idempotent (C : conv) (keys : list string) (base locale b' l' : value) :
  storesCellType C -> keepsNonZero C ->
  plainCompanion locale = true ->
  marshalPair C keys base locale = Ret (b', l') ->
  marshalPair C keys b' l' = Ret (b', l').
Proof.
  intros Hs Hk _ H. pose proof H as H0. unfold marshalPair in H.
  destruct base; simpl in H;
    repeat (first [discriminate H | break_hyp H]); injection H as <- <-;
    try exact H0.
  all: clear H0.
  all: try match goal with
       | H : setBaseFromLocale _ _ _ _ = Ret (Some ?v) |- _ =>
           apply (setBaseFromLocale_stored C _ _ _ _ Hs Hk) in H
             as (Hnz & Hty)
       end.
  all: try match goal with
       | |- marshalPair _ _ ?v _ = _ =>
           is_var v; destruct v; try discriminate Hty
       end.
  all: try match goal with
       | |- context [VStruct ?n (fst (setLocaleFromBase _ ?bv ?lfs ?keys))] =>
           let Hc := fresh "Hc" in
           assert (Hnzb : isZero bv = false) by assumption;
           destruct (setLocaleFromBase_cases C bv n lfs keys Hk Hnzb) as [Hc|Hc];
           [|rewrite Hc]
       end.
  all: unfold marshalPair; simpl; use_recorded; try rewrite Hc; try reflexivity.
  all: discriminate Hnz.
Qed.

Lemma marshalPair_idempotent_witness :
  marshalPair identConv ["EnUS"; "EnAU"] (VNil TString) (hookLocales "" "AU")
  = Ret (VPtr (VString "AU"), hookLocales "" "AU")
  /\ marshalPair identConv ["EnUS"; "EnAU"] (VPtr (VString "AU")) (hookLocales "" "AU")
     = Ret (VPtr (VString "AU"), hookLocales "" "AU").
Proof.
  split; [reflexivity|].
  exact (marshalPair_idempotent identConv ["EnUS"; "EnAU"] (VNil TString)
           (hookLocales "" "AU") (VPtr (VString "AU")) (hookLocales "" "AU")
           identConv_storesCellType identConv_keepsNonZero eq_refl eq_refl).
Defined.

(** ** The unmarshal hook on one pair *)

Lemma hasAnyFlatKey_none (props : gmap string (option value)) (prefix : string)
    (keys : list string) :
  (forall key, key ∈ keys -> props !! flatKey prefix key = None) ->
  hasAnyFlatKey props prefix keys = false.
Proof.
  induction keys as [|k rest IH]; intros H; simpl; [reflexivity|].
  rewrite (H k (list_elem_of_here _ _)).
  apply IH. intros key Hin. apply H. right. exact Hin.
Qed.

(** X20: a nil companion is allocated only for a flat key of a preferred
    locale.  When the raw map has no flat key for any of the preferred keys,
    whatever other flat keys it has, the companion stays nil and the base is
    left as it is. *)
Theorem unmarshalPair_nil_companion (C : conv) (keys : list string)
    (props : gmap string (option value)) (baseName : string) (base : value) (lt : gtype) :
  (forall key, key ∈ keys -> props !! flatKey (lcFirst baseName) key = None) ->
  unmarshalPair C keys (Some props) baseName base (VNil lt) = Ret (base, VNil lt).
Proof.
  intros H. unfold unmarshalPair, extractFlatLocaleKeys.
  rewrite (hasAnyFlatKey_none props _ keys H). simpl.
  destruct base; reflexivity.
Qed.

Lemma unmarshalPair_nil_companion_witness :
  unmarshalPair identConv ["EnUS"; "EnAU"]
    (Some (<["name_svSE" := Some (VString "Kalle")]> ∅)) "Name"
    (VString "") (VNil hookLocalesT)
  = Ret (VString "", VNil hookLocalesT).
Proof.
  apply (unmarshalPair_nil_companion identConv ["EnUS"; "EnAU"]
           (<["name_svSE" := Some (VString "Kalle")]> ∅) "Name" (VString "") hookLocalesT).
  intros key Hin. apply list_elem_of_In in Hin. simpl in Hin.
  destruct Hin as [<-|[<-|[]]]; reflexivity.
Defined.

(** X21: the unmarshal hook never writes to a companion from the base.  The
    companion it leaves is the one the extraction of the flat keys left, and
    without a raw map the companion it was given. *)
Theorem unmarshalPair_companion_from_map_only (C : conv) (keys : list string)
    (props : option (gmap string (option value))) (baseName : string)
    (base locale b' l' : value) :
  unmarshalPair C keys props baseName base locale = Ret (b', l') ->
  l' = fst (flatExtraction C keys props baseName locale)
  /\ (props = None -> l' = locale).
Proof.
  intros H.
  assert (Hl : l' = fst (flatExtraction C keys props baseName locale));
    [|split; [exact Hl|intros ->; exact Hl]].
  revert H. unfold unmarshalPair, flatExtraction.
  destruct (match props with Some m => _ | None => _ end) as [locale1 found]. simpl.
  intros H.
  destruct base; simpl in H;
    repeat (first [discriminate H | break_hyp H]); injection H as <- <-; congruence.
Qed.

Lemma unmarshalPair_companion_from_map_only_witness :
  unmarshalPair identConv ["EnUS"; "EnAU"] None "Name" (VString "Kalle")
    (VPtr (hookLocales "" ""))
  = Ret (VString "Kalle", VPtr (hookLocales "" ""))
  /\ VPtr (hookLocales "" "") = VPtr (hookLocales "" "").
Proof.
  split; [reflexivity|].
  exact (proj2 (unmarshalPair_companion_from_map_only identConv ["EnUS"; "EnAU"] None "Name"
                  (VString "Kalle") (VPtr (hookLocales "" "")) (VString "Kalle")
                  (VPtr (hookLocales "" "")) eq_refl) eq_refl).
Defined.

Lemma extractFields_not_found (C : conv) (props : gmap string (option value))
    (prefix : string) (lfs : list (fieldOf value)) :
  snd (extractFields C props prefix lfs false) = false ->
  fst (extractFields C props prefix lfs false) = lfs.
Proof.
  rewrite extractFields_spec. simpl. intros H.
  induction lfs as [|lf rest IH]; simpl in *; [reflexivity|].
  apply orb_false_iff in H as [H1 H2]. rewrite (IH H2). unfold populate.
  destruct (extractField C props prefix lf); [discriminate|reflexivity].
Qed.

(** X22: a base that is set survives the unmarshal hook when no flat key is
    found.  If the extraction finds no usable flat key and the base is not
    zero, the base is left as it is, and so is a companion that is not a nil
    pointer. *)
Theorem unmarshalPair_keeps_set_base (C : conv) (keys : list string)
    (props : option (gmap string (option value))) (baseName : string)
    (base locale : value) :
  snd (flatExtraction C keys props baseName locale) = false ->
  isZero (baseCell base) = false ->
  unmarshalPair C keys props baseName base locale
  = Ret (base, fst (flatExtraction C keys props baseName locale))
  /\ (isNilPtr locale = false -> fst (flatExtraction C keys props baseName locale) = locale).
Proof.
  intros Hf Hz. split.
  - unfold unmarshalPair. unfold flatExtraction in *.
    destruct (match props with Some m => _ | None => _ end) as [locale1 found].
    simpl in Hf |- *. subst found.
    destruct base; simpl in Hz |- *;
      try (rewrite isZero_zeroOf in Hz; discriminate Hz);
      try discriminate Hz;
      rewrite ?Hz;
      destruct locale1; try reflexivity;
      match goal with |- context [match ?lv with _ => _ end] => destruct lv end;
      reflexivity.
  - intros Hnil. unfold flatExtraction in *. destruct props as [m|]; [|reflexivity].
    unfold extractFlatLocaleKeys in *.
    destruct locale as [ | | | | |lv| | | ]; try discriminate Hnil; try reflexivity.
    + destruct lv; try reflexivity.
      destruct (extractFields C m (lcFirst baseName) fields false) as [l f] eqn:E.
      simpl in Hf |- *. subst f.
      pose proof (extractFields_not_found C m (lcFirst baseName) fields) as Hn.
      rewrite E in Hn. simpl in Hn. rewrite (Hn eq_refl). reflexivity.
    + destruct (extractFields C m (lcFirst baseName) fields false) as [l f] eqn:E.
      simpl in Hf |- *. subst f.
      pose proof (extractFields_not_found C m (lcFirst baseName) fields) as Hn.
      rewrite E in Hn. simpl in Hn. rewrite (Hn eq_refl). reflexivity.
Qed.

Lemma unmarshalPair_keeps_set_base_witness :
  unmarshalPair identConv ["EnUS"; "EnAU"]
    (Some (<["name" := Some (VString "fallback")]> ∅)) "Name"
    (VPtr (VString "Kalle")) (hookLocales "US" "")
  = Ret (VPtr (VString "Kalle"), hookLocales "US" "").
Proof.
  exact (proj1 (unmarshalPair_keeps_set_base identConv ["EnUS"; "EnAU"]
                  (Some (<["name" := Some (VString "fallback")]> ∅)) "Name"
                  (VPtr (VString "Kalle")) (hookLocales "US" "") eq_refl eq_refl)).
Defined.
